(** * csv-validator-cli: the validation pipeline of [csv_validator/validator.py]

    A shallow embedding of [validator.py] and of the parts of the Python
    runtime it calls ([str], [int], [repr], [sorted], [open] with a text
    codec, [csv.DictReader] in the excel dialect), followed by theorems
    about the pipeline.

    Conventions.
    - A Python [str] is its list of Unicode code points ([str := list N]);
      a file is a list of bytes.
    - An exception is a value of [exception]; a function that can raise
      returns [exception + A].
    - Code that touches the file system runs in the monad [IO], which
      threads the log of file-system events.
    - A [float] is an IEEE 754 binary64 number as [SpecFloat] specifies
      them; [int / int] rounds the quotient to the nearest one and raises
      [OverflowError] beyond the range.
    - [int] refuses a string of more than 4300 digits, the default of
      [sys.set_int_max_str_digits].
    - [files] tells of a path whether a regular, readable file is there;
      directories and unreadable files are not modelled.  The limit of the
      [csv] module on the length of a field ([csv.field_size_limit], 131072
      characters) and the memory of the interpreter are not modelled
      either; a file of at most 131072 bytes cannot reach the former.
    - Unicode tables are those of CPython 3.11 (Unicode 14.0). *)

From Stdlib Require Import NArith ZArith QArith List String Ascii Lia.
From Stdlib Require SpecFloat.
From Stdlib.Strings Require Import Byte.
From stdpp Require Import base option list gmap sorting.

(** ** Python strings *)

Definition str := list N.
Definition bytes := list byte.

(** Code points of an ASCII literal. *)
Fixpoint lit (s : string) : str :=
  match s with
  | EmptyString => []
  | String a s' => N_of_ascii a :: lit s'
  end.

Local Open Scope N_scope.

(** [str(i)] for a non-negative [int]. *)
Fixpoint uint_str (u : Decimal.uint) : str :=
  match u with
  | Decimal.Nil => []
  | Decimal.D0 u => 0x30 :: uint_str u
  | Decimal.D1 u => 0x31 :: uint_str u
  | Decimal.D2 u => 0x32 :: uint_str u
  | Decimal.D3 u => 0x33 :: uint_str u
  | Decimal.D4 u => 0x34 :: uint_str u
  | Decimal.D5 u => 0x35 :: uint_str u
  | Decimal.D6 u => 0x36 :: uint_str u
  | Decimal.D7 u => 0x37 :: uint_str u
  | Decimal.D8 u => 0x38 :: uint_str u
  | Decimal.D9 u => 0x39 :: uint_str u
  end.

Definition str_of_nat (i : nat) : str := uint_str (Nat.to_uint i).

(** *** Unicode character classes *)

Definition in_range (c : N) (r : N * N) : bool := (fst r <=? c) && (c <=? snd r).

(** [Py_UNICODE_ISSPACE]: the characters [str.strip()] removes. *)
Definition isspace (c : N) : bool :=
  existsb (in_range c)
    [(0x09, 0x0D); (0x1C, 0x20); (0x85, 0x85); (0xA0, 0xA0); (0x1680, 0x1680);
     (0x2000, 0x200A); (0x2028, 0x2029); (0x202F, 0x202F); (0x205F, 0x205F);
     (0x3000, 0x3000)].

(** [Py_ISSPACE]: the C locale's white space, skipped by [PyLong_FromString]. *)
Definition c_isspace (c : N) : bool := in_range c (0x09, 0x0D) || (c =? 0x20).

(** First code points of the runs of decimal digits (general category Nd);
    each run holds the digits 0 to 9 in order. *)
Definition decimal_runs : list N :=
  [0x30; 0x660; 0x6F0; 0x7C0; 0x966; 0x9E6; 0xA66; 0xAE6; 0xB66; 0xBE6; 0xC66;
   0xCE6; 0xD66; 0xDE6; 0xE50; 0xED0; 0xF20; 0x1040; 0x1090; 0x17E0; 0x1810;
   0x1946; 0x19D0; 0x1A80; 0x1A90; 0x1B50; 0x1BB0; 0x1C40; 0x1C50; 0xA620;
   0xA8D0; 0xA900; 0xA9D0; 0xA9F0; 0xAA50; 0xABF0; 0xFF10; 0x104A0; 0x10D30;
   0x11066; 0x110F0; 0x11136; 0x111D0; 0x112F0; 0x11450; 0x114D0; 0x11650;
   0x116C0; 0x11730; 0x118E0; 0x11950; 0x11C50; 0x11D50; 0x11DA0; 0x16A60;
   0x16AC0; 0x16B50; 0x1D7CE; 0x1D7D8; 0x1D7E2; 0x1D7EC; 0x1D7F6; 0x1E140;
   0x1E2F0; 0x1E950; 0x1FBF0].

(** [Py_UNICODE_TODECIMAL]: the digit value of a decimal digit of any script. *)
Definition todecimal (c : N) : option N :=
  match find (fun z => in_range c (z, z + 9)) decimal_runs with
  | Some z => Some (c - z)
  | None => None
  end.

(** Code points above U+007F that [Py_UNICODE_ISPRINTABLE] rejects
    (categories Cc, Cf, Cs, Co, Cn, Zl, Zp, Zs), as closed intervals. *)
Definition nonprintable_ranges : list (N * N) :=
 [
  (0x80, 0xA0); (0xAD, 0xAD); (0x378, 0x379); (0x380, 0x383); (0x38B, 0x38B);
  (0x38D, 0x38D); (0x3A2, 0x3A2); (0x530, 0x530); (0x557, 0x558);
  (0x58B, 0x58C); (0x590, 0x590); (0x5C8, 0x5CF); (0x5EB, 0x5EE);
  (0x5F5, 0x605); (0x61C, 0x61C); (0x6DD, 0x6DD); (0x70E, 0x70F);
  (0x74B, 0x74C); (0x7B2, 0x7BF); (0x7FB, 0x7FC); (0x82E, 0x82F);
  (0x83F, 0x83F); (0x85C, 0x85D); (0x85F, 0x85F); (0x86B, 0x86F);
  (0x88F, 0x897); (0x8E2, 0x8E2); (0x984, 0x984); (0x98D, 0x98E);
  (0x991, 0x992); (0x9A9, 0x9A9); (0x9B1, 0x9B1); (0x9B3, 0x9B5);
  (0x9BA, 0x9BB); (0x9C5, 0x9C6); (0x9C9, 0x9CA); (0x9CF, 0x9D6);
  (0x9D8, 0x9DB); (0x9DE, 0x9DE); (0x9E4, 0x9E5); (0x9FF, 0xA00);
  (0xA04, 0xA04); (0xA0B, 0xA0E); (0xA11, 0xA12); (0xA29, 0xA29);
  (0xA31, 0xA31); (0xA34, 0xA34); (0xA37, 0xA37); (0xA3A, 0xA3B);
  (0xA3D, 0xA3D); (0xA43, 0xA46); (0xA49, 0xA4A); (0xA4E, 0xA50);
  (0xA52, 0xA58); (0xA5D, 0xA5D); (0xA5F, 0xA65); (0xA77, 0xA80);
  (0xA84, 0xA84); (0xA8E, 0xA8E); (0xA92, 0xA92); (0xAA9, 0xAA9);
  (0xAB1, 0xAB1); (0xAB4, 0xAB4); (0xABA, 0xABB); (0xAC6, 0xAC6);
  (0xACA, 0xACA); (0xACE, 0xACF); (0xAD1, 0xADF); (0xAE4, 0xAE5);
  (0xAF2, 0xAF8); (0xB00, 0xB00); (0xB04, 0xB04); (0xB0D, 0xB0E);
  (0xB11, 0xB12); (0xB29, 0xB29); (0xB31, 0xB31); (0xB34, 0xB34);
  (0xB3A, 0xB3B); (0xB45, 0xB46); (0xB49, 0xB4A); (0xB4E, 0xB54);
  (0xB58, 0xB5B); (0xB5E, 0xB5E); (0xB64, 0xB65); (0xB78, 0xB81);
  (0xB84, 0xB84); (0xB8B, 0xB8D); (0xB91, 0xB91); (0xB96, 0xB98);
  (0xB9B, 0xB9B); (0xB9D, 0xB9D); (0xBA0, 0xBA2); (0xBA5, 0xBA7);
  (0xBAB, 0xBAD); (0xBBA, 0xBBD); (0xBC3, 0xBC5); (0xBC9, 0xBC9);
  (0xBCE, 0xBCF); (0xBD1, 0xBD6); (0xBD8, 0xBE5); (0xBFB, 0xBFF);
  (0xC0D, 0xC0D); (0xC11, 0xC11); (0xC29, 0xC29); (0xC3A, 0xC3B);
  (0xC45, 0xC45); (0xC49, 0xC49); (0xC4E, 0xC54); (0xC57, 0xC57);
  (0xC5B, 0xC5C); (0xC5E, 0xC5F); (0xC64, 0xC65); (0xC70, 0xC76);
  (0xC8D, 0xC8D); (0xC91, 0xC91); (0xCA9, 0xCA9); (0xCB4, 0xCB4);
  (0xCBA, 0xCBB); (0xCC5, 0xCC5); (0xCC9, 0xCC9); (0xCCE, 0xCD4);
  (0xCD7, 0xCDC); (0xCDF, 0xCDF); (0xCE4, 0xCE5); (0xCF0, 0xCF0);
  (0xCF3, 0xCFF); (0xD0D, 0xD0D); (0xD11, 0xD11); (0xD45, 0xD45);
  (0xD49, 0xD49); (0xD50, 0xD53); (0xD64, 0xD65); (0xD80, 0xD80);
  (0xD84, 0xD84); (0xD97, 0xD99); (0xDB2, 0xDB2); (0xDBC, 0xDBC);
  (0xDBE, 0xDBF); (0xDC7, 0xDC9); (0xDCB, 0xDCE); (0xDD5, 0xDD5);
  (0xDD7, 0xDD7); (0xDE0, 0xDE5); (0xDF0, 0xDF1); (0xDF5, 0xE00);
  (0xE3B, 0xE3E); (0xE5C, 0xE80); (0xE83, 0xE83); (0xE85, 0xE85);
  (0xE8B, 0xE8B); (0xEA4, 0xEA4); (0xEA6, 0xEA6); (0xEBE, 0xEBF);
  (0xEC5, 0xEC5); (0xEC7, 0xEC7); (0xECE, 0xECF); (0xEDA, 0xEDB);
  (0xEE0, 0xEFF); (0xF48, 0xF48); (0xF6D, 0xF70); (0xF98, 0xF98);
  (0xFBD, 0xFBD); (0xFCD, 0xFCD); (0xFDB, 0xFFF); (0x10C6, 0x10C6);
  (0x10C8, 0x10CC); (0x10CE, 0x10CF); (0x1249, 0x1249); (0x124E, 0x124F);
  (0x1257, 0x1257); (0x1259, 0x1259); (0x125E, 0x125F); (0x1289, 0x1289);
  (0x128E, 0x128F); (0x12B1, 0x12B1); (0x12B6, 0x12B7); (0x12BF, 0x12BF);
  (0x12C1, 0x12C1); (0x12C6, 0x12C7); (0x12D7, 0x12D7); (0x1311, 0x1311);
  (0x1316, 0x1317); (0x135B, 0x135C); (0x137D, 0x137F); (0x139A, 0x139F);
  (0x13F6, 0x13F7); (0x13FE, 0x13FF); (0x1680, 0x1680); (0x169D, 0x169F);
  (0x16F9, 0x16FF); (0x1716, 0x171E); (0x1737, 0x173F); (0x1754, 0x175F);
  (0x176D, 0x176D); (0x1771, 0x1771); (0x1774, 0x177F); (0x17DE, 0x17DF);
  (0x17EA, 0x17EF); (0x17FA, 0x17FF); (0x180E, 0x180E); (0x181A, 0x181F);
  (0x1879, 0x187F); (0x18AB, 0x18AF); (0x18F6, 0x18FF); (0x191F, 0x191F);
  (0x192C, 0x192F); (0x193C, 0x193F); (0x1941, 0x1943); (0x196E, 0x196F);
  (0x1975, 0x197F); (0x19AC, 0x19AF); (0x19CA, 0x19CF); (0x19DB, 0x19DD);
  (0x1A1C, 0x1A1D); (0x1A5F, 0x1A5F); (0x1A7D, 0x1A7E); (0x1A8A, 0x1A8F);
  (0x1A9A, 0x1A9F); (0x1AAE, 0x1AAF); (0x1ACF, 0x1AFF); (0x1B4D, 0x1B4F);
  (0x1B7F, 0x1B7F); (0x1BF4, 0x1BFB); (0x1C38, 0x1C3A); (0x1C4A, 0x1C4C);
  (0x1C89, 0x1C8F); (0x1CBB, 0x1CBC); (0x1CC8, 0x1CCF); (0x1CFB, 0x1CFF);
  (0x1F16, 0x1F17); (0x1F1E, 0x1F1F); (0x1F46, 0x1F47); (0x1F4E, 0x1F4F);
  (0x1F58, 0x1F58); (0x1F5A, 0x1F5A); (0x1F5C, 0x1F5C); (0x1F5E, 0x1F5E);
  (0x1F7E, 0x1F7F); (0x1FB5, 0x1FB5); (0x1FC5, 0x1FC5); (0x1FD4, 0x1FD5);
  (0x1FDC, 0x1FDC); (0x1FF0, 0x1FF1); (0x1FF5, 0x1FF5); (0x1FFF, 0x200F);
  (0x2028, 0x202F); (0x205F, 0x206F); (0x2072, 0x2073); (0x208F, 0x208F);
  (0x209D, 0x209F); (0x20C1, 0x20CF); (0x20F1, 0x20FF); (0x218C, 0x218F);
  (0x2427, 0x243F); (0x244B, 0x245F); (0x2B74, 0x2B75); (0x2B96, 0x2B96);
  (0x2CF4, 0x2CF8); (0x2D26, 0x2D26); (0x2D28, 0x2D2C); (0x2D2E, 0x2D2F);
  (0x2D68, 0x2D6E); (0x2D71, 0x2D7E); (0x2D97, 0x2D9F); (0x2DA7, 0x2DA7);
  (0x2DAF, 0x2DAF); (0x2DB7, 0x2DB7); (0x2DBF, 0x2DBF); (0x2DC7, 0x2DC7);
  (0x2DCF, 0x2DCF); (0x2DD7, 0x2DD7); (0x2DDF, 0x2DDF); (0x2E5E, 0x2E7F);
  (0x2E9A, 0x2E9A); (0x2EF4, 0x2EFF); (0x2FD6, 0x2FEF); (0x2FFC, 0x3000);
  (0x3040, 0x3040); (0x3097, 0x3098); (0x3100, 0x3104); (0x3130, 0x3130);
  (0x318F, 0x318F); (0x31E4, 0x31EF); (0x321F, 0x321F); (0xA48D, 0xA48F);
  (0xA4C7, 0xA4CF); (0xA62C, 0xA63F); (0xA6F8, 0xA6FF); (0xA7CB, 0xA7CF);
  (0xA7D2, 0xA7D2); (0xA7D4, 0xA7D4); (0xA7DA, 0xA7F1); (0xA82D, 0xA82F);
  (0xA83A, 0xA83F); (0xA878, 0xA87F); (0xA8C6, 0xA8CD); (0xA8DA, 0xA8DF);
  (0xA954, 0xA95E); (0xA97D, 0xA97F); (0xA9CE, 0xA9CE); (0xA9DA, 0xA9DD);
  (0xA9FF, 0xA9FF); (0xAA37, 0xAA3F); (0xAA4E, 0xAA4F); (0xAA5A, 0xAA5B);
  (0xAAC3, 0xAADA); (0xAAF7, 0xAB00); (0xAB07, 0xAB08); (0xAB0F, 0xAB10);
  (0xAB17, 0xAB1F); (0xAB27, 0xAB27); (0xAB2F, 0xAB2F); (0xAB6C, 0xAB6F);
  (0xABEE, 0xABEF); (0xABFA, 0xABFF); (0xD7A4, 0xD7AF); (0xD7C7, 0xD7CA);
  (0xD7FC, 0xF8FF); (0xFA6E, 0xFA6F); (0xFADA, 0xFAFF); (0xFB07, 0xFB12);
  (0xFB18, 0xFB1C); (0xFB37, 0xFB37); (0xFB3D, 0xFB3D); (0xFB3F, 0xFB3F);
  (0xFB42, 0xFB42); (0xFB45, 0xFB45); (0xFBC3, 0xFBD2); (0xFD90, 0xFD91);
  (0xFDC8, 0xFDCE); (0xFDD0, 0xFDEF); (0xFE1A, 0xFE1F); (0xFE53, 0xFE53);
  (0xFE67, 0xFE67); (0xFE6C, 0xFE6F); (0xFE75, 0xFE75); (0xFEFD, 0xFF00);
  (0xFFBF, 0xFFC1); (0xFFC8, 0xFFC9); (0xFFD0, 0xFFD1); (0xFFD8, 0xFFD9);
  (0xFFDD, 0xFFDF); (0xFFE7, 0xFFE7); (0xFFEF, 0xFFFB); (0xFFFE, 0xFFFF);
  (0x1000C, 0x1000C); (0x10027, 0x10027); (0x1003B, 0x1003B);
  (0x1003E, 0x1003E); (0x1004E, 0x1004F); (0x1005E, 0x1007F);
  (0x100FB, 0x100FF); (0x10103, 0x10106); (0x10134, 0x10136);
  (0x1018F, 0x1018F); (0x1019D, 0x1019F); (0x101A1, 0x101CF);
  (0x101FE, 0x1027F); (0x1029D, 0x1029F); (0x102D1, 0x102DF);
  (0x102FC, 0x102FF); (0x10324, 0x1032C); (0x1034B, 0x1034F);
  (0x1037B, 0x1037F); (0x1039E, 0x1039E); (0x103C4, 0x103C7);
  (0x103D6, 0x103FF); (0x1049E, 0x1049F); (0x104AA, 0x104AF);
  (0x104D4, 0x104D7); (0x104FC, 0x104FF); (0x10528, 0x1052F);
  (0x10564, 0x1056E); (0x1057B, 0x1057B); (0x1058B, 0x1058B);
  (0x10593, 0x10593); (0x10596, 0x10596); (0x105A2, 0x105A2);
  (0x105B2, 0x105B2); (0x105BA, 0x105BA); (0x105BD, 0x105FF);
  (0x10737, 0x1073F); (0x10756, 0x1075F); (0x10768, 0x1077F);
  (0x10786, 0x10786); (0x107B1, 0x107B1); (0x107BB, 0x107FF);
  (0x10806, 0x10807); (0x10809, 0x10809); (0x10836, 0x10836);
  (0x10839, 0x1083B); (0x1083D, 0x1083E); (0x10856, 0x10856);
  (0x1089F, 0x108A6); (0x108B0, 0x108DF); (0x108F3, 0x108F3);
  (0x108F6, 0x108FA); (0x1091C, 0x1091E); (0x1093A, 0x1093E);
  (0x10940, 0x1097F); (0x109B8, 0x109BB); (0x109D0, 0x109D1);
  (0x10A04, 0x10A04); (0x10A07, 0x10A0B); (0x10A14, 0x10A14);
  (0x10A18, 0x10A18); (0x10A36, 0x10A37); (0x10A3B, 0x10A3E);
  (0x10A49, 0x10A4F); (0x10A59, 0x10A5F); (0x10AA0, 0x10ABF);
  (0x10AE7, 0x10AEA); (0x10AF7, 0x10AFF); (0x10B36, 0x10B38);
  (0x10B56, 0x10B57); (0x10B73, 0x10B77); (0x10B92, 0x10B98);
  (0x10B9D, 0x10BA8); (0x10BB0, 0x10BFF); (0x10C49, 0x10C7F);
  (0x10CB3, 0x10CBF); (0x10CF3, 0x10CF9); (0x10D28, 0x10D2F);
  (0x10D3A, 0x10E5F); (0x10E7F, 0x10E7F); (0x10EAA, 0x10EAA);
  (0x10EAE, 0x10EAF); (0x10EB2, 0x10EFF); (0x10F28, 0x10F2F);
  (0x10F5A, 0x10F6F); (0x10F8A, 0x10FAF); (0x10FCC, 0x10FDF);
  (0x10FF7, 0x10FFF); (0x1104E, 0x11051); (0x11076, 0x1107E);
  (0x110BD, 0x110BD); (0x110C3, 0x110CF); (0x110E9, 0x110EF);
  (0x110FA, 0x110FF); (0x11135, 0x11135); (0x11148, 0x1114F);
  (0x11177, 0x1117F); (0x111E0, 0x111E0); (0x111F5, 0x111FF);
  (0x11212, 0x11212); (0x1123F, 0x1127F); (0x11287, 0x11287);
  (0x11289, 0x11289); (0x1128E, 0x1128E); (0x1129E, 0x1129E);
  (0x112AA, 0x112AF); (0x112EB, 0x112EF); (0x112FA, 0x112FF);
  (0x11304, 0x11304); (0x1130D, 0x1130E); (0x11311, 0x11312);
  (0x11329, 0x11329); (0x11331, 0x11331); (0x11334, 0x11334);
  (0x1133A, 0x1133A); (0x11345, 0x11346); (0x11349, 0x1134A);
  (0x1134E, 0x1134F); (0x11351, 0x11356); (0x11358, 0x1135C);
  (0x11364, 0x11365); (0x1136D, 0x1136F); (0x11375, 0x113FF);
  (0x1145C, 0x1145C); (0x11462, 0x1147F); (0x114C8, 0x114CF);
  (0x114DA, 0x1157F); (0x115B6, 0x115B7); (0x115DE, 0x115FF);
  (0x11645, 0x1164F); (0x1165A, 0x1165F); (0x1166D, 0x1167F);
  (0x116BA, 0x116BF); (0x116CA, 0x116FF); (0x1171B, 0x1171C);
  (0x1172C, 0x1172F); (0x11747, 0x117FF); (0x1183C, 0x1189F);
  (0x118F3, 0x118FE); (0x11907, 0x11908); (0x1190A, 0x1190B);
  (0x11914, 0x11914); (0x11917, 0x11917); (0x11936, 0x11936);
  (0x11939, 0x1193A); (0x11947, 0x1194F); (0x1195A, 0x1199F);
  (0x119A8, 0x119A9); (0x119D8, 0x119D9); (0x119E5, 0x119FF);
  (0x11A48, 0x11A4F); (0x11AA3, 0x11AAF); (0x11AF9, 0x11BFF);
  (0x11C09, 0x11C09); (0x11C37, 0x11C37); (0x11C46, 0x11C4F);
  (0x11C6D, 0x11C6F); (0x11C90, 0x11C91); (0x11CA8, 0x11CA8);
  (0x11CB7, 0x11CFF); (0x11D07, 0x11D07); (0x11D0A, 0x11D0A);
  (0x11D37, 0x11D39); (0x11D3B, 0x11D3B); (0x11D3E, 0x11D3E);
  (0x11D48, 0x11D4F); (0x11D5A, 0x11D5F); (0x11D66, 0x11D66);
  (0x11D69, 0x11D69); (0x11D8F, 0x11D8F); (0x11D92, 0x11D92);
  (0x11D99, 0x11D9F); (0x11DAA, 0x11EDF); (0x11EF9, 0x11FAF);
  (0x11FB1, 0x11FBF); (0x11FF2, 0x11FFE); (0x1239A, 0x123FF);
  (0x1246F, 0x1246F); (0x12475, 0x1247F); (0x12544, 0x12F8F);
  (0x12FF3, 0x12FFF); (0x1342F, 0x143FF); (0x14647, 0x167FF);
  (0x16A39, 0x16A3F); (0x16A5F, 0x16A5F); (0x16A6A, 0x16A6D);
  (0x16ABF, 0x16ABF); (0x16ACA, 0x16ACF); (0x16AEE, 0x16AEF);
  (0x16AF6, 0x16AFF); (0x16B46, 0x16B4F); (0x16B5A, 0x16B5A);
  (0x16B62, 0x16B62); (0x16B78, 0x16B7C); (0x16B90, 0x16E3F);
  (0x16E9B, 0x16EFF); (0x16F4B, 0x16F4E); (0x16F88, 0x16F8E);
  (0x16FA0, 0x16FDF); (0x16FE5, 0x16FEF); (0x16FF2, 0x16FFF);
  (0x187F8, 0x187FF); (0x18CD6, 0x18CFF); (0x18D09, 0x1AFEF);
  (0x1AFF4, 0x1AFF4); (0x1AFFC, 0x1AFFC); (0x1AFFF, 0x1AFFF);
  (0x1B123, 0x1B14F); (0x1B153, 0x1B163); (0x1B168, 0x1B16F);
  (0x1B2FC, 0x1BBFF); (0x1BC6B, 0x1BC6F); (0x1BC7D, 0x1BC7F);
  (0x1BC89, 0x1BC8F); (0x1BC9A, 0x1BC9B); (0x1BCA0, 0x1CEFF);
  (0x1CF2E, 0x1CF2F); (0x1CF47, 0x1CF4F); (0x1CFC4, 0x1CFFF);
  (0x1D0F6, 0x1D0FF); (0x1D127, 0x1D128); (0x1D173, 0x1D17A);
  (0x1D1EB, 0x1D1FF); (0x1D246, 0x1D2DF); (0x1D2F4, 0x1D2FF);
  (0x1D357, 0x1D35F); (0x1D379, 0x1D3FF); (0x1D455, 0x1D455);
  (0x1D49D, 0x1D49D); (0x1D4A0, 0x1D4A1); (0x1D4A3, 0x1D4A4);
  (0x1D4A7, 0x1D4A8); (0x1D4AD, 0x1D4AD); (0x1D4BA, 0x1D4BA);
  (0x1D4BC, 0x1D4BC); (0x1D4C4, 0x1D4C4); (0x1D506, 0x1D506);
  (0x1D50B, 0x1D50C); (0x1D515, 0x1D515); (0x1D51D, 0x1D51D);
  (0x1D53A, 0x1D53A); (0x1D53F, 0x1D53F); (0x1D545, 0x1D545);
  (0x1D547, 0x1D549); (0x1D551, 0x1D551); (0x1D6A6, 0x1D6A7);
  (0x1D7CC, 0x1D7CD); (0x1DA8C, 0x1DA9A); (0x1DAA0, 0x1DAA0);
  (0x1DAB0, 0x1DEFF); (0x1DF1F, 0x1DFFF); (0x1E007, 0x1E007);
  (0x1E019, 0x1E01A); (0x1E022, 0x1E022); (0x1E025, 0x1E025);
  (0x1E02B, 0x1E0FF); (0x1E12D, 0x1E12F); (0x1E13E, 0x1E13F);
  (0x1E14A, 0x1E14D); (0x1E150, 0x1E28F); (0x1E2AF, 0x1E2BF);
  (0x1E2FA, 0x1E2FE); (0x1E300, 0x1E7DF); (0x1E7E7, 0x1E7E7);
  (0x1E7EC, 0x1E7EC); (0x1E7EF, 0x1E7EF); (0x1E7FF, 0x1E7FF);
  (0x1E8C5, 0x1E8C6); (0x1E8D7, 0x1E8FF); (0x1E94C, 0x1E94F);
  (0x1E95A, 0x1E95D); (0x1E960, 0x1EC70); (0x1ECB5, 0x1ED00);
  (0x1ED3E, 0x1EDFF); (0x1EE04, 0x1EE04); (0x1EE20, 0x1EE20);
  (0x1EE23, 0x1EE23); (0x1EE25, 0x1EE26); (0x1EE28, 0x1EE28);
  (0x1EE33, 0x1EE33); (0x1EE38, 0x1EE38); (0x1EE3A, 0x1EE3A);
  (0x1EE3C, 0x1EE41); (0x1EE43, 0x1EE46); (0x1EE48, 0x1EE48);
  (0x1EE4A, 0x1EE4A); (0x1EE4C, 0x1EE4C); (0x1EE50, 0x1EE50);
  (0x1EE53, 0x1EE53); (0x1EE55, 0x1EE56); (0x1EE58, 0x1EE58);
  (0x1EE5A, 0x1EE5A); (0x1EE5C, 0x1EE5C); (0x1EE5E, 0x1EE5E);
  (0x1EE60, 0x1EE60); (0x1EE63, 0x1EE63); (0x1EE65, 0x1EE66);
  (0x1EE6B, 0x1EE6B); (0x1EE73, 0x1EE73); (0x1EE78, 0x1EE78);
  (0x1EE7D, 0x1EE7D); (0x1EE7F, 0x1EE7F); (0x1EE8A, 0x1EE8A);
  (0x1EE9C, 0x1EEA0); (0x1EEA4, 0x1EEA4); (0x1EEAA, 0x1EEAA);
  (0x1EEBC, 0x1EEEF); (0x1EEF2, 0x1EFFF); (0x1F02C, 0x1F02F);
  (0x1F094, 0x1F09F); (0x1F0AF, 0x1F0B0); (0x1F0C0, 0x1F0C0);
  (0x1F0D0, 0x1F0D0); (0x1F0F6, 0x1F0FF); (0x1F1AE, 0x1F1E5);
  (0x1F203, 0x1F20F); (0x1F23C, 0x1F23F); (0x1F249, 0x1F24F);
  (0x1F252, 0x1F25F); (0x1F266, 0x1F2FF); (0x1F6D8, 0x1F6DC);
  (0x1F6ED, 0x1F6EF); (0x1F6FD, 0x1F6FF); (0x1F774, 0x1F77F);
  (0x1F7D9, 0x1F7DF); (0x1F7EC, 0x1F7EF); (0x1F7F1, 0x1F7FF);
  (0x1F80C, 0x1F80F); (0x1F848, 0x1F84F); (0x1F85A, 0x1F85F);
  (0x1F888, 0x1F88F); (0x1F8AE, 0x1F8AF); (0x1F8B2, 0x1F8FF);
  (0x1FA54, 0x1FA5F); (0x1FA6E, 0x1FA6F); (0x1FA75, 0x1FA77);
  (0x1FA7D, 0x1FA7F); (0x1FA87, 0x1FA8F); (0x1FAAD, 0x1FAAF);
  (0x1FABB, 0x1FABF); (0x1FAC6, 0x1FACF); (0x1FADA, 0x1FADF);
  (0x1FAE8, 0x1FAEF); (0x1FAF7, 0x1FAFF); (0x1FB93, 0x1FB93);
  (0x1FBCB, 0x1FBEF); (0x1FBFA, 0x1FFFF); (0x2A6E0, 0x2A6FF);
  (0x2B739, 0x2B73F); (0x2B81E, 0x2B81F); (0x2CEA2, 0x2CEAF);
  (0x2EBE1, 0x2F7FF); (0x2FA1E, 0x2FFFF); (0x3134B, 0xE00FF);
  (0xE01F0, 0x10FFFF) ].

Definition isprintable (c : N) : bool :=
  if c <? 0x80 then (0x20 <=? c) && (c <? 0x7F)
  else negb (existsb (in_range c) nonprintable_ranges).

(** *** [repr] and [str] of strings and of sequences of strings *)

Definition hex_digit (n : N) : N := if n <? 10 then 0x30 + n else 0x57 + n.

(** The [width] low hexadecimal digits of [n], most significant first. *)
Fixpoint hex_fixed (width : nat) (n : N) : str :=
  match width with
  | O => []
  | S w => hex_fixed w (n / 16) ++ [hex_digit (n mod 16)]
  end.

Definition str_contains (c : N) (s : str) : bool := existsb (N.eqb c) s.

(** [unicode_repr] picks double quotes only for a string that holds a single
    quote and no double quote. *)
Definition repr_quote (s : str) : N :=
  if str_contains 0x27 s && negb (str_contains 0x22 s) then 0x22 else 0x27.

Definition repr_char (quote c : N) : str :=
  if (c =? quote) || (c =? 0x5C) then [0x5C; c]
  else if c =? 0x09 then lit "\t"
  else if c =? 0x0A then lit "\n"
  else if c =? 0x0D then lit "\r"
  else if (c <? 0x20) || (c =? 0x7F) then lit "\x" ++ hex_fixed 2 c
  else if c <? 0x7F then [c]
  else if isprintable c then [c]
  else if c <=? 0xFF then lit "\x" ++ hex_fixed 2 c
  else if c <=? 0xFFFF then lit "\u" ++ hex_fixed 4 c
  else lit "\U" ++ hex_fixed 8 c.

Definition repr (s : str) : str :=
  let quote := repr_quote s in
  [quote] ++ concat (map (repr_char quote) s) ++ [quote].

(** [', '.join(l)] *)
Fixpoint join_comma (l : list str) : str :=
  match l with
  | [] => []
  | [x] => x
  | x :: l' => x ++ lit ", " ++ join_comma l'
  end.

(** [str(l)] for a list of strings. *)
Definition str_of_list (l : list str) : str :=
  lit "[" ++ join_comma (map repr l) ++ lit "]".

(** [str(t)] for a tuple of strings. *)
Definition str_of_tuple (l : list str) : str :=
  match l with
  | [x] => lit "(" ++ repr x ++ lit ",)"
  | _ => lit "(" ++ join_comma (map repr l) ++ lit ")"
  end.

(** [hay.startswith(needle)] *)
Fixpoint starts_with (needle hay : str) : bool :=
  match needle, hay with
  | [], _ => true
  | a :: needle', b :: hay' => (a =? b)%N && starts_with needle' hay'
  | _ :: _, [] => false
  end.

(** *** [str.strip()] *)

Fixpoint lstrip (s : str) : str :=
  match s with
  | c :: s' => if isspace c then lstrip s' else s
  | [] => []
  end.

Definition rstrip (s : str) : str := rev (lstrip (rev s)).

Definition strip (s : str) : str := rstrip (lstrip s).

(** *** [int(s)]

    [PyLong_FromUnicodeObject]: the string is first rewritten to ASCII
    ([_PyUnicode_TransformDecimalAndSpaceToASCII]), then parsed in base 10
    ([PyLong_FromString]).  [None] stands for the [ValueError]. *)

(** [sys.get_int_max_str_digits()]: the default, which the program keeps. *)
Definition int_max_str_digits : N := 4300.

Fixpoint transform_decimal_and_space (s : str) : str :=
  match s with
  | [] => []
  | c :: s' =>
      if c <? 127 then c :: transform_decimal_and_space s'
      else if isspace c then 0x20 :: transform_decimal_and_space s'
      else match todecimal c with
           | Some d => (0x30 + d) :: transform_decimal_and_space s'
           | None => [0x3F]
           end
  end.

Fixpoint skip_c_space (s : str) : str :=
  match s with
  | c :: s' => if c_isspace c then skip_c_space s' else s
  | [] => []
  end.

Definition ascii_digit (c : N) : bool := in_range c (0x30, 0x39).

(** The scanning loop of [PyLong_FromString]: digits and underscores, no two
    underscores in a row and none at the end.  Returns the value read and
    the rest of the input. *)
Fixpoint scan_digits (prev : N) (acc : Z) (s : str) : option (Z * str) :=
  match s with
  | c :: s' =>
      if ascii_digit c then scan_digits c (10 * acc + Z.of_N (c - 0x30))%Z s'
      else if c =? 0x5F then
        if prev =? 0x5F then None else scan_digits c acc s'
      else if prev =? 0x5F then None else Some (acc, s)
  | [] => if prev =? 0x5F then None else Some (acc, [])
  end.

(** The number of digits the scanning loop counts: those of the leading
    run of digits and underscores. *)
Fixpoint count_digits (s : str) : N :=
  match s with
  | c :: s' =>
      if ascii_digit c then 1 + count_digits s'
      else if c =? 0x5F then count_digits s'
      else 0
  | [] => 0
  end.

Definition head_is (c : N) (s : str) : bool :=
  match s with
  | x :: _ => x =? c
  | [] => false
  end.

(** The input of the scanning loop: what follows the leading white space
    and the sign. *)
Definition unsigned_part (s : str) : str :=
  let s := skip_c_space s in
  if head_is 0x2B s || head_is 0x2D s then tail s else s.

Definition long_from_string (s : str) : option Z :=
  let sign := if head_is 0x2D (skip_c_space s) then (-1)%Z else 1%Z in
  let s := unsigned_part s in
  if head_is 0x5F s then None
  else
    match scan_digits 0 0%Z s with
    | None => None
    | Some (z, rest) =>
        if int_max_str_digits <? count_digits s then None
        else if (length rest =? length s)%nat then None
        else match skip_c_space rest with
             | [] => Some (sign * z)%Z
             | _ :: _ => None
             end
    end.

Definition py_int (s : str) : option Z :=
  long_from_string (transform_decimal_and_space s).

(** The message of the [ValueError] [int(s)] raises: that of the digit
    limit when the scanning loop has counted too many digits, else that of
    an invalid literal, which shows at most 200 characters of [repr(s)]. *)
Definition int_error_message (s : str) : str :=
  let t := unsigned_part (transform_decimal_and_space s) in
  let digits := count_digits t in
  if negb (head_is 0x5F t) && bool_decide (is_Some (scan_digits 0 0%Z t))
     && (int_max_str_digits <? digits)
  then lit "Exceeds the limit (4300 digits) for integer string conversion: value has "
       ++ uint_str (N.to_uint digits)
       ++ lit " digits; use sys.set_int_max_str_digits() to increase the limit"
  else lit "invalid literal for int() with base 10: " ++ take 200 (repr s).

(** [x or ''] for [x : str | None]. *)
Definition or_empty (x : option str) : str :=
  match x with
  | Some (c :: s) => c :: s
  | _ => []
  end.

Local Close Scope N_scope.

(** ** Text codecs

    [decode b = None] stands for the [UnicodeDecodeError] the codec raises
    somewhere in [b]. *)

Section Codecs.
Local Open Scope N_scope.

Definition continuation (b : N) : bool := in_range b (0x80, 0xBF).

(** Strict UTF-8: no overlong forms, no surrogates, nothing above U+10FFFF. *)
Fixpoint utf_8_decode_N (bs : list N) : option str :=
  match bs with
  | [] => Some []
  | b0 :: r0 =>
      if b0 <? 0x80 then cons b0 <$> utf_8_decode_N r0
      else if in_range b0 (0xC2, 0xDF) then
        match r0 with
        | b1 :: r1 =>
            if continuation b1
            then cons ((b0 - 0xC0) * 0x40 + (b1 - 0x80)) <$> utf_8_decode_N r1
            else None
        | _ => None
        end
      else if in_range b0 (0xE0, 0xEF) then
        match r0 with
        | b1 :: b2 :: r2 =>
            if in_range b1 (if b0 =? 0xE0 then 0xA0 else 0x80,
                            if b0 =? 0xED then 0x9F else 0xBF)
               && continuation b2
            then cons ((b0 - 0xE0) * 0x1000 + (b1 - 0x80) * 0x40 + (b2 - 0x80))
                   <$> utf_8_decode_N r2
            else None
        | _ => None
        end
      else if in_range b0 (0xF0, 0xF4) then
        match r0 with
        | b1 :: b2 :: b3 :: r3 =>
            if in_range b1 (if b0 =? 0xF0 then 0x90 else 0x80,
                            if b0 =? 0xF4 then 0x8F else 0xBF)
               && continuation b2 && continuation b3
            then cons ((b0 - 0xF0) * 0x40000 + (b1 - 0x80) * 0x1000
                       + (b2 - 0x80) * 0x40 + (b3 - 0x80))
                   <$> utf_8_decode_N r3
            else None
        | _ => None
        end
      else None
  end.

Definition utf_8_decode (b : bytes) : option str :=
  utf_8_decode_N (map Byte.to_N b).

(** [utf-8-sig]: UTF-8 after an optional byte order mark EF BB BF. *)
Definition utf_8_sig_decode (b : bytes) : option str :=
  let bs := map Byte.to_N b in
  if starts_with [0xEF; 0xBB; 0xBF] bs
  then utf_8_decode_N (drop 3 bs)
  else utf_8_decode_N bs.

(** Windows-1252: bytes 80 to 9F go through a table that leaves five of them
    undefined; every other byte is its own code point. *)
Definition cp1252_high : list (option N) :=
  [Some 0x20AC; None; Some 0x201A; Some 0x0192; Some 0x201E; Some 0x2026;
   Some 0x2020; Some 0x2021; Some 0x02C6; Some 0x2030; Some 0x0160;
   Some 0x2039; Some 0x0152; None; Some 0x017D; None;
   None; Some 0x2018; Some 0x2019; Some 0x201C; Some 0x201D; Some 0x2022;
   Some 0x2013; Some 0x2014; Some 0x02DC; Some 0x2122; Some 0x0161;
   Some 0x203A; Some 0x0153; None; Some 0x017E; Some 0x0178].

Definition cp1252_char (b : N) : option N :=
  if in_range b (0x80, 0x9F)
  then mjoin (cp1252_high !! N.to_nat (b - 0x80))
  else Some b.

Definition cp1252_decode (b : bytes) : option str :=
  mapM cp1252_char (map Byte.to_N b).

End Codecs.

Definition decoder := bytes -> option str.

(** ** The runtime the program runs in

    [files] gives the content of the regular, readable file at a path, if
    there is one; [extra_codecs] is the codec registry beyond the three
    codecs modelled above (aliases included). *)
Record runtime := {
  files : str -> option bytes;
  extra_codecs : str -> option decoder
}.

Definition codecs_lookup (rt : runtime) (name : str) : option decoder :=
  if decide (name = lit "utf-8") then Some utf_8_decode
  else if decide (name = lit "utf-8-sig") then Some utf_8_sig_decode
  else if decide (name = lit "cp1252") then Some cp1252_decode
  else extra_codecs rt name.

(** ** Exceptions and the [IO] monad *)

Inductive exception :=
| FileNotFoundError (msg : str)
| ValueError (msg : str)
| UnicodeDecodeError
| LookupError (msg : str)
| ZeroDivisionError (msg : str)
| OverflowError (msg : str)
| csv_Error (msg : str).

Inductive event :=
| EvExists (path : str)                 (* [path.exists()] *)
| EvOpen (path : str) (encoding : str). (* [path.open(encoding=...)] and the reads that follow *)

Definition IO (A : Type) : Type :=
  runtime -> list event -> (exception + A) * list event.

Definition ret {A} (x : A) : IO A := fun _ log => (inr x, log).
Definition raise {A} (e : exception) : IO A := fun _ log => (inl e, log).
Definition bind {A B} (m : IO A) (k : A -> IO B) : IO B :=
  fun rt log =>
    match m rt log with
    | (inl e, log') => (inl e, log')
    | (inr x, log') => k x rt log'
    end.
Definition lift {A} (r : exception + A) : IO A := fun _ log => (r, log).

Declare Scope io_scope.
Delimit Scope io_scope with io.
Notation "'let!' x ':=' m 'in' k" := (bind m (fun x => k))
  (at level 10, x name, m at level 100, k at level 200) : io_scope.
Notation "'do!' m 'in' k" := (bind m (fun _ => k))
  (at level 10, m at level 100, k at level 200) : io_scope.

(** [try: body except UnicodeDecodeError: handler] *)
Definition except_UnicodeDecodeError {A} (body handler : IO A) : IO A :=
  fun rt log =>
    match body rt log with
    | (inl UnicodeDecodeError, log') => handler rt log'
    | r => r
    end.

(** Run a computation from an empty log. *)
Definition run {A} (rt : runtime) (m : IO A) : (exception + A) * list event :=
  m rt [].

(** [Path.exists()] *)
Definition path_exists (path : str) : IO bool :=
  fun rt log => (inr (bool_decide (is_Some (files rt path))), log ++ [EvExists path]).

(** [path.open(newline='', encoding=enc)] followed by reading the file to
    its end: the whole text, or the first exception on the way. *)
Definition open_read (path enc : str) : IO str :=
  fun rt log =>
    let log' := log ++ [EvOpen path enc] in
    match files rt path with
    | None =>
        (inl (FileNotFoundError
                (lit "[Errno 2] No such file or directory: " ++ repr path)), log')
    | Some b =>
        match codecs_lookup rt enc with
        | None => (inl (LookupError (lit "unknown encoding: " ++ enc)), log')
        | Some decode =>
            match decode b with
            | None => (inl UnicodeDecodeError, log')
            | Some text => (inr text, log')
            end
        end
    end.

(** ** The [csv] module: [csv.reader] and [csv.DictReader], excel dialect

    Delimiter comma, quote character U+0022, doubled quotes, no escape character,
    no skipping of initial space, not strict. *)

Section Csv.
Local Open Scope N_scope.

(** Iterating over a text file opened with [newline='']: a line ends after
    [\n], [\r] or [\r\n], and the ending stays part of the line. *)
Fixpoint split_lines (cur : str) (text : str) : list str :=
  match text with
  | [] => match cur with [] => [] | _ => [cur] end
  | c :: text' =>
      if c =? 0x0A then (cur ++ [c]) :: split_lines [] text'
      else if c =? 0x0D then
        match text' with
        | c' :: text'' =>
            if c' =? 0x0A
            then (cur ++ [0x0D; 0x0A]) :: split_lines [] text''
            else (cur ++ [c]) :: split_lines [] text'
        | [] => (cur ++ [c]) :: split_lines [] text'
        end
      else split_lines (cur ++ [c]) text'
  end.

Inductive ParserState :=
| START_RECORD | START_FIELD | IN_FIELD | IN_QUOTED_FIELD
| QUOTE_IN_QUOTED_FIELD | EAT_CRNL.

Global Instance ParserState_eq_dec : EqDecision ParserState.
Proof. solve_decision. Defined.

(** The parser state of a [ReaderObj]: the state, the field being read and
    the fields of the record read so far. *)
Record ReaderObj := {
  state : ParserState;
  field : str;
  fields : list str
}.

Definition parse_reset : ReaderObj :=
  {| state := START_RECORD; field := []; fields := [] |}.

Definition parse_save_field (self : ReaderObj) : ReaderObj :=
  {| state := state self; field := []; fields := fields self ++ [field self] |}.

Definition parse_add_char (self : ReaderObj) (c : N) : ReaderObj :=
  {| state := state self; field := field self ++ [c]; fields := fields self |}.

Definition set_state (self : ReaderObj) (st : ParserState) : ReaderObj :=
  {| state := st; field := field self; fields := fields self |}.

Definition is_newline (c : N) : bool := (c =? 0x0A) || (c =? 0x0D).

(** [parse_process_char]; [c = None] is the end-of-line marker [EOL] that
    the reader feeds after the last character of each line. *)
Definition parse_process_char (self : ReaderObj) (c : option N)
  : exception + ReaderObj :=
  let start_field (self : ReaderObj) :=
    match c with
    | None => inr (set_state (parse_save_field self) START_RECORD)
    | Some ch =>
        if is_newline ch then inr (set_state (parse_save_field self) EAT_CRNL)
        else if ch =? 0x22 then inr (set_state self IN_QUOTED_FIELD)
        else if ch =? 0x2C then inr (parse_save_field self)
        else inr (set_state (parse_add_char self ch) IN_FIELD)
    end in
  match state self with
  | START_RECORD =>
      match c with
      | None => inr self
      | Some ch =>
          if is_newline ch then inr (set_state self EAT_CRNL)
          else start_field (set_state self START_FIELD)
      end
  | START_FIELD => start_field self
  | IN_FIELD =>
      match c with
      | None => inr (set_state (parse_save_field self) START_RECORD)
      | Some ch =>
          if is_newline ch then inr (set_state (parse_save_field self) EAT_CRNL)
          else if ch =? 0x2C then inr (set_state (parse_save_field self) START_FIELD)
          else inr (parse_add_char self ch)
      end
  | IN_QUOTED_FIELD =>
      match c with
      | None => inr self
      | Some ch =>
          if ch =? 0x22 then inr (set_state self QUOTE_IN_QUOTED_FIELD)
          else inr (parse_add_char self ch)
      end
  | QUOTE_IN_QUOTED_FIELD =>
      match c with
      | None => inr (set_state (parse_save_field self) START_RECORD)
      | Some ch =>
          if ch =? 0x22 then inr (set_state (parse_add_char self ch) IN_QUOTED_FIELD)
          else if ch =? 0x2C then inr (set_state (parse_save_field self) START_FIELD)
          else if is_newline ch then inr (set_state (parse_save_field self) EAT_CRNL)
          else inr (set_state (parse_add_char self ch) IN_FIELD)
      end
  | EAT_CRNL =>
      match c with
      | None => inr (set_state self START_RECORD)
      | Some ch =>
          if is_newline ch then inr self
          else inl (csv_Error (lit "new-line character seen in unquoted field - do you need to open the file with newline=''?"))
      end
  end.

(** Feed the characters of one line, then [EOL]. *)
Fixpoint parse_line (self : ReaderObj) (line : str) : exception + ReaderObj :=
  match line with
  | [] => parse_process_char self None
  | c :: line' =>
      match parse_process_char self (Some c) with
      | inl e => inl e
      | inr self' => parse_line self' line'
      end
  end.

(** All the records [Reader_iternext] returns until [StopIteration]:
    lines are consumed until the parser is back in [START_RECORD]; at the
    end of the input a pending field or an open quoted field still makes a
    record. *)
Fixpoint reader_records (self : ReaderObj) (lines : list str)
  : exception + list (list str) :=
  match lines with
  | [] =>
      if negb (bool_decide (field self = []))
         || bool_decide (state self = IN_QUOTED_FIELD)
      then inr [fields (parse_save_field self)]
      else inr []
  | line :: lines' =>
      match parse_line self line with
      | inl e => inl e
      | inr self' =>
          if bool_decide (state self' = START_RECORD)
          then match reader_records parse_reset lines' with
               | inl e => inl e
               | inr records => inr (fields self' :: records)
               end
          else reader_records self' lines'
      end
  end.

Definition csv_reader (text : str) : exception + list (list str) :=
  reader_records parse_reset (split_lines [] text).

End Csv.

(** A record as [DictReader] builds it, a [dict[str | None, Any]]: the
    entries under [str] keys hold a field or [None] (the [restval] of a
    short row), and the entry under the key [None] (the [restkey]), when
    there is one, holds the list of surplus fields. *)
Record Row := {
  named : gmap str (option str);
  restkey : option (list str)
}.

(** [d[k] = v] for each pair in turn, as [dict(zip(fieldnames, row))] does:
    of two fields under one name the later one stays. *)
Definition set_fields (d : gmap str (option str)) (pairs : list (str * str))
  : gmap str (option str) :=
  foldl (fun m kv => <[kv.1 := Some kv.2]> m) d pairs.

(** [for key in keys: d[key] = None] *)
Definition set_restval (d : gmap str (option str)) (keys : list str)
  : gmap str (option str) :=
  foldl (fun m key => <[key := None]> m) d keys.

(** [DictReader.__next__] on the fields of one non-empty record. *)
Definition DictReader_row (fieldnames row : list str) : Row :=
  let d := set_fields ∅ (zip fieldnames row) in
  let lf := length fieldnames in
  let lr := length row in
  if (lf <? lr)%nat then
    {| named := d; restkey := Some (drop lf row) |}
  else if (lr <? lf)%nat then
    {| named := set_restval d (drop lr fieldnames); restkey := None |}
  else {| named := d; restkey := None |}.

(** [list(csv.DictReader(f))]: the first record gives the field names, empty
    records are skipped. *)
Definition DictReader (text : str) : exception + list Row :=
  match csv_reader text with
  | inl e => inl e
  | inr [] => inr []
  | inr (fieldnames :: records) =>
      inr (map (DictReader_row fieldnames)
             (filter (fun row => row <> []) records))
  end.

(** [row.get(key)] for a [str] key. *)
Definition row_get (row : Row) (key : str) : option str :=
  mjoin (named row !! key).

(** ** [sorted] on strings *)

(** [x <= y] on [str]: lexicographic on code points. *)
Fixpoint str_leb (x y : str) : bool :=
  match x, y with
  | [], _ => true
  | _ :: _, [] => false
  | a :: x', b :: y' => (a <? b)%N || ((a =? b)%N && str_leb x' y')
  end.

Definition str_le (x y : str) : Prop := str_leb x y.

Global Instance str_le_dec : RelDecision str_le.
Proof. intros x y. unfold str_le. apply _. Defined.

(** [sorted(l)]; the order is total and antisymmetric, so the result is the
    one sorted rearrangement of [l] whatever the algorithm. *)
Definition sorted (l : list str) : list str := merge_sort str_le l.

(** ** [float] and the true division of [int]s

    A [float] is an IEEE 754 binary64 number: 53 bits of precision,
    exponents below 1024.  [a / b] on [int]s ([long_true_divide]) is the
    quotient rounded to the nearest [float], ties to even, whatever the
    size of [a] and [b]; a quotient that rounds beyond the largest finite
    [float] raises [OverflowError], one that rounds to zero gives a zero. *)

Definition float := SpecFloat.spec_float.

(** An [int] as a number with an exponent of zero and a mantissa of any
    length, the input of the division. *)
Definition int_operand (z : Z) : SpecFloat.spec_float :=
  match z with
  | Z0 => SpecFloat.S754_zero false
  | Zpos m => SpecFloat.S754_finite false m 0
  | Zneg m => SpecFloat.S754_finite true m 0
  end.

Definition true_divide (a b : Z) : exception + float :=
  if (b =? 0)%Z then inl (ZeroDivisionError (lit "division by zero"))
  else
    match SpecFloat.SFdiv 53 1024 (int_operand a) (int_operand b) with
    | SpecFloat.S754_infinity _ =>
        inl (OverflowError (lit "integer division result too large for a float"))
    | q => inr q
    end.

(** ** [validator.py] *)

Definition DEFAULT_ENCODINGS : list str :=
  [lit "utf-8"; lit "utf-8-sig"; lit "cp1252"].

Record ValidationResult := {
  total_rows : nat;
  avg_age : option float;
  errors : list str;
  encoding_used : str
}.

(** The [for enc in encodings] loop of [read_csv_rows]; [encodings] is the
    whole list, kept for the message, [remaining] what is left to try.
    The [__cause__] set by [raise ... from last_error] is not recorded. *)
Fixpoint read_csv_rows_loop (path : str) (encodings remaining : list str)
  : IO (list Row * str) :=
  match remaining with
  | [] =>
      raise (ValueError (lit "Could not decode file using encodings: "
                         ++ str_of_tuple encodings))
  | enc :: remaining' =>
      except_UnicodeDecodeError
        (let! text := open_read path enc in
         let! rows := lift (DictReader text) in
         ret (rows, enc))%io
        (read_csv_rows_loop path encodings remaining')
  end.

Definition read_csv_rows (path : str) (encodings : list str)
  : IO (list Row * str) :=
  read_csv_rows_loop path encodings encodings.

Definition validate_file_exists (path : str) : IO unit :=
  (let! found := path_exists path in
   if negb found
   then raise (FileNotFoundError (lit "File not found: " ++ path))
   else ret tt)%io.

(** [row.keys()] *)
Definition row_keys (row : Row) : gset (option str) :=
  set_map Some (dom (named row))
  ∪ (match restkey row with Some _ => {[ None ]} | None => ∅ end).

Definition validate_columns (rows : list Row) (expected_columns : gset str)
  : exception + unit :=
  match rows with
  | [] => inl (ValueError (lit "CSV has no rows"))
  | first :: _ =>
      let columns := row_keys first in
      let missing := filter (fun c => Some c ∉ columns) expected_columns in
      if negb (bool_decide (missing = ∅))
      then inl (ValueError (lit "Missing columns: "
                            ++ str_of_list (sorted (elements missing))))
      else inr tt
  end.

(** [any(v is None for k, v in row.items() if k is not None)] *)
Definition has_None (d : gmap str (option str)) : bool :=
  existsb (fun kv => bool_decide (kv.2 = None)) (map_to_list d).

(** The body of the loop of [validate_rows] on row number [i]: the error
    list after the row. *)
Definition validate_rows_body (i : nat) (row : Row) (age_column : str)
    (errors : list str) : list str :=
  match restkey row with
  | Some (x :: extra) =>
      errors ++ [lit "Row " ++ str_of_nat i
                 ++ lit ": Too many columns (extra data: "
                 ++ str_of_list (x :: extra) ++ lit ")"]
  | _ =>
      if has_None (named row)
      then errors ++ [lit "Row " ++ str_of_nat i ++ lit ": Missing columns"]
      else
        let value := strip (or_empty (row_get row age_column)) in
        match py_int value with
        | Some _ => errors
        | None =>
            errors ++ [lit "Row " ++ str_of_nat i ++ lit ": invalid "
                       ++ age_column ++ lit " -> " ++ repr value]
        end
  end.

Fixpoint validate_rows_loop (i : nat) (rows : list Row) (age_column : str)
    (errors : list str) : list str :=
  match rows with
  | [] => errors
  | row :: rows' =>
      validate_rows_loop (S i) rows' age_column
        (validate_rows_body i row age_column errors)
  end.

Definition validate_rows (rows : list Row) (age_column : str) : list str :=
  validate_rows_loop 1 rows age_column [].

(** [int((r.get(age_column) or '').strip())] *)
Definition parse_age (age_column : str) (r : Row) : exception + Z :=
  let value := strip (or_empty (row_get r age_column)) in
  match py_int value with
  | Some z => inr z
  | None => inl (ValueError (int_error_message value))
  end.

Fixpoint parse_ages (age_column : str) (rows : list Row)
  : exception + list Z :=
  match rows with
  | [] => inr []
  | r :: rows' =>
      match parse_age age_column r with
      | inl e => inl e
      | inr z =>
          match parse_ages age_column rows' with
          | inl e => inl e
          | inr zs => inr (z :: zs)
          end
      end
  end.

(** [sum(ages)] *)
Definition sum_ages (ages : list Z) : Z := foldr Z.add 0%Z ages.

Definition compute_summary (rows : list Row) (age_column : str)
  : exception + (nat * float) :=
  match parse_ages age_column rows with
  | inl e => inl e
  | inr ages =>
      let total := length rows in
      match true_divide (sum_ages ages) (Z.of_nat total) with
      | inl e => inl e
      | inr avg => inr (total, avg)
      end
  end.

Definition validate_csv (file_path : str) (expected_columns : gset str)
    (age_column : str) : IO ValidationResult :=
  (do! validate_file_exists file_path in
   let! read := read_csv_rows file_path DEFAULT_ENCODINGS in
   let rows := read.1 in
   let enc := read.2 in
   do! lift (validate_columns rows expected_columns) in
   let errors := validate_rows rows age_column in
   if negb (bool_decide (errors = []))
   then ret {| total_rows := length rows; avg_age := None;
               errors := errors; encoding_used := enc |}
   else
     let! summary := lift (compute_summary rows age_column) in
     ret {| total_rows := summary.1; avg_age := Some summary.2;
            errors := []; encoding_used := enc |})%io.

(** ** Sample inputs *)

Fixpoint ascii_bytes (s : string) : bytes :=
  match s with
  | EmptyString => []
  | String a s' => byte_of_ascii a :: ascii_bytes s'
  end.

(** The lines of a file, each ended by a line feed. *)
Definition file_of_lines (lines : list bytes) : bytes :=
  concat (map (fun l => l ++ [x0a]) lines).

Definition people_csv : bytes :=
  file_of_lines [ascii_bytes "id,nombre,edad,ciudad"; ascii_bytes "1,Ana,23,Lima";
                 ascii_bytes "2,Luis,40,Quito"; ascii_bytes "3,Eva,31,Cali"].

Definition bad_age_csv : bytes :=
  file_of_lines [ascii_bytes "id,nombre,edad,ciudad"; ascii_bytes "1,Ana,abc,Lima"].

Definition no_ciudad_csv : bytes :=
  file_of_lines [ascii_bytes "id,nombre,edad"; ascii_bytes "1,Ana,23"].

Definition header_only_csv : bytes :=
  file_of_lines [ascii_bytes "id,nombre,edad,ciudad"].

(** [Muñoz] in Windows-1252: the byte F1 is not valid UTF-8. *)
Definition latin_csv : bytes :=
  file_of_lines [ascii_bytes "id,nombre,edad,ciudad";
                 ascii_bytes "1,Mu" ++ [xf1] ++ ascii_bytes "oz,30,Lima"].

(** The byte 81 is invalid in UTF-8 and undefined in Windows-1252. *)
Definition undecodable_csv : bytes := ascii_bytes "id,edad" ++ [x81; x0a].

(** Rows of every shape, one age padded with blanks and one written with
    Arabic-Indic digits (U+0664 U+0662, in UTF-8). *)
Definition mixed_csv : bytes :=
  file_of_lines [ascii_bytes "id,edad"; ascii_bytes "1, 7 "; ascii_bytes "2,8,9";
                 ascii_bytes "3"; ascii_bytes "4, x ";
                 ascii_bytes "5," ++ [xd9; xa4; xd9; xa2]].

(** An age of 310 digits, a one followed by 309 zeros: [int] reads it, no
    float is that large. *)
Definition huge_age_csv : bytes :=
  file_of_lines [ascii_bytes "id,edad"; ascii_bytes "1,1" ++ repeat x30 309].

(** An age of 4301 digits, one more than [int] reads. *)
Definition long_age_csv : bytes :=
  file_of_lines [ascii_bytes "id,edad"; ascii_bytes "1," ++ repeat x31 4301].

(** The age [2 ^ 53 + 1], which no float represents. *)
Definition odd_age_csv : bytes :=
  file_of_lines [ascii_bytes "id,edad"; ascii_bytes "1,9007199254740993"].

Definition sample_files (path : str) : option bytes :=
  if decide (path = lit "people.csv") then Some people_csv
  else if decide (path = lit "bad_age.csv") then Some bad_age_csv
  else if decide (path = lit "no_ciudad.csv") then Some no_ciudad_csv
  else if decide (path = lit "header_only.csv") then Some header_only_csv
  else if decide (path = lit "latin.csv") then Some latin_csv
  else if decide (path = lit "undecodable.csv") then Some undecodable_csv
  else if decide (path = lit "mixed.csv") then Some mixed_csv
  else if decide (path = lit "empty.csv") then Some []
  else if decide (path = lit "huge_age.csv") then Some huge_age_csv
  else if decide (path = lit "long_age.csv") then Some long_age_csv
  else if decide (path = lit "odd_age.csv") then Some odd_age_csv
  else None.

Definition sample_runtime : runtime :=
  {| files := sample_files; extra_codecs := fun _ => None |}.

Definition default_columns : gset str :=
  {[ lit "id"; lit "nombre"; lit "edad"; lit "ciudad" ]}.

(** ** Notions used to state the properties *)

(** *** Integer strings

    A string of digits in which single underscores may separate digits:
    a digit, then any number of groups made of an optional underscore and a
    digit.  [digit] tells which code points count as digits. *)
Inductive digits_tail (digit : N -> bool) : str -> Prop :=
| dt_nil : digits_tail digit []
| dt_digit d t :
    digit d = true -> digits_tail digit t -> digits_tail digit (d :: t)
| dt_under d t :
    digit d = true -> digits_tail digit t ->
    digits_tail digit (0x5F%N :: d :: t).

Inductive digit_string (digit : N -> bool) : str -> Prop :=
| ds_intro d t :
    digit d = true -> digits_tail digit t -> digit_string digit (d :: t).

(** An optional sign and a string of digits. *)
Inductive integer_string (digit : N -> bool) : str -> Prop :=
| is_unsigned s : digit_string digit s -> integer_string digit s
| is_plus s : digit_string digit s -> integer_string digit (0x2B%N :: s)
| is_minus s : digit_string digit s -> integer_string digit (0x2D%N :: s).

(** A decimal digit of any script (general category Nd). *)
Definition is_decimal (c : N) : bool :=
  match todecimal c with Some _ => true | None => false end.

(** The number of decimal digits in a string. *)
Fixpoint count_decimal (s : str) : N :=
  match s with
  | [] => 0
  | c :: s' => ((if is_decimal c then 1 else 0) + count_decimal s')%N
  end.

(** An integer string within the digit limit of [int]. *)
Definition int_literal (s : str) : Prop :=
  integer_string is_decimal s /\ (count_decimal s <= int_max_str_digits)%N.

(** A string without white space at either end. *)
Definition trimmed (s : str) : Prop :=
  (forall c s', s = c :: s' -> isspace c = false) /\
  (forall c s', s = s' ++ [c] -> isspace c = false).

(** [needle in hay] *)
Definition mentions (needle hay : str) : Prop :=
  exists pre post, hay = pre ++ needle ++ post.

Fixpoint mentions_b (needle hay : str) : bool :=
  starts_with needle hay ||
  match hay with
  | [] => false
  | _ :: hay' => mentions_b needle hay'
  end.

(** *** Row issues, as the specification words them *)

Inductive RowIssue :=
| Overflow (extra : list str)
| Underflow
| InvalidAge (value : str).

Definition issue_message (i : nat) (age_column : str) (issue : RowIssue) : str :=
  match issue with
  | Overflow extra =>
      lit "Row " ++ str_of_nat i ++ lit ": Too many columns (extra data: "
      ++ str_of_list extra ++ lit ")"
  | Underflow => lit "Row " ++ str_of_nat i ++ lit ": Missing columns"
  | InvalidAge value =>
      lit "Row " ++ str_of_nat i ++ lit ": invalid " ++ age_column
      ++ lit " -> " ++ repr value
  end.

(** The age check, for a row that has passed the two shape checks. *)
Definition age_issue (row : Row) (age_column : str) : option RowIssue :=
  let value := strip (or_empty (row_get row age_column)) in
  match py_int value with
  | Some _ => None
  | None => Some (InvalidAge value)
  end.

(** First match wins: more fields than header columns, else fewer, else
    the age check. *)
Definition row_issue (fieldnames row : list str) (age_column : str)
  : option RowIssue :=
  if (length fieldnames <? length row)%nat
  then Some (Overflow (drop (length fieldnames) row))
  else if (length row <? length fieldnames)%nat
  then Some Underflow
  else age_issue (DictReader_row fieldnames row) age_column.

(** The messages of the records numbered from [i], in order, at most one
    for each. *)
Fixpoint row_errors_from (i : nat) (fieldnames : list str) (age_column : str)
    (records : list (list str)) : list str :=
  match records with
  | [] => []
  | row :: records' =>
      match row_issue fieldnames row age_column with
      | Some issue => [issue_message i age_column issue]
      | None => []
      end ++ row_errors_from (S i) fieldnames age_column records'
  end.

Definition row_errors := row_errors_from 1.

(** *** Decoding *)

(** [enc] is a codec of the runtime that raises [UnicodeDecodeError] on [b]. *)
Definition undecodable (rt : runtime) (b : bytes) (enc : str) : Prop :=
  exists decode, codecs_lookup rt enc = Some decode /\ decode b = None.

(** [enc] is a codec of the runtime that decodes the whole of [b] to [text]. *)
Definition decodes (rt : runtime) (b : bytes) (enc text : str) : Prop :=
  exists decode, codecs_lookup rt enc = Some decode /\ decode b = Some text.

Definition line_ending (s : str) : bool :=
  bool_decide (s ∈ [[]; [0x0A%N]; [0x0D%N]; [0x0D%N; 0x0A%N]]).


(** One line of text of the reader's input: line breaks only at its end. *)
Definition well_ended (line : str) : Prop :=
  exists body ending,
    line = body ++ ending /\
    Forall (fun c => is_newline c = false) body /\
    line_ending ending = true.

(** *** The pipeline once the file has been found and read

    What [validate_csv] does with the outcome of [read_csv_rows]. *)
Definition after_read (expected_columns : gset str) (age_column : str)
    (read : (exception + list Row * str) * list event)
  : (exception + ValidationResult) * list event :=
  match read with
  | (inl e, log) => (inl e, log)
  | (inr (rows, enc), log) =>
      match validate_columns rows expected_columns with
      | inl e => (inl e, log)
      | inr _ =>
          if negb (bool_decide (validate_rows rows age_column = []))
          then (inr {| total_rows := length rows; avg_age := None;
                       errors := validate_rows rows age_column;
                       encoding_used := enc |}, log)
          else match compute_summary rows age_column with
               | inl e => (inl e, log)
               | inr summary =>
                   (inr {| total_rows := summary.1; avg_age := Some summary.2;
                           errors := []; encoding_used := enc |}, log)
               end
      end
  end.

(** *** Expected outcomes on the sample inputs *)

(** [94 / 3], that is [31.333333333333332]. *)
Definition people_avg : float := SpecFloat.S754_finite false 8819549270267221 (-48).

Definition people_result : ValidationResult :=
  {| total_rows := 3; avg_age := Some people_avg; errors := [];
     encoding_used := lit "utf-8" |}.

Definition bad_age_result : ValidationResult :=
  {| total_rows := 1; avg_age := None;
     errors := [lit "Row 1: invalid edad -> 'abc'"];
     encoding_used := lit "utf-8" |}.



(** A row whose age is written in Arabic-Indic digits (U+0664 U+0662). *)
Definition arabic_indic_row : Row :=
  DictReader_row [lit "id"; lit "edad"] [lit "5"; [0x664%N; 0x662%N]].

(** A row whose age is not a number and is padded with blanks. *)
Definition padded_row : Row :=
  DictReader_row [lit "id"; lit "edad"] [lit "4"; lit " x "].

(** *** How [transform_decimal_and_space] treats the first character *)
Inductive transform_case (c : N) (s : str) : Prop :=
| tc_ascii :
    (c < 127)%N ->
    transform_decimal_and_space (c :: s) = c :: transform_decimal_and_space s ->
    transform_case c s
| tc_space :
    (127 <= c)%N -> isspace c = true ->
    transform_decimal_and_space (c :: s)
      = 0x20%N :: transform_decimal_and_space s ->
    transform_case c s
| tc_decimal d :
    (127 <= c)%N -> isspace c = false -> todecimal c = Some d ->
    transform_decimal_and_space (c :: s)
      = (0x30 + d)%N :: transform_decimal_and_space s ->
    transform_case c s
| tc_other :
    (127 <= c)%N -> isspace c = false -> todecimal c = None ->
    transform_decimal_and_space (c :: s) = [0x3F%N] ->
    transform_case c s.

(** *** States in which the parser can be at the end of a line *)
Definition resting (self : ReaderObj) : Prop :=
  state self = START_RECORD \/ state self = IN_QUOTED_FIELD.

(** *** Checking a property of code points below a bound by evaluation *)

Fixpoint all_below (n : nat) (P : N -> bool) : bool :=
  match n with
  | O => true
  | S k => P (N.of_nat k) && all_below k P
  end.

(** ** [cli.py]

    [main] as it runs once [parse_args] has returned the [argparse]
    namespace [args] (the file, the [--columns] text, the [--age-col]
    text).  What [print] writes is kept, one entry for each call, for
    standard output and for standard error; both streams are taken to
    accept any text.  [format_1f] stands for [f'{x:.1f}'] on the float that
    [avg_age] holds. *)

Record Namespace := {
  file : str;
  columns : str;
  age_col : str
}.

(** The namespace [parse_args] returns when only the file is given. *)
Definition default_args (path : str) : Namespace :=
  {| file := path; columns := lit "id,nombre,edad,ciudad"; age_col := lit "edad" |}.

(** [s.split(',')], [cur] being the piece read so far. *)
Fixpoint split_comma_from (cur : str) (s : str) : list str :=
  match s with
  | [] => [cur]
  | c :: s' =>
      if (c =? 0x2C)%N then cur :: split_comma_from [] s'
      else split_comma_from (cur ++ [c]) s'
  end.

Definition split_comma (s : str) : list str := split_comma_from [] s.

(** [{c.strip() for c in columns.split(',') if c.strip()}] *)
Definition parse_columns (columns : str) : gset str :=
  list_to_set
    (filter (fun c => c <> []) (map strip (split_comma columns))).

(** [str(ex)].  [UnicodeDecodeError] carries no detail in this model; the
    text given for it is never printed, since [validate_csv] never ends in
    that exception. *)
Definition str_of_exception (ex : exception) : str :=
  match ex with
  | FileNotFoundError msg => msg
  | ValueError msg => msg
  | UnicodeDecodeError => lit "UnicodeDecodeError"
  | LookupError msg => msg
  | ZeroDivisionError msg => msg
  | OverflowError msg => msg
  | csv_Error msg => msg
  end.

(** How a call of [main] ends: it returns an exit code, or the formatting
    of [avg_age] raises [TypeError] on [None], outside the [try]. *)
Inductive main_outcome :=
| Returned (code : Z)
| Raised_TypeError (msg : str).

Record Completed := {
  outcome : main_outcome;
  stdout : list str;
  stderr : list str
}.

Definition main (format_1f : float -> str) (args : Namespace) (rt : runtime)
  : Completed * list event :=
  let expected := parse_columns (columns args) in
  match run rt (validate_csv (file args) expected (age_col args)) with
  | (inl ex, log) =>
      ({| outcome := Returned 2; stdout := [];
          stderr := [[0x274C%N] ++ lit " Error: " ++ str_of_exception ex] |},
       log)
  | (inr result, log) =>
      let printed :=
        [[0x2705%N] ++ lit " Encoding used: " ++ encoding_used result;
         [0x1F4C4%N] ++ lit " Rows: " ++ str_of_nat (total_rows result)] in
      if negb (bool_decide (errors result = [])) then
        ({| outcome := Returned 1;
            stdout := printed ++ [[0x0A%N] ++ lit "Errors found:"]
                      ++ map (fun e => lit " - " ++ e) (errors result);
            stderr := [] |}, log)
      else
        match avg_age result with
        | None =>
            ({| outcome :=
                  Raised_TypeError
                    (lit "unsupported format string passed to NoneType.__format__");
                stdout := printed; stderr := [] |}, log)
        | Some avg =>
            ({| outcome := Returned 0;
                stdout := printed
                          ++ [[0x1F4CA%N] ++ lit " Avg " ++ age_col args
                              ++ lit ": " ++ format_1f avg;
                              [0x2714%N; 0xFE0F%N] ++ lit " No errors found"];
                stderr := [] |}, log)
        end
  end.

(** ** Further notions used to state properties *)

(** The rational a finite [float] stands for, its mantissa times two to
    its exponent; zero for the others. *)
Definition float_value (f : float) : Q :=
  match f with
  | SpecFloat.S754_finite s m e =>
      let n := if s then Z.neg m else Z.pos m in
      match e with
      | Z.neg k => Qmake n (2 ^ k)
      | _ => inject_Z (n * 2 ^ e)
      end
  | _ => 0%Q
  end.

(** [csv.field_size_limit()], the longest field the [csv] module accepts.
    The reader above does not enforce it: a file of at most that many bytes
    holds no longer field, whatever the encoding. *)
Definition field_size_limit : N := 131072.


(** [int((r.get(age_column) or '').strip())], [None] for the [ValueError]. *)
Definition age_of (age_column : str) (r : Row) : option Z :=
  py_int (strip (or_empty (row_get r age_column))).

(** The text of a [--columns] value made of [names], each one padded with
    the white space [pad] on both sides. *)
Definition join_padded (pad : str) (names : list str) : str :=
  foldr (fun name acc => pad ++ name ++ pad ++ 0x2C%N :: acc) pad names.

(** A column name as [parse_columns] keeps it: not empty, no white space
    at either end, no comma. *)
Definition plain_name (name : str) : Prop :=
  name <> [] /\ trimmed name /\ Forall (fun c => c <> 0x2C%N) name.

(** The arguments [csv-validator huge_age.csv --columns id,edad]. *)
Definition huge_age_args : Namespace :=
  {| file := lit "huge_age.csv"; columns := lit "id,edad"; age_col := lit "edad" |}.

(** The rows of [people_csv]. *)
Definition people_rows : list Row :=
  map (DictReader_row [lit "id"; lit "nombre"; lit "edad"; lit "ciudad"])
    [[lit "1"; lit "Ana"; lit "23"; lit "Lima"];
     [lit "2"; lit "Luis"; lit "40"; lit "Quito"];
     [lit "3"; lit "Eva"; lit "31"; lit "Cali"]].

(** * Properties *)

(** ** The builtins on sample values *)

Section BuiltinExamples.
Local Open Scope N_scope.

Example py_int_examples :
  py_int (lit " 42 ") = Some 42%Z /\ py_int (lit "-1_000") = Some (-1000)%Z /\
  py_int (lit "1__0") = None /\ py_int (lit "_1") = None /\
  py_int (lit "+") = None /\ py_int (lit "") = None /\ py_int (lit "1 2") = None /\
  py_int [0x663; 0x664] = Some 34%Z /\ py_int (lit "12a") = None /\
  py_int [0x1C; 0x35] = None /\ py_int [0x85; 0x31] = Some 1%Z /\
  py_int (lit "0x10") = None /\ py_int [0xB2] = None.
Proof. vm_compute. repeat split. Qed.

Example repr_examples :
  repr (lit "abc") = lit "'abc'" /\
  repr (lit "a'b") = [0x22; 0x61; 0x27; 0x62; 0x22] /\
  repr [0x5C; 0x09; 0x0B; 0xA0; 0xE9; 0x2028; 0x1F600; 0xE0001] =
    lit "'\\\t\x0b\xa0" ++ [0xE9] ++ lit "\u2028" ++ [0x1F600] ++ lit "\U000e0001'" /\
  str_of_tuple [lit "utf-8"] = lit "('utf-8',)" /\
  str_of_tuple [] = lit "()" /\
  str_of_list [lit "a"; lit "b"] = lit "['a', 'b']" /\
  strip ([0x20; 0x1C] ++ lit " abc " ++ [0x3000]) = lit "abc" /\
  str_of_nat 120 = lit "120".
Proof. vm_compute. repeat split. Qed.

(** [int] reads 4300 digits and no more, wherever the digits are. *)
Example py_int_digit_limit :
  is_Some (py_int (repeat 0x31 4300)) /\ py_int (repeat 0x31 4301) = None /\
  is_Some (py_int (0x2D :: repeat 0x30 4300)) /\
  py_int (repeat 0x30 4301) = None /\
  int_error_message (repeat 0x31 4301)
  = lit "Exceeds the limit (4300 digits) for integer string conversion: value has 4301 digits; use sys.set_int_max_str_digits() to increase the limit" /\
  int_error_message (lit "12a") = lit "invalid literal for int() with base 10: '12a'".
Proof.
  assert (H1 : exists z, py_int (repeat 0x31 4300) = Some z)
    by (eexists; vm_compute; reflexivity).
  assert (H2 : exists z, py_int (0x2D :: repeat 0x30 4300) = Some z)
    by (eexists; vm_compute; reflexivity).
  destruct H1 as [z1 H1], H2 as [z2 H2]. rewrite H1, H2.
  repeat split; eauto; vm_compute; reflexivity.
Qed.

(** [94 / 3] is [31.333333333333332]; [2 ^ 53 + 1] is rounded to [2 ^ 53];
    the largest quotient that does not overflow is just below
    [2 ^ 1024 - 2 ^ 970]; a zero takes the sign of the divisor. *)
Example true_divide_examples :
  (true_divide 94 3 = inr people_avg /\
   true_divide 9007199254740993 1
     = inr (SpecFloat.S754_finite false 4503599627370496 1) /\
   true_divide (-7) 2 = inr (SpecFloat.S754_finite true 7881299347898368 (-51)) /\
   true_divide (2 ^ 1024 - 2 ^ 970 - 1) 1
     = inr (SpecFloat.S754_finite false 9007199254740991 971) /\
   true_divide (2 ^ 1024 - 2 ^ 970) 1
     = inl (OverflowError (lit "integer division result too large for a float")) /\
   true_divide (10 ^ 309) 1
     = inl (OverflowError (lit "integer division result too large for a float")) /\
   true_divide 0 (-5) = inr (SpecFloat.S754_zero true) /\
   true_divide 1 (2 ^ 1075) = inr (SpecFloat.S754_zero false) /\
   true_divide 3 (2 ^ 1075) = inr (SpecFloat.S754_finite false 2 (-1074)) /\
   true_divide 5 0 = inl (ZeroDivisionError (lit "division by zero")))%Z.
Proof. vm_compute. repeat split. Qed.

End BuiltinExamples.

(** ** Character classes *)

Lemma all_below_nat n P :
  all_below n P = true -> forall c, (c < N.of_nat n)%N -> P c = true.
Proof.
  induction n as [|k IH]; intros H c Hc.
  - lia.
  - cbn [all_below] in H. apply andb_prop in H as [Hk Hrest].
    destruct (decide (c = N.of_nat k)) as [->|Hne]; [exact Hk|].
    apply IH; [exact Hrest|lia].
Qed.

Lemma all_below_spec (n : N) P :
  all_below (N.to_nat n) P = true -> forall c, (c < n)%N -> P c = true.
Proof.
  intros H c Hc. apply (all_below_nat _ _ H). rewrite N2Nat.id. exact Hc.
Qed.

Lemma in_range_spec c lo hi :
  in_range c (lo, hi) = true <-> (lo <= c /\ c <= hi)%N.
Proof.
  unfold in_range; cbn [fst snd].
  rewrite andb_true_iff, !N.leb_le. reflexivity.
Qed.

Lemma isspace_bound c : isspace c = true -> (c < 0x3001)%N.
Proof.
  unfold isspace. cbn [existsb]. rewrite !orb_true_iff, !in_range_spec. lia.
Qed.

Lemma c_isspace_isspace c : c_isspace c = true -> isspace c = true.
Proof.
  unfold c_isspace, isspace. cbn [existsb].
  rewrite !orb_true_iff, !in_range_spec, N.eqb_eq. intros [H| ->].
  - left. lia.
  - right. left. lia.
Qed.

Lemma space_not_decimal c :
  (127 <= c)%N -> isspace c = true -> todecimal c = None.
Proof.
  intros Hc Hs.
  assert (Hall : all_below (N.to_nat 0x3001)
            (fun c => implb (isspace c && (127 <=? c)%N) (negb (is_decimal c)))
          = true) by (vm_compute; reflexivity).
  pose proof (all_below_spec _ _ Hall c) as H.
  cbv beta in H. rewrite Hs in H.
  apply N.leb_le in Hc. rewrite Hc in H. cbn [andb implb] in H.
  unfold is_decimal in H. destruct (todecimal c); [|reflexivity].
  specialize (H ltac:(apply isspace_bound in Hs; lia)). discriminate.
Qed.

Lemma ascii_decimal c : (c < 127)%N -> is_decimal c = ascii_digit c.
Proof.
  intros Hc.
  assert (Hall : all_below (N.to_nat 127)
            (fun c => bool_decide (is_decimal c = ascii_digit c)) = true)
    by (vm_compute; reflexivity).
  pose proof (all_below_spec _ _ Hall c ltac:(lia)) as H.
  cbv beta in H. apply bool_decide_eq_true in H. exact H.
Qed.

Lemma todecimal_le c d : todecimal c = Some d -> (d <= 9)%N.
Proof.
  unfold todecimal.
  destruct (find _ decimal_runs) as [z|] eqn:Hf; [|discriminate].
  intros [= <-]. apply find_some in Hf as [_ Hz].
  apply in_range_spec in Hz. lia.
Qed.

(** ** [str.strip()] *)

Lemma lstrip_head s c s' : lstrip s = c :: s' -> isspace c = false.
Proof.
  induction s as [|x s IH]; cbn [lstrip]; [discriminate|].
  destruct (isspace x) eqn:Hx; [exact IH|].
  intros [= <- _]. exact Hx.
Qed.

Lemma lstrip_snoc s c : isspace c = false -> lstrip (s ++ [c]) = lstrip s ++ [c].
Proof.
  intros Hc. induction s as [|x s IH]; cbn [lstrip app].
  - rewrite Hc. reflexivity.
  - destruct (isspace x); [exact IH|reflexivity].
Qed.

Lemma rstrip_cons s c : isspace c = false -> rstrip (c :: s) = c :: rstrip s.
Proof.
  intros Hc. unfold rstrip. cbn [rev].
  rewrite (lstrip_snoc _ _ Hc), rev_app_distr. reflexivity.
Qed.

Lemma rstrip_last s c s' : rstrip s = s' ++ [c] -> isspace c = false.
Proof.
  unfold rstrip. intros H.
  apply (f_equal (@rev N)) in H.
  rewrite rev_involutive, rev_app_distr in H. cbn in H.
  exact (lstrip_head _ _ _ H).
Qed.

Lemma strip_trimmed s : trimmed (strip s).
Proof.
  unfold strip. split.
  - intros c s' H. destruct (lstrip s) as [|x l] eqn:Hl.
    + discriminate H.
    + pose proof (lstrip_head _ _ _ Hl) as Hx.
      rewrite (rstrip_cons _ _ Hx) in H. injection H as -> _. exact Hx.
  - intros c s'. apply rstrip_last.
Qed.

(** A trimmed string is left as it is. *)
Lemma strip_of_trimmed s : trimmed s -> strip s = s.
Proof.
  intros [Hhead Hlast]. unfold strip.
  assert (Hl : lstrip s = s).
  { destruct s as [|c s']; [reflexivity|].
    cbn [lstrip]. rewrite (Hhead c s' eq_refl). reflexivity. }
  rewrite Hl. unfold rstrip.
  destruct (rev s) as [|c r] eqn:Hr.
  - apply (f_equal (@rev N)) in Hr. rewrite rev_involutive in Hr. now subst.
  - assert (Hs : s = rev r ++ [c]).
    { apply (f_equal (@rev N)) in Hr. rewrite rev_involutive in Hr. exact Hr. }
    cbn [lstrip]. rewrite (Hlast c (rev r) Hs). cbn [rev]. now rewrite Hs.
Qed.

(** ** [int] accepts exactly the integer strings *)

Section IntProofs.
Local Open Scope N_scope.

Local Abbreviation T := transform_decimal_and_space.

Lemma transform_cases c s : transform_case c s.
Proof.
  destruct (c <? 127) eqn:Hc.
  - apply tc_ascii; [now apply N.ltb_lt|].
    cbn [transform_decimal_and_space]. now rewrite Hc.
  - pose proof Hc as Hc'. apply N.ltb_ge in Hc'.
    destruct (isspace c) eqn:Hs; [|destruct (todecimal c) as [d|] eqn:Hd].
    + apply tc_space; [assumption..|].
      cbn [transform_decimal_and_space]. now rewrite Hc, Hs.
    + apply (tc_decimal _ _ d); [assumption..|].
      cbn [transform_decimal_and_space]. now rewrite Hc, Hs, Hd.
    + apply tc_other; [assumption..|].
      cbn [transform_decimal_and_space]. now rewrite Hc, Hs, Hd.
Qed.

Lemma ascii_digit_spec c : ascii_digit c = true <-> 0x30 <= c <= 0x39.
Proof. unfold ascii_digit. apply in_range_spec. Qed.

Lemma ascii_digit_offset d : d <= 9 -> ascii_digit (0x30 + d) = true.
Proof. intros H. apply ascii_digit_spec. lia. Qed.

Lemma c_isspace_spec c : c_isspace c = true <-> (9 <= c <= 13 \/ c = 32).
Proof.
  unfold c_isspace. rewrite orb_true_iff, in_range_spec, N.eqb_eq. reflexivity.
Qed.

(** What a decimal digit of any script becomes. *)
Lemma transform_decimal d :
  is_decimal d = true ->
  exists d', ascii_digit d' = true /\ forall t, T (d :: t) = d' :: T t.
Proof.
  intros Hd. destruct (N.lt_ge_cases d 127) as [Hlt|Hge].
  - exists d. split.
    + now rewrite <- ascii_decimal.
    + intros t. cbn [transform_decimal_and_space].
      apply N.ltb_lt in Hlt. now rewrite Hlt.
  - unfold is_decimal in Hd. destruct (todecimal d) as [x|] eqn:Hx; [|discriminate].
    exists (0x30 + x). split.
    + apply ascii_digit_offset. eapply todecimal_le; eassumption.
    + intros t. cbn [transform_decimal_and_space].
      apply N.ltb_ge in Hge. rewrite Hge.
      destruct (isspace d) eqn:Hs.
      * apply N.ltb_ge in Hge. rewrite (space_not_decimal d Hge Hs) in Hx. discriminate.
      * now rewrite Hx.
Qed.

(** What the scanning loop has read when it returns. *)
Lemma scan_digits_sound s : forall prev acc z rest,
  scan_digits prev acc (T s) = Some (z, rest) ->
  exists s1 s2, s = s1 ++ s2 /\ rest = T s2 /\
    if prev =? 0x5F then digit_string is_decimal s1
    else digits_tail is_decimal s1.
Proof.
  induction s as [|c s IH]; intros prev acc z rest H.
  - cbn in H. destruct (prev =? 0x5F) eqn:Hp; [discriminate|].
    injection H as _ <-. exists [], []. repeat split. constructor.
  - assert (Hstop : forall x, ascii_digit x = false -> x <> 0x5F ->
              T (c :: s) = x :: match T (c :: s) with _ :: t => t | [] => [] end ->
              exists s1 s2, c :: s = s1 ++ s2 /\ rest = T s2 /\
                if prev =? 0x5F then digit_string is_decimal s1
                else digits_tail is_decimal s1).
    { intros x Hx Hne Heq. rewrite Heq in H. cbn [scan_digits] in H.
      rewrite Hx in H. apply N.eqb_neq in Hne. rewrite Hne in H.
      destruct (prev =? 0x5F) eqn:Hp; [discriminate|].
      injection H as _ <-. exists [], (c :: s).
      repeat split; [now rewrite Heq|constructor]. }
    assert (Hdigit : forall x, ascii_digit x = true -> is_decimal c = true ->
              T (c :: s) = x :: T s ->
              exists s1 s2, c :: s = s1 ++ s2 /\ rest = T s2 /\
                if prev =? 0x5F then digit_string is_decimal s1
                else digits_tail is_decimal s1).
    { intros x Hx Hdec Heq. rewrite Heq in H. cbn [scan_digits] in H.
      rewrite Hx in H. apply IH in H as (s1 & s2 & -> & -> & Hs1).
      assert (Hx' : (x =? 0x5F) = false).
      { apply N.eqb_neq. apply ascii_digit_spec in Hx. lia. }
      rewrite Hx' in Hs1. exists (c :: s1), s2. repeat split.
      destruct (prev =? 0x5F); now constructor. }
    destruct (transform_cases c s) as [Hc Heq|Hc Hs Heq|d Hc Hs Hd Heq|Hc Hs Hd Heq].
    + destruct (ascii_digit c) eqn:Hdig.
      * apply (Hdigit c Hdig); [|exact Heq]. now rewrite ascii_decimal.
      * destruct (N.eq_dec c 0x5F) as [->|Hne].
        -- rewrite Heq in H. cbn [scan_digits] in H.
           change (ascii_digit 95) with false in H.
           change (95 =? 95) with true in H. cbv iota in H.
           destruct (prev =? 0x5F) eqn:Hp; [discriminate|].
           apply IH in H as (s1 & s2 & -> & -> & Hs1).
           change (95 =? 95) with true in Hs1. cbv iota in Hs1.
           exists (0x5F :: s1), s2. repeat split.
           destruct Hs1 as [d t Hd Ht]. now constructor.
        -- apply (Hstop c Hdig Hne). now rewrite Heq.
    + apply (Hstop 0x20); [reflexivity|lia|now rewrite Heq].
    + apply (Hdigit (0x30 + d)); [|unfold is_decimal; now rewrite Hd|exact Heq].
      apply ascii_digit_offset. eapply todecimal_le; eassumption.
    + apply (Hstop 0x3F); [reflexivity|lia|now rewrite Heq].
Qed.

(** Input that is white space to its end ends in a white space character. *)
Lemma skip_c_space_all s :
  skip_c_space (T s) = [] ->
  s = [] \/ exists s' c, s = s' ++ [c] /\ isspace c = true.
Proof.
  induction s as [|c s IH]; intros H; [now left|right].
  assert (Hgo : forall x, T (c :: s) = x :: T s -> isspace c = true ->
            exists s' c', c :: s = s' ++ [c'] /\ isspace c' = true).
  { intros x Heq Hsp. rewrite Heq in H. cbn [skip_c_space] in H.
    destruct (c_isspace x); [|discriminate].
    destruct (IH H) as [->|(s' & c' & -> & Hc')].
    - exists [], c. now split.
    - exists (c :: s'), c'. now split. }
  destruct (transform_cases c s) as [Hc Heq|Hc Hs Heq|d Hc Hs Hd Heq|Hc Hs Hd Heq].
  - apply (Hgo c Heq). rewrite Heq in H. cbn [skip_c_space] in H.
    destruct (c_isspace c) eqn:Hcs; [|discriminate].
    now apply c_isspace_isspace.
  - now apply (Hgo 0x20).
  - rewrite Heq in H. cbn [skip_c_space] in H.
    destruct (c_isspace (0x30 + d)) eqn:Hcs; [|discriminate].
    apply c_isspace_spec in Hcs. lia.
  - rewrite Heq in H. discriminate.
Qed.

(** Nothing is skipped in front of a string that does not start with
    white space. *)
Lemma skip_c_space_head s :
  (forall c s', s = c :: s' -> isspace c = false) ->
  skip_c_space (T s) = T s.
Proof.
  intros Hhead. destruct s as [|c s]; [reflexivity|].
  specialize (Hhead c s eq_refl).
  destruct (transform_cases c s) as [Hc Heq|Hc Hs Heq|d Hc Hs Hd Heq|Hc Hs' Hd Heq];
    rewrite Heq; cbn [skip_c_space].
  - destruct (c_isspace c) eqn:Hcs; [|reflexivity].
    apply c_isspace_isspace in Hcs. congruence.
  - congruence.
  - destruct (c_isspace (0x30 + d)) eqn:Hcs; [|reflexivity].
    apply c_isspace_spec in Hcs. lia.
  - reflexivity.
Qed.

(** The first character of the rewritten string, when it is a sign or an
    underscore, is the first character of the string. *)
Lemma head_is_transform x s :
  x = 0x2B \/ x = 0x2D \/ x = 0x5F ->
  (forall c s', s = c :: s' -> isspace c = false) ->
  head_is x (T s) = true -> exists s', s = x :: s' /\ T s = x :: T s'.
Proof.
  intros Hx Hhead H. destruct s as [|c s]; [discriminate|].
  specialize (Hhead c s eq_refl).
  destruct (transform_cases c s) as [Hc Heq|Hc Hs Heq|d Hc Hs Hd Heq|Hc Hs' Hd Heq];
    rewrite Heq in H; cbn [head_is] in H; apply N.eqb_eq in H.
  - subst c. exists s. now split.
  - congruence.
  - apply todecimal_le in Hd. lia.
  - lia.
Qed.

(** The digits the scanning loop counts are the decimal digits. *)
Lemma count_digits_tail t :
  digits_tail is_decimal t -> count_digits (T t) = count_decimal t.
Proof.
  induction 1 as [|d t Hd Ht IH|d t Hd Ht IH].
  - reflexivity.
  - destruct (transform_decimal d Hd) as (d' & Hd' & Heq).
    rewrite Heq. cbn [count_digits count_decimal]. now rewrite Hd', Hd, IH.
  - destruct (transform_decimal d Hd) as (d' & Hd' & Heq).
    change (T (0x5F :: d :: t)) with (0x5F :: T (d :: t)).
    rewrite Heq. cbn [count_digits count_decimal].
    change (ascii_digit 95) with false. change (95 =? 95) with true.
    change (is_decimal 95) with false. cbv iota.
    now rewrite Hd', Hd, IH.
Qed.

Lemma count_digits_string s :
  digit_string is_decimal s -> count_digits (T s) = count_decimal s.
Proof. intros [d t Hd Ht]. apply count_digits_tail. now constructor. Qed.

(** Accepted strings are integer strings within the digit limit. *)
Lemma py_int_sound s z :
  trimmed s -> py_int s = Some z -> int_literal s.
Proof.
  intros [Hhead Hlast] H. unfold py_int, long_from_string, unsigned_part in H.
  rewrite (skip_c_space_head s Hhead) in H.
  assert (Hbody : forall s',
    (forall c r, s' = r ++ [c] -> isspace c = false) ->
    head_is 0x5F (T s') = false ->
    forall z' rest, scan_digits 0 0%Z (T s') = Some (z', rest) ->
    (int_max_str_digits <? count_digits (T s')) = false ->
    (length rest =? length (T s'))%nat = false ->
    skip_c_space rest = [] ->
    digit_string is_decimal s' /\ count_decimal s' <= int_max_str_digits).
  { clear. intros s' Hlast Hus z' rest Hscan Hlim Hlen Hskip.
    apply scan_digits_sound in Hscan as (s1 & s2 & -> & -> & Hs1).
    change (0 =? 0x5F) with false in Hs1. cbv iota in Hs1.
    destruct (skip_c_space_all _ Hskip) as [->|(r & c & -> & Hc)].
    - rewrite app_nil_r in *.
      assert (Hds : digit_string is_decimal s1).
      { destruct Hs1 as [|d t Hd Ht|d t Hd Ht].
        + discriminate Hlen.
        + now constructor.
        + discriminate Hus. }
      split; [exact Hds|].
      rewrite <- (count_digits_string _ Hds). now apply N.ltb_ge.
    - rewrite (Hlast c (s1 ++ r)) in Hc; [discriminate|].
      now rewrite app_assoc. }
  destruct (head_is 0x2B (T s)) eqn:Hplus;
    [|destruct (head_is 0x2D (T s)) eqn:Hminus]; cbn [orb] in H.
  - apply head_is_transform in Hplus as (s' & -> & Heq); [|tauto|exact Hhead].
    rewrite Heq in H. cbn [tail] in H.
    destruct (head_is 0x5F (T s')) eqn:Hus; [discriminate|].
    destruct (scan_digits 0 0%Z (T s')) as [[z' rest]|] eqn:Hscan; [|discriminate].
    destruct (int_max_str_digits <? count_digits (T s')) eqn:Hlim; [discriminate|].
    destruct (length rest =? length (T s'))%nat eqn:Hlen; [discriminate|].
    destruct (skip_c_space rest) eqn:Hskip; [|discriminate].
    destruct (Hbody s' ltac:(intros c r ->; apply (Hlast c (0x2B :: r)); reflexivity)
                Hus z' rest Hscan Hlim Hlen Hskip) as [Hds Hcount].
    split; [now apply is_plus|exact Hcount].
  - apply head_is_transform in Hminus as (s' & -> & Heq); [|tauto|exact Hhead].
    rewrite Heq in H. cbn [tail] in H.
    destruct (head_is 0x5F (T s')) eqn:Hus; [discriminate|].
    destruct (scan_digits 0 0%Z (T s')) as [[z' rest]|] eqn:Hscan; [|discriminate].
    destruct (int_max_str_digits <? count_digits (T s')) eqn:Hlim; [discriminate|].
    destruct (length rest =? length (T s'))%nat eqn:Hlen; [discriminate|].
    destruct (skip_c_space rest) eqn:Hskip; [|discriminate].
    destruct (Hbody s' ltac:(intros c r ->; apply (Hlast c (0x2D :: r)); reflexivity)
                Hus z' rest Hscan Hlim Hlen Hskip) as [Hds Hcount].
    split; [now apply is_minus|exact Hcount].
  - destruct (head_is 0x5F (T s)) eqn:Hus; [discriminate|].
    destruct (scan_digits 0 0%Z (T s)) as [[z' rest]|] eqn:Hscan; [|discriminate].
    destruct (int_max_str_digits <? count_digits (T s)) eqn:Hlim; [discriminate|].
    destruct (length rest =? length (T s))%nat eqn:Hlen; [discriminate|].
    destruct (skip_c_space rest) eqn:Hskip; [|discriminate].
    destruct (Hbody s Hlast Hus z' rest Hscan Hlim Hlen Hskip) as [Hds Hcount].
    split; [now apply is_unsigned|exact Hcount].
Qed.

(** The scanning loop reads a whole string of digits. *)
Lemma scan_digits_complete t :
  digits_tail is_decimal t ->
  forall prev acc, prev <> 0x5F ->
  exists z, scan_digits prev acc (T t) = Some (z, []).
Proof.
  induction 1 as [|d t Hd Ht IH|d t Hd Ht IH]; intros prev acc Hp.
  - exists acc. cbn. apply N.eqb_neq in Hp. now rewrite Hp.
  - destruct (transform_decimal d Hd) as (d' & Hd' & Heq).
    rewrite Heq. cbn [scan_digits]. rewrite Hd'.
    apply IH. apply ascii_digit_spec in Hd'. lia.
  - destruct (transform_decimal d Hd) as (d' & Hd' & Heq).
    change (T (0x5F :: d :: t)) with (0x5F :: T (d :: t)).
    rewrite Heq. cbn [scan_digits].
    change (ascii_digit 95) with false. change (95 =? 95) with true. cbv iota.
    apply N.eqb_neq in Hp. rewrite Hp, Hd'.
    apply IH. apply ascii_digit_spec in Hd'. lia.
Qed.

Lemma parse_digit_string s sign :
  digit_string is_decimal s ->
  count_decimal s <= int_max_str_digits ->
  head_is 0x5F (T s) = false /\
  exists z,
    match scan_digits 0 0%Z (T s) with
    | None => None
    | Some (z, rest) =>
        if int_max_str_digits <? count_digits (T s) then None
        else if (length rest =? length (T s))%nat then None
        else match skip_c_space rest with
             | [] => Some (sign * z)%Z
             | _ :: _ => None
             end
    end = Some z.
Proof.
  intros Hs Hcount. rewrite <- (count_digits_string _ Hs) in Hcount.
  apply N.ltb_ge in Hcount. rewrite Hcount. clear Hcount.
  destruct Hs as [d t Hd Ht].
  destruct (transform_decimal d Hd) as (d' & Hd' & Heq). rewrite Heq.
  pose proof Hd' as Hr. apply ascii_digit_spec in Hr.
  split.
  - cbn [head_is]. apply N.eqb_neq. lia.
  - cbn [scan_digits]. rewrite Hd'.
    destruct (scan_digits_complete t Ht d' (10 * 0 + Z.of_N (d' - 48))%Z
                ltac:(lia)) as [z Hz].
    rewrite Hz. cbn. eauto.
Qed.

Lemma head_is_digit x s :
  ascii_digit x = false ->
  digit_string is_decimal s -> head_is x (T s) = false /\ skip_c_space (T s) = T s.
Proof.
  intros Hx [d t Hd Ht].
  destruct (transform_decimal d Hd) as (d' & Hd' & Heq). rewrite Heq.
  cbn [head_is skip_c_space]. split.
  - apply N.eqb_neq. intros ->. congruence.
  - destruct (c_isspace d') eqn:Hs; [|reflexivity].
    apply c_isspace_spec in Hs. apply ascii_digit_spec in Hd'. lia.
Qed.

(** Integer strings within the digit limit are accepted. *)
Lemma py_int_complete s :
  int_literal s -> exists z, py_int s = Some z.
Proof.
  intros [[s' Hs|s' Hs|s' Hs] Hcount];
    unfold py_int, long_from_string, unsigned_part.
  - destruct (head_is_digit 0x2B s' eq_refl Hs) as [Hplus Hskip].
    destruct (head_is_digit 0x2D s' eq_refl Hs) as [Hminus _].
    rewrite Hskip, Hplus, Hminus. cbn [orb].
    destruct (parse_digit_string s' 1 Hs Hcount) as [Hus [z Hz]].
    rewrite Hus. eauto.
  - change (count_decimal (0x2B :: s')) with (0 + count_decimal s') in Hcount.
    rewrite N.add_0_l in Hcount.
    change (T (0x2B :: s')) with (0x2B :: T s').
    cbn [skip_c_space]. change (c_isspace 43) with false. cbv iota.
    cbn [head_is]. change (43 =? 43) with true. change (43 =? 45) with false.
    cbn [orb tail].
    destruct (parse_digit_string s' 1 Hs Hcount) as [Hus [z Hz]].
    rewrite Hus. eauto.
  - change (count_decimal (0x2D :: s')) with (0 + count_decimal s') in Hcount.
    rewrite N.add_0_l in Hcount.
    change (T (0x2D :: s')) with (0x2D :: T s').
    cbn [skip_c_space]. change (c_isspace 45) with false. cbv iota.
    cbn [head_is]. change (45 =? 45) with true. change (45 =? 43) with false.
    cbn [orb tail].
    destruct (parse_digit_string s' (-1) Hs Hcount) as [Hus [z Hz]].
    rewrite Hus. eauto.
Qed.

(** On a trimmed string [int] succeeds exactly on the integer strings
    within the digit limit. *)
Lemma py_int_accepts s :
  trimmed s -> (is_Some (py_int s) <-> int_literal s).
Proof.
  intros Ht. split.
  - intros [z Hz]. exact (py_int_sound s z Ht Hz).
  - intros H. destruct (py_int_complete s H) as [z Hz]. now exists z.
Qed.

End IntProofs.

(** ** The csv reader never fails on the lines of a text file *)

Section CsvProofs.
Local Open Scope N_scope.

Lemma line_ending_cases s :
  line_ending s = true ->
  s = [] \/ s = [0x0A] \/ s = [0x0D] \/ s = [0x0D; 0x0A].
Proof.
  unfold line_ending. intros H. apply bool_decide_eq_true in H.
  rewrite !elem_of_cons, elem_of_nil in H. tauto.
Qed.

Lemma well_ended_snoc_body cur :
  Forall (fun c => is_newline c = false) cur -> well_ended cur.
Proof. intros H. exists cur, []. rewrite app_nil_r. now repeat split. Qed.

Lemma well_ended_ending cur ending :
  Forall (fun c => is_newline c = false) cur ->
  line_ending ending = true -> well_ended (cur ++ ending).
Proof. intros H He. now exists cur, ending. Qed.

(** Every line handed to the reader has its line break, if any, at its end. *)
Lemma split_lines_well_ended text : forall cur,
  Forall (fun c => is_newline c = false) cur ->
  Forall well_ended (split_lines cur text).
Proof.
  remember (length text) as n eqn:Hn. revert text Hn.
  induction n as [n IH] using lt_wf_ind. intros text Hn cur Hcur.
  destruct text as [|c text]; cbn [split_lines].
  - destruct cur; constructor; [|constructor].
    now apply well_ended_snoc_body.
  - cbn [length] in Hn.
    destruct (c =? 0x0A) eqn:Hlf; [|destruct (c =? 0x0D) eqn:Hcr].
    + apply N.eqb_eq in Hlf as ->. constructor.
      * now apply well_ended_ending.
      * apply (IH (length text)); [lia|reflexivity|constructor].
    + apply N.eqb_eq in Hcr as ->.
      assert (Hplain : Forall well_ended ((cur ++ [0x0D]) :: split_lines [] text)).
      { constructor.
        - now apply well_ended_ending.
        - apply (IH (length text)); [lia|reflexivity|constructor]. }
      destruct text as [|c' text'']; [exact Hplain|].
      destruct (c' =? 0x0A); [|exact Hplain].
      constructor.
      * now apply well_ended_ending.
      * apply (IH (length text'')); [cbn [length] in *; lia|reflexivity|constructor].
    + apply (IH (length text)); [lia|reflexivity|].
      apply Forall_app. split; [exact Hcur|]. constructor; [|constructor].
      unfold is_newline. now rewrite Hlf, Hcr.
Qed.

(** A character that is no line break never leads to [EAT_CRNL]. *)
Lemma parse_process_char_plain self c :
  is_newline c = false -> state self <> EAT_CRNL ->
  exists self', parse_process_char self (Some c) = inr self' /\
                state self' <> EAT_CRNL.
Proof.
  intros Hc Hst. destruct self as [st f fs]. cbn [state] in Hst.
  unfold parse_process_char. cbn [state].
  destruct st; try congruence; rewrite ?Hc;
    repeat match goal with
           | |- context [if ?b then _ else _] => destruct b
           end;
    eexists; (split; [reflexivity|cbn; congruence]).
Qed.

(** A line break leads to [EAT_CRNL], or is kept inside a quoted field. *)
Lemma parse_process_char_newline self c :
  is_newline c = true ->
  exists self', parse_process_char self (Some c) = inr self' /\
                (state self' = EAT_CRNL \/ state self' = IN_QUOTED_FIELD).
Proof.
  intros Hc. destruct self as [st f fs].
  assert (Hq : (c =? 0x22) = false).
  { unfold is_newline in Hc. apply orb_true_iff in Hc as [H|H];
      apply N.eqb_eq in H; subst c; reflexivity. }
  assert (Hd : (c =? 0x2C) = false).
  { unfold is_newline in Hc. apply orb_true_iff in Hc as [H|H];
      apply N.eqb_eq in H; subst c; reflexivity. }
  unfold parse_process_char. cbn [state].
  destruct st; rewrite ?Hc, ?Hq, ?Hd;
    eexists; (split; [reflexivity|cbn; tauto]).
Qed.

Lemma parse_process_char_eol self :
  exists self', parse_process_char self None = inr self' /\ resting self'.
Proof.
  destruct self as [st f fs]. unfold parse_process_char, resting. cbn [state].
  destruct st; eexists; (split; [reflexivity|cbn; tauto]).
Qed.

Lemma parse_line_ending self ending :
  line_ending ending = true ->
  exists self', parse_line self ending = inr self' /\ resting self'.
Proof.
  intros H.
  destruct (line_ending_cases _ H) as [->|[->|[->| ->]]]; cbn [parse_line].
  - apply parse_process_char_eol.
  - destruct (parse_process_char_newline self 0x0A eq_refl) as (s1 & -> & _).
    apply parse_process_char_eol.
  - destruct (parse_process_char_newline self 0x0D eq_refl) as (s1 & -> & _).
    apply parse_process_char_eol.
  - destruct (parse_process_char_newline self 0x0D eq_refl) as (s1 & -> & _).
    destruct (parse_process_char_newline s1 0x0A eq_refl) as (s2 & -> & _).
    apply parse_process_char_eol.
Qed.

Lemma parse_line_total line : forall self,
  well_ended line -> state self <> EAT_CRNL ->
  exists self', parse_line self line = inr self' /\ resting self'.
Proof.
  intros self (body & ending & -> & Hbody & Hend). revert self.
  induction Hbody as [|c body Hc Hbody IH]; intros self Hst.
  - now apply parse_line_ending.
  - cbn [app parse_line].
    destruct (parse_process_char_plain self c Hc Hst) as (s1 & -> & Hs1).
    now apply IH.
Qed.

Lemma resting_not_eating self : resting self -> state self <> EAT_CRNL.
Proof. intros [H|H]; rewrite H; discriminate. Qed.

Lemma reader_records_total lines : forall self,
  Forall well_ended lines -> state self <> EAT_CRNL ->
  exists records, reader_records self lines = inr records.
Proof.
  induction lines as [|line lines IH]; intros self Hall Hst; cbn [reader_records].
  - destruct (_ || _); eauto.
  - inversion Hall as [|? ? Hline Hrest]; subst.
    destruct (parse_line_total line self Hline Hst) as (s1 & -> & Hs1).
    destruct (bool_decide (state s1 = START_RECORD)).
    + destruct (IH parse_reset Hrest ltac:(discriminate)) as [records ->]. eauto.
    + apply IH; [exact Hrest|now apply resting_not_eating].
Qed.

Lemma csv_reader_total text : exists records, csv_reader text = inr records.
Proof.
  unfold csv_reader. apply reader_records_total; [|discriminate].
  apply split_lines_well_ended. constructor.
Qed.

(** [list(csv.DictReader(f))] always returns. *)
Lemma DictReader_total text : exists rows, DictReader text = inr rows.
Proof.
  unfold DictReader. destruct (csv_reader_total text) as [records ->].
  destruct records; eauto.
Qed.

(** *** A text of one line *)




End CsvProofs.

(** ** The records [DictReader] builds *)

Section RowProofs.

Implicit Types (fieldnames row : list str) (d : gmap str (option str)).

Lemma set_fields_no_None pairs : forall d,
  (forall k, d !! k <> Some None) ->
  forall k, set_fields d pairs !! k <> Some None.
Proof.
  induction pairs as [|[k0 v0] pairs IH]; intros d Hd k; [apply Hd|].
  cbn. apply IH. intros k'.
  destruct (decide (k0 = k')) as [->|Hne].
  - rewrite lookup_insert_eq. discriminate.
  - rewrite lookup_insert_ne by exact Hne. apply Hd.
Qed.

Lemma set_restval_None keys : forall d k,
  k ∈ keys \/ d !! k = Some None -> set_restval d keys !! k = Some None.
Proof.
  induction keys as [|k0 keys IH]; intros d k H.
  - destruct H as [H|H]; [inversion H|exact H].
  - cbn. apply IH.
    destruct (decide (k0 = k)) as [->|Hne].
    + right. apply lookup_insert_eq.
    + rewrite lookup_insert_ne by exact Hne.
      destruct H as [H|H]; [|now right].
      apply elem_of_cons in H as [->|H]; [congruence|now left].
Qed.

Lemma has_None_true d k : d !! k = Some None -> has_None d = true.
Proof.
  intros H. unfold has_None. apply existsb_exists.
  exists (k, None). split; [|now apply bool_decide_eq_true].
  apply list_elem_of_In, elem_of_map_to_list. exact H.
Qed.

Lemma has_None_false d : (forall k, d !! k <> Some None) -> has_None d = false.
Proof.
  intros H. unfold has_None. destruct (existsb _ _) eqn:He; [|reflexivity].
  apply existsb_exists in He as ([k v] & Hin & Hv).
  apply bool_decide_eq_true in Hv. cbn in Hv. subst v.
  apply list_elem_of_In, elem_of_map_to_list in Hin. now apply H in Hin.
Qed.

(** A row longer than the header: the surplus fields sit under [None]. *)
Lemma DictReader_row_overflow fieldnames row :
  length fieldnames < length row ->
  exists x extra,
    drop (length fieldnames) row = x :: extra /\
    restkey (DictReader_row fieldnames row) = Some (x :: extra).
Proof.
  intros H. unfold DictReader_row.
  apply Nat.ltb_lt in H as Hb. rewrite Hb. cbn [restkey].
  destruct (drop (length fieldnames) row) as [|x extra] eqn:Hd.
  - apply (f_equal length) in Hd. rewrite length_drop in Hd. cbn in Hd. lia.
  - eauto.
Qed.

Lemma DictReader_row_no_overflow fieldnames row :
  length row <= length fieldnames ->
  restkey (DictReader_row fieldnames row) = None.
Proof.
  intros H. unfold DictReader_row.
  apply Nat.ltb_ge in H as Hb. rewrite Hb.
  destruct (length row <? length fieldnames); reflexivity.
Qed.

(** A row shorter than the header: some column holds [None]. *)
Lemma DictReader_row_underflow fieldnames row :
  length row < length fieldnames ->
  has_None (named (DictReader_row fieldnames row)) = true.
Proof.
  intros H. unfold DictReader_row.
  assert (Hb : (length fieldnames <? length row) = false) by (apply Nat.ltb_ge; lia).
  apply Nat.ltb_lt in H as Hb'. rewrite Hb, Hb'. cbn [named].
  destruct (drop (length row) fieldnames) as [|k keys] eqn:Hd.
  - apply (f_equal length) in Hd. rewrite length_drop in Hd. cbn in Hd. lia.
  - apply (has_None_true _ k). apply (set_restval_None (k :: keys)).
    left. apply elem_of_cons. now left.
Qed.

(** A row as long as the header: every column holds a field. *)
Lemma DictReader_row_exact fieldnames row :
  length row = length fieldnames ->
  has_None (named (DictReader_row fieldnames row)) = false.
Proof.
  intros H. unfold DictReader_row.
  assert (Hb : (length fieldnames <? length row) = false) by (apply Nat.ltb_ge; lia).
  assert (Hb' : (length row <? length fieldnames) = false) by (apply Nat.ltb_ge; lia).
  rewrite Hb, Hb'. cbn [named]. apply has_None_false.
  apply (set_fields_no_None _ ∅). intros k. rewrite lookup_empty. discriminate.
Qed.

(** ** The value under a column name *)

Lemma set_fields_lookup_notin pairs : forall (d : gmap str (option str)) k,
  k ∉ pairs.*1 -> set_fields d pairs !! k = d !! k.
Proof.
  induction pairs as [|[k0 v0] pairs IH]; intros d k Hk; [reflexivity|].
  cbn in *. apply not_elem_of_cons in Hk as [Hne Hk].
  unfold set_fields in IH. rewrite (IH _ _ Hk).
  now apply lookup_insert_ne.
Qed.

Lemma set_fields_lookup_in pairs : forall (d : gmap str (option str)) k v,
  NoDup (pairs.*1) -> (k, v) ∈ pairs ->
  set_fields d pairs !! k = Some (Some v).
Proof.
  induction pairs as [|[k0 v0] pairs IH]; intros d k v Hnd Hin.
  - inversion Hin.
  - cbn in Hnd. apply NoDup_cons in Hnd as [Hk0 Hnd].
    apply elem_of_cons in Hin as [[= -> ->]|Hin].
    + cbn. fold (set_fields (<[k0:=Some v0]> d) pairs).
      rewrite (set_fields_lookup_notin _ _ _ Hk0). apply lookup_insert_eq.
    + cbn. fold (set_fields (<[k0:=Some v0]> d) pairs). now apply IH.
Qed.

(** Under a header without repeated names, [row.get(name)] on a row as long
    as the header is the field at the position of [name]. *)
Lemma DictReader_row_get fieldnames row j name v :
  NoDup fieldnames -> length row = length fieldnames ->
  fieldnames !! j = Some name -> row !! j = Some v ->
  row_get (DictReader_row fieldnames row) name = Some v.
Proof.
  intros Hnd Hlen Hname Hv. unfold row_get, DictReader_row.
  assert (H1 : (length fieldnames <? length row) = false)
    by (apply Nat.ltb_ge; lia).
  assert (H2 : (length row <? length fieldnames) = false)
    by (apply Nat.ltb_ge; lia).
  rewrite H1, H2. cbn [named].
  rewrite (set_fields_lookup_in _ ∅ name v); [reflexivity| |].
  - rewrite fst_zip by lia. exact Hnd.
  - apply list_elem_of_lookup. exists j.
    apply lookup_zip_with_Some. now exists name, v.
Qed.

(** The body of the loop of [validate_rows] appends what [row_issue] finds. *)
Lemma validate_rows_body_issue i fieldnames row age_column errors :
  validate_rows_body i (DictReader_row fieldnames row) age_column errors =
  errors ++ match row_issue fieldnames row age_column with
            | Some issue => [issue_message i age_column issue]
            | None => []
            end.
Proof.
  unfold validate_rows_body, row_issue.
  destruct (length fieldnames <? length row) eqn:Hover.
  - apply Nat.ltb_lt in Hover.
    destruct (DictReader_row_overflow _ _ Hover) as (x & extra & Hd & ->).
    rewrite Hd. reflexivity.
  - apply Nat.ltb_ge in Hover.
    rewrite (DictReader_row_no_overflow _ _ Hover).
    destruct (length row <? length fieldnames) eqn:Hunder.
    + apply Nat.ltb_lt in Hunder.
      rewrite (DictReader_row_underflow _ _ Hunder). reflexivity.
    + apply Nat.ltb_ge in Hunder.
      rewrite (DictReader_row_exact fieldnames row ltac:(lia)). unfold age_issue.
      destruct (py_int _); [now rewrite app_nil_r|reflexivity].
Qed.

Lemma validate_rows_loop_issues fieldnames age_column records :
  forall i errors,
  validate_rows_loop i (map (DictReader_row fieldnames) records) age_column errors
  = errors ++ row_errors_from i fieldnames age_column records.
Proof.
  induction records as [|row records IH]; intros i errors; cbn.
  - now rewrite app_nil_r.
  - rewrite IH, validate_rows_body_issue, <- app_assoc. reflexivity.
Qed.

Lemma row_errors_from_length fieldnames age_column records : forall i,
  length (row_errors_from i fieldnames age_column records) <= length records.
Proof.
  induction records as [|row records IH]; intros i; cbn; [lia|].
  rewrite length_app. specialize (IH (S i)).
  destruct (row_issue _ _ _); cbn; lia.
Qed.

(** The rows [DictReader] returns are built by [DictReader_row] from
    one list of field names. *)
Lemma DictReader_rows text rows :
  DictReader text = inr rows ->
  exists fieldnames records, rows = map (DictReader_row fieldnames) records.
Proof.
  unfold DictReader. destruct (csv_reader text) as [e|[|fieldnames records]];
    [discriminate| |]; intros [= <-].
  - now exists [], [].
  - eauto.
Qed.

End RowProofs.

(** ** [sorted] *)

Lemma str_le_total : Total str_le.
Proof.
  intros x. unfold str_le. induction x as [|a x IH]; intros y.
  - now left.
  - destruct y as [|b y]; [now right|]. cbn [str_leb].
    destruct (N.compare_spec a b) as [->|Hlt|Hgt].
    + rewrite N.eqb_refl, N.ltb_irrefl. cbn. apply IH.
    + apply N.ltb_lt in Hlt. rewrite Hlt. now left.
    + apply N.ltb_lt in Hgt. rewrite Hgt. now right.
Qed.

Lemma str_le_trans : Transitive str_le.
Proof.
  intros x. unfold str_le. induction x as [|a x IH]; intros y z Hxy Hyz.
  - exact I.
  - destruct y as [|b y]; [destruct Hxy|].
    destruct z as [|c z]; [destruct Hyz|].
    cbn [str_leb] in *.
    apply Is_true_true in Hxy, Hyz. apply Is_true_true.
    rewrite orb_true_iff, andb_true_iff, N.ltb_lt, N.eqb_eq in *.
    destruct Hxy as [Hab|[-> Hxy]], Hyz as [Hbc|[-> Hyz]].
    + left. lia.
    + now left.
    + now left.
    + right. split; [reflexivity|].
      apply Is_true_true. eapply IH; apply Is_true_true; eassumption.
Qed.

Lemma str_le_antisym x y : str_le x y -> str_le y x -> x = y.
Proof.
  unfold str_le. revert y. induction x as [|a x IH]; intros [|b y] Hxy Hyx;
    try reflexivity; try (now destruct Hxy); try (now destruct Hyx).
  cbn [str_leb] in *. apply Is_true_true in Hxy, Hyx.
  rewrite orb_true_iff, andb_true_iff, N.ltb_lt, N.eqb_eq in *.
  destruct Hxy as [Hab|[-> Hxy]], Hyx as [Hba|[Heq Hyx]]; try lia.
  f_equal. apply IH; apply Is_true_true; assumption.
Qed.

Lemma sorted_spec (s : gset str) :
  StronglySorted str_le (sorted (elements s)) /\
  NoDup (sorted (elements s)) /\
  forall c, c ∈ sorted (elements s) <-> c ∈ s.
Proof.
  unfold sorted. split; [|split].
  - apply StronglySorted_merge_sort; [apply str_le_trans|apply str_le_total].
  - rewrite merge_sort_Permutation. apply NoDup_elements.
  - intros c. rewrite merge_sort_Permutation. apply elem_of_elements.
Qed.

(** ** The schema check *)

Lemma elem_of_row_keys (row : Row) (c : str) :
  Some c ∈ row_keys row <-> c ∈ dom (named row).
Proof.
  unfold row_keys. rewrite elem_of_union, elem_of_map. split.
  - intros [(x & [= <-] & Hx)|H]; [exact Hx|].
    destruct (restkey row); [apply elem_of_singleton in H; discriminate|].
    now apply not_elem_of_empty in H.
  - intros H. left. now exists c.
Qed.

Lemma elem_of_missing (first : Row) (expected_columns : gset str) (c : str) :
  c ∈ filter (fun c => Some c ∉ row_keys first) expected_columns
  <-> c ∈ expected_columns /\ c ∉ dom (named first).
Proof. rewrite elem_of_filter, elem_of_row_keys. tauto. Qed.

Lemma fst_zip_take {A B} (l : list A) (k : list B) :
  (zip l k).*1 = take (length k) l.
Proof.
  revert k. induction l as [|x l IH]; intros [|y k]; cbn; try reflexivity.
  f_equal. apply IH.
Qed.

Lemma dom_set_fields pairs : forall d : gmap str (option str),
  dom (set_fields d pairs) = dom d ∪ list_to_set (pairs.*1).
Proof.
  induction pairs as [|[k v] pairs IH]; intros d; cbn.
  - now rewrite (right_id_L ∅ (∪)).
  - unfold set_fields in IH. rewrite IH, dom_insert_L.
    now rewrite (comm_L (∪) {[k]} (dom d)), (assoc_L (∪)).
Qed.

Lemma dom_set_restval keys : forall d : gmap str (option str),
  dom (set_restval d keys) = dom d ∪ list_to_set keys.
Proof.
  induction keys as [|k keys IH]; intros d; cbn.
  - now rewrite (right_id_L ∅ (∪)).
  - unfold set_restval in IH. rewrite IH, dom_insert_L.
    now rewrite (comm_L (∪) {[k]} (dom d)), (assoc_L (∪)).
Qed.

(** The header [DictReader] gave a record is the set of its field names. *)
Lemma DictReader_row_dom fieldnames row :
  dom (named (DictReader_row fieldnames row)) = list_to_set fieldnames.
Proof.
  unfold DictReader_row.
  destruct (length fieldnames <? length row)%nat eqn:Hover;
    [|destruct (length row <? length fieldnames)%nat eqn:Hunder]; cbn [named].
  - apply Nat.ltb_lt in Hover.
    rewrite dom_set_fields, dom_empty_L, (left_id_L ∅ (∪)), fst_zip_take.
    now rewrite take_ge by lia.
  - rewrite dom_set_restval, dom_set_fields, dom_empty_L, (left_id_L ∅ (∪)), fst_zip_take.
    now rewrite <- list_to_set_app_L, take_drop.
  - apply Nat.ltb_ge in Hover, Hunder.
    rewrite dom_set_fields, dom_empty_L, (left_id_L ∅ (∪)), fst_zip_take.
    now rewrite take_ge by lia.
Qed.

(** ** The true division of [int]s *)

Section FloatProofs.
Import SpecFloat.
Local Open Scope Z_scope.

Lemma digits2_pos_size p : digits2_pos p = Pos.size p.
Proof. induction p; cbn; congruence. Qed.

(** A number below [2 ^ k] has at most [k] binary digits. *)
Lemma Zdigits2_le m k : 0 <= m < 2 ^ k -> 0 <= k -> Zdigits2 m <= k.
Proof.
  intros [Hm Hlt] Hk. destruct m as [|p|p]; [exact Hk| |lia].
  cbn [Zdigits2]. rewrite digits2_pos_size.
  destruct (Z.le_gt_cases (Z.pos (Pos.size p)) k) as [H|H]; [exact H|].
  exfalso.
  assert (Hle : 2 ^ k <= Z.pos p); [|lia].
  pose proof (Pos.size_le p) as Hs.
  assert (H2 : 2 ^ Z.pos (Pos.size p) <= 2 * Z.pos p).
  { rewrite <- Pos2Z.inj_pow. change (2 * Z.pos p) with (Z.pos p~0). lia. }
  assert (Hk1 : 2 ^ (k + 1) <= 2 ^ Z.pos (Pos.size p))
    by (apply Z.pow_le_mono_r; lia).
  rewrite Z.pow_add_r in Hk1 by lia. lia.
Qed.

Lemma shr_1_m mrs : 0 <= shr_m mrs -> shr_m (shr_1 mrs) = shr_m mrs / 2.
Proof.
  destruct mrs as [m r s]. cbn [shr_m shr_1]. intros Hm.
  destruct m as [|[p|p|]|p]; cbn [shr_m]; try lia; try reflexivity.
  - apply (Z.div_unique _ 2 _ 1); lia.
  - apply (Z.div_unique _ 2 _ 0); lia.
Qed.

Lemma iter_pos_nat {A} (f : A -> A) p : forall x,
  iter_pos f p x = Nat.iter (Pos.to_nat p) f x.
Proof.
  induction p as [p IH|p IH|]; intros x; cbn [iter_pos].
  - rewrite !IH, Pos2Nat.inj_xI.
    replace (S (2 * Pos.to_nat p))
      with (Pos.to_nat p + (Pos.to_nat p + 1))%nat by lia.
    now rewrite !Nat.iter_add.
  - rewrite !IH, Pos2Nat.inj_xO.
    replace (2 * Pos.to_nat p)%nat with (Pos.to_nat p + Pos.to_nat p)%nat by lia.
    now rewrite Nat.iter_add.
  - reflexivity.
Qed.

Lemma iter_shr_1_m n : forall mrs,
  0 <= shr_m mrs ->
  shr_m (Nat.iter n shr_1 mrs) = shr_m mrs / 2 ^ Z.of_nat n.
Proof.
  induction n as [|n IH]; intros mrs Hm.
  - cbn. now rewrite Z.div_1_r.
  - rewrite Nat.iter_succ.
    assert (Hn : 0 <= shr_m (Nat.iter n shr_1 mrs))
      by (rewrite IH by exact Hm; apply Z.div_pos; lia).
    rewrite shr_1_m by exact Hn. rewrite IH by exact Hm.
    rewrite Z.div_div by lia. f_equal.
    rewrite Nat2Z.inj_succ, Z.pow_succ_r by lia. lia.
Qed.

(** [shr] divides the mantissa by a power of two and adds to the exponent. *)
Lemma shr_spec mrs e n :
  0 <= shr_m mrs ->
  let n' := Z.max n 0 in
  shr_m (shr mrs e n).1 = shr_m mrs / 2 ^ n' /\ (shr mrs e n).2 = e + n'.
Proof.
  intros Hm. destruct n as [|p|p]; cbn [shr fst snd Z.max].
  - cbn. rewrite Z.div_1_r. lia.
  - rewrite iter_pos_nat, iter_shr_1_m by exact Hm.
    rewrite positive_nat_Z. split; [reflexivity|].
    change (Z.max (Z.pos p) 0) with (Z.pos p). reflexivity.
  - cbn. rewrite Z.div_1_r. lia.
Qed.

Lemma shr_record_of_loc_m m l : shr_m (shr_record_of_loc m l) = m.
Proof. destruct l as [|[]]; reflexivity. Qed.

(** [shr_fexp] keeps a mantissa in the range of non-negative numbers below
    [2 ^ (k - e)], and its exponent below that of the largest floats. *)
Lemma shr_fexp_bound m e l k :
  0 <= m < 2 ^ (k - e) -> e <= k -> e <= 971 -> 0 <= k <= 1024 ->
  let r := shr_fexp 53 1024 m e l in
  0 <= shr_m r.1 < 2 ^ (k - r.2) /\ r.2 <= k /\ r.2 <= 971.
Proof.
  intros Hm Hek He Hk. unfold shr_fexp.
  pose proof (Zdigits2_le m (k - e) Hm ltac:(lia)) as Hd.
  set (n := fexp 53 1024 (Zdigits2 m + e) - e).
  assert (Hn : e + Z.max n 0 <= k /\ e + Z.max n 0 <= 971)
    by (unfold n, fexp, emin; lia).
  destruct (shr_spec (shr_record_of_loc m l) e n) as [H1 H2];
    [rewrite shr_record_of_loc_m; lia|].
  cbv zeta. rewrite H1, H2, shr_record_of_loc_m.
  split; [|exact Hn]. split; [apply Z.div_pos; lia|].
  apply Z.div_lt_upper_bound; [lia|].
  rewrite <- Z.pow_add_r by lia.
  replace (Z.max n 0 + (k - (e + Z.max n 0))) with (k - e) by lia. lia.
Qed.

Lemma round_nearest_even_bound m l :
  m <= round_nearest_even m l <= m + 1.
Proof.
  destruct l as [|[]]; cbn [round_nearest_even]; try lia.
  destruct (Z.even m); lia.
Qed.

(** Rounding a number below [2 ^ 1023] gives a finite float or a zero. *)
Lemma binary_round_aux_finite sx m e l :
  0 <= m < 2 ^ (1023 - e) -> e <= 971 ->
  match binary_round_aux 53 1024 sx m e l with
  | S754_zero _ | S754_finite _ _ _ => True
  | _ => False
  end.
Proof.
  intros Hm He. unfold binary_round_aux.
  pose proof (shr_fexp_bound m e l 1023 Hm ltac:(lia) He ltac:(lia)) as H1.
  destruct (shr_fexp 53 1024 m e l) as [mrs1 e1]. cbn [fst snd] in H1.
  destruct H1 as (Hm1 & He1k & He1).
  pose proof (round_nearest_even_bound (shr_m mrs1) (loc_of_shr_record mrs1))
    as Hr.
  set (m2 := round_nearest_even (shr_m mrs1) (loc_of_shr_record mrs1)) in *.
  assert (Hm2 : 0 <= m2 < 2 ^ (1024 - e1)).
  { replace (1024 - e1) with (Z.succ (1023 - e1)) by lia.
    rewrite Z.pow_succ_r by lia. lia. }
  pose proof (shr_fexp_bound m2 e1 loc_Exact 1024 Hm2 ltac:(lia) He1 ltac:(lia))
    as H2.
  destruct (shr_fexp 53 1024 m2 e1 loc_Exact) as [mrs2 e2]. cbn [fst snd] in H2.
  destruct H2 as (Hm3 & _ & He2).
  destruct (shr_m mrs2) as [|p|p]; [exact I| |lia].
  assert (Hle : (e2 <=? 1024 - 53) = true) by (apply Z.leb_le; lia).
  now rewrite Hle.
Qed.

(** The division of a numerator below [2 ^ 1023] times the denominator. *)
Lemma SFdiv_core_binary_bound pa pb :
  Z.pos pa < 2 ^ 1023 * Z.pos pb ->
  let '(q, e, _) := SFdiv_core_binary 53 1024 (Z.pos pa) 0 (Z.pos pb) 0 in
  0 <= q < 2 ^ (1023 - e) /\ e <= 0.
Proof.
  intros Hlt. unfold SFdiv_core_binary.
  set (e := Z.min _ _).
  assert (He : e <= 0) by (unfold e; lia).
  set (m' := match 0 - 0 - e with
             | 0 => Z.pos pa
             | Z.pos _ => Z.shiftl (Z.pos pa) (0 - 0 - e)
             | Z.neg _ => 0
             end).
  assert (Hm' : m' = Z.pos pa * 2 ^ (- e)).
  { unfold m'. replace (0 - 0 - e) with (- e) by lia.
    destruct (- e) as [|p|p] eqn:Heq; [lia| |lia].
    now rewrite Z.shiftl_mul_pow2 by lia. }
  clearbody m'.
  pose proof (Z_div_mod m' (Z.pos pb) ltac:(lia)) as Hdiv.
  destruct (Z.div_eucl m' (Z.pos pb)) as [q r]. destruct Hdiv as [Heq Hr].
  split; [|exact He].
  assert (Hpow : 2 ^ (1023 - e) = 2 ^ 1023 * 2 ^ (- e)).
  { rewrite <- Z.pow_add_r by lia. f_equal; lia. }
  assert (Hp : 0 < 2 ^ (- e)) by (apply Z.pow_pos_nonneg; lia).
  rewrite Hpow. nia.
Qed.

(** No overflow when the quotient is below [2 ^ 1023] in absolute value. *)
Lemma true_divide_returns a b :
  0 < b -> Z.abs a < 2 ^ 1023 * b ->
  exists q, true_divide a b = inr q /\
    match q with S754_zero _ | S754_finite _ _ _ => True | _ => False end.
Proof.
  intros Hb Ha. unfold true_divide.
  destruct (Z.eqb_spec b 0) as [->|_]; [lia|].
  destruct b as [|pb|pb]; [lia| |lia]. cbn [int_operand].
  assert (Hfin : forall s pa, Z.pos pa < 2 ^ 1023 * Z.pos pb ->
    let q := SFdiv 53 1024 (S754_finite s pa 0) (S754_finite false pb 0) in
    match q with S754_zero _ | S754_finite _ _ _ => True | _ => False end).
  { intros s pa Hlt. cbn [SFdiv].
    pose proof (SFdiv_core_binary_bound pa pb Hlt) as Hcore.
    destruct (SFdiv_core_binary 53 1024 (Z.pos pa) 0 (Z.pos pb) 0)
      as [[q e] l].
    destruct Hcore as [Hq He].
    apply binary_round_aux_finite; [exact Hq|lia]. }
  destruct a as [|pa|pa]; cbn [int_operand].
  - eexists. split; [reflexivity|exact I].
  - specialize (Hfin false pa ltac:(lia)). cbv zeta in Hfin.
    destruct (SFdiv 53 1024 _ _) as [s|s| |s m e]; try contradiction;
      (eexists; split; [reflexivity|exact I]).
  - specialize (Hfin true pa ltac:(lia)). cbv zeta in Hfin.
    destruct (SFdiv 53 1024 _ _) as [s|s| |s m e]; try contradiction;
      (eexists; split; [reflexivity|exact I]).
Qed.

(** Shifting out zeros from an exact record leaves an exact record. *)
Lemma shr_1_exact m :
  0 <= m -> m mod 2 = 0 ->
  shr_1 (Build_shr_record m false false) = Build_shr_record (m / 2) false false.
Proof.
  intros Hm Hmod. destruct m as [|[p|p|]|p]; cbn [shr_1 orb]; try lia.
  - reflexivity.
  - exfalso. rewrite Pos2Z.inj_xI in Hmod.
    rewrite Z.add_comm, Z.mul_comm, Z.mod_add in Hmod by lia. discriminate.
  - f_equal. apply (Z.div_unique _ 2 _ 0); lia.
  - discriminate.
Qed.

Lemma iter_shr_1_exact n : forall m,
  0 <= m -> m mod 2 ^ Z.of_nat n = 0 ->
  Nat.iter n shr_1 (Build_shr_record m false false)
  = Build_shr_record (m / 2 ^ Z.of_nat n) false false.
Proof.
  induction n as [|n IH]; intros m Hm Hmod.
  - cbn. now rewrite Z.div_1_r.
  - rewrite Nat2Z.inj_succ, Z.pow_succ_r in * by lia.
    assert (Hp : 0 < 2 ^ Z.of_nat n) by (apply Z.pow_pos_nonneg; lia).
    apply Z.mod_divide in Hmod; [|lia]. destruct Hmod as [k ->].
    rewrite Nat.iter_succ, IH; [| lia |].
    + replace (k * (2 * 2 ^ Z.of_nat n)) with (k * 2 * 2 ^ Z.of_nat n) by lia.
      rewrite Z.div_mul by lia.
      rewrite shr_1_exact; [|nia|now rewrite Z.mod_mul by lia].
      rewrite Z.div_mul by lia.
      replace (k * 2 * 2 ^ Z.of_nat n) with (k * (2 * 2 ^ Z.of_nat n)) by lia.
      now rewrite Z.div_mul by lia.
    + replace (k * (2 * 2 ^ Z.of_nat n)) with (k * 2 * 2 ^ Z.of_nat n) by lia.
      now rewrite Z.mod_mul by lia.
Qed.

Lemma shr_exact m e n :
  0 <= m -> m mod 2 ^ Z.max n 0 = 0 ->
  loc_of_shr_record (shr (shr_record_of_loc m loc_Exact) e n).1 = loc_Exact.
Proof.
  intros Hm Hmod. destruct n as [|p|p]; cbn [shr fst]; try reflexivity.
  change (Z.max (Z.pos p) 0) with (Z.pos p) in Hmod.
  rewrite iter_pos_nat. cbn [shr_record_of_loc].
  rewrite iter_shr_1_exact; [reflexivity|exact Hm|].
  now rewrite positive_nat_Z.
Qed.

Lemma round_nearest_even_exact m : round_nearest_even m loc_Exact = m.
Proof. reflexivity. Qed.

(** One rounding step on the quotient [A / B] scaled by [2 ^ e], when it
    lies between the integers [lo] and [hi] below [2 ^ 53]: the step moves
    to an exponent [e1] that is not positive either and to a mantissa
    between [lo] and [hi] scaled by [2 ^ e1]. *)
Lemma shr_fexp_between A B e l lo hi :
  0 < B -> 0 <= A -> e <= 0 -> 0 <= lo -> hi < 2 ^ 53 ->
  lo * 2 ^ (- e) * B <= A <= hi * 2 ^ (- e) * B ->
  (A mod B = 0 -> l = loc_Exact) ->
  let r := shr_fexp 53 1024 (A / B) e l in
  let m' := round_nearest_even (shr_m r.1) (loc_of_shr_record r.1) in
  e <= r.2 <= 0 /\
  lo * 2 ^ (- r.2) <= shr_m r.1 /\ shr_m r.1 <= m' /\ m' <= hi * 2 ^ (- r.2).
Proof.
  intros HB HA He Hlo Hhi [Hlow Hupp] Hexact.
  assert (Hp : 0 < 2 ^ (- e)) by (apply Z.pow_pos_nonneg; lia).
  assert (Hm : 0 <= A / B < 2 ^ (53 - e)).
  { split; [apply Z.div_pos; lia|].
    apply Z.div_lt_upper_bound; [lia|].
    replace (53 - e) with (53 + - e) by lia. rewrite Z.pow_add_r by lia. nia. }
  pose proof (Zdigits2_le _ _ Hm ltac:(lia)) as Hd.
  unfold shr_fexp.
  set (n := fexp 53 1024 (Zdigits2 (A / B) + e) - e).
  assert (Hn : e + Z.max n 0 <= 0) by (unfold n, fexp, emin; lia).
  destruct (shr_spec (shr_record_of_loc (A / B) l) e n) as [H1 H2];
    [rewrite shr_record_of_loc_m; lia|].
  rewrite shr_record_of_loc_m in H1. cbv zeta.
  rewrite H1, H2. split; [lia|].
  set (k := Z.max n 0) in *. assert (Hk : 0 <= k) by (unfold k; lia).
  assert (Hpk : 0 < 2 ^ k) by (apply Z.pow_pos_nonneg; lia).
  assert (Hp1 : 0 < 2 ^ (- (e + k))) by (apply Z.pow_pos_nonneg; lia).
  assert (Hsplit : 2 ^ (- e) = 2 ^ (- (e + k)) * 2 ^ k).
  { rewrite <- Z.pow_add_r by lia. f_equal; lia. }
  rewrite Hsplit in Hlow, Hupp.
  rewrite Z.div_div by lia.
  pose proof (round_nearest_even_bound (A / (B * 2 ^ k))
                (loc_of_shr_record
                   (shr (shr_record_of_loc (A / B) l) e n).1)) as Hr.
  assert (HL : lo * 2 ^ (- (e + k)) <= A / (B * 2 ^ k))
    by (apply Z.div_le_lower_bound; nia).
  assert (HU : A / (B * 2 ^ k) <= hi * 2 ^ (- (e + k)))
    by (apply Z.div_le_upper_bound; nia).
  split; [exact HL|]. split; [lia|].
  destruct (Z.eq_dec (A / (B * 2 ^ k)) (hi * 2 ^ (- (e + k)))) as [Heq|Hne];
    [|lia].
  (* the quotient is the upper bound itself: the division is exact *)
  pose proof (Z.mul_div_le A (B * 2 ^ k) ltac:(nia)) as Hfloor.
  rewrite Heq in Hfloor.
  assert (HA' : A = hi * 2 ^ (- (e + k)) * 2 ^ k * B) by nia.
  assert (Hmod : A mod B = 0) by (rewrite HA'; apply Z.mod_mul; lia).
  rewrite (Hexact Hmod), shr_exact.
  - rewrite round_nearest_even_exact, Heq. lia.
  - apply Z.div_pos; lia.
  - fold k. rewrite HA', Z.div_mul by lia. apply Z.mod_mul. lia.
Qed.

(** Rounding the quotient [A / B] scaled by [2 ^ e], when it lies between
    the integers [lo] and [hi] below [2 ^ 53], gives a float between [lo]
    and [hi]. *)
Lemma binary_round_aux_between A B e l lo hi :
  0 < B -> 0 <= A -> e <= 0 -> 0 <= lo -> hi < 2 ^ 53 ->
  lo * 2 ^ (- e) * B <= A <= hi * 2 ^ (- e) * B ->
  (A mod B = 0 -> l = loc_Exact) ->
  let f := binary_round_aux 53 1024 false (A / B) e l in
  match f with S754_zero _ | S754_finite _ _ _ => True | _ => False end /\
  (inject_Z lo <= float_value f)%Q /\ (float_value f <= inject_Z hi)%Q.
Proof.
  intros HB HA He Hlo Hhi Hbounds Hexact. unfold binary_round_aux.
  pose proof (shr_fexp_between A B e l lo hi HB HA He Hlo Hhi Hbounds Hexact)
    as H1.
  destruct (shr_fexp 53 1024 (A / B) e l) as [mrs1 e1].
  cbn [fst snd] in H1. cbv zeta in H1.
  set (m2 := round_nearest_even (shr_m mrs1) (loc_of_shr_record mrs1)) in *.
  destruct H1 as (He1 & HL1 & Hm2 & HU1).
  assert (Hp1 : 0 < 2 ^ (- e1)) by (apply Z.pow_pos_nonneg; lia).
  assert (Hm2' : 0 <= m2) by nia.
  pose proof (shr_fexp_between m2 1 e1 loc_Exact lo hi ltac:(lia) Hm2'
                ltac:(lia) Hlo Hhi ltac:(lia) ltac:(reflexivity)) as H2.
  rewrite Z.div_1_r in H2.
  destruct (shr_fexp 53 1024 m2 e1 loc_Exact) as [mrs2 e2].
  cbn [fst snd] in H2. cbv zeta in H2.
  destruct H2 as (He2 & HL2 & Hm3 & HU2).
  pose proof (round_nearest_even_bound (shr_m mrs2) (loc_of_shr_record mrs2))
    as Hr.
  assert (Hp2 : 0 < 2 ^ (- e2)) by (apply Z.pow_pos_nonneg; lia).
  destruct (shr_m mrs2) as [|m3|m3] eqn:Heq; [| |nia].
  - split; [exact I|]. cbn [float_value]. unfold Qle. cbn. nia.
  - assert (Hle : (e2 <=? 1024 - 53) = true) by (apply Z.leb_le; lia).
    rewrite Hle. split; [exact I|]. cbn [float_value].
    destruct e2 as [| |k]; [|lia|].
    + change (2 ^ (- 0)) with 1 in *. unfold Qle. cbn. lia.
    + change (- Z.neg k) with (Z.pos k) in *.
      unfold Qle. cbn [Qnum Qden inject_Z]. rewrite Pos2Z.inj_pow. lia.
Qed.

Lemma SFdiv_core_binary_spec pa pb :
  let '(q, e, l) := SFdiv_core_binary 53 1024 (Z.pos pa) 0 (Z.pos pb) 0 in
  e <= 0 /\ q = (Z.pos pa * 2 ^ (- e)) / Z.pos pb /\
  ((Z.pos pa * 2 ^ (- e)) mod Z.pos pb = 0 -> l = loc_Exact).
Proof.
  unfold SFdiv_core_binary.
  set (e := Z.min _ _).
  assert (He : e <= 0) by (unfold e; lia).
  set (m' := match 0 - 0 - e with
             | 0 => Z.pos pa
             | Z.pos _ => Z.shiftl (Z.pos pa) (0 - 0 - e)
             | Z.neg _ => 0
             end).
  assert (Hm' : m' = Z.pos pa * 2 ^ (- e)).
  { unfold m'. replace (0 - 0 - e) with (- e) by lia.
    destruct (- e) as [|p|p] eqn:Heq; [lia| |lia].
    now rewrite Z.shiftl_mul_pow2 by lia. }
  clearbody m'. subst m'.
  destruct (Z.div_eucl (Z.pos pa * 2 ^ (- e)) (Z.pos pb)) as [q r] eqn:Hqr.
  split; [exact He|]. split; [unfold Z.div; now rewrite Hqr|].
  unfold Z.modulo. rewrite Hqr.
  intros ->. unfold new_location, new_location_even, new_location_odd.
  now destruct (Z.even (Z.pos pb)).
Qed.

(** The true division of a non-negative [a] by [b], when the quotient lies
    between the integers [lo] and [hi] below [2 ^ 53], returns a float
    between [lo] and [hi]. *)
Lemma true_divide_between a b lo hi :
  0 < b -> 0 <= lo -> hi < 2 ^ 53 -> lo * b <= a <= hi * b ->
  exists q, true_divide a b = inr q /\
    (inject_Z lo <= float_value q)%Q /\ (float_value q <= inject_Z hi)%Q.
Proof.
  intros Hb Hlo Hhi Hab. unfold true_divide.
  destruct (Z.eqb_spec b 0) as [->|_]; [lia|].
  destruct b as [|pb|pb]; [lia| |lia].
  destruct a as [|pa|pa]; [|clear Hb|nia]; cbn [int_operand].
  - eexists. split; [reflexivity|]. cbn [SFdiv xorb float_value].
    unfold Qle. cbn. nia.
  - cbn [SFdiv xorb].
    pose proof (SFdiv_core_binary_spec pa pb) as Hcore.
    destruct (SFdiv_core_binary 53 1024 (Z.pos pa) 0 (Z.pos pb) 0)
      as [[q e] l].
    destruct Hcore as (He & -> & Hexact).
    assert (Hp : 0 < 2 ^ (- e)) by (apply Z.pow_pos_nonneg; lia).
    destruct (binary_round_aux_between (Z.pos pa * 2 ^ (- e)) (Z.pos pb) e l
                lo hi ltac:(lia) ltac:(lia) He Hlo Hhi ltac:(nia) Hexact)
      as (Hfin & HL & HU).
    destruct (binary_round_aux 53 1024 false _ e l) as [s|s| |s m e'];
      try contradiction; (eexists; split; [reflexivity|split; assumption]).
Qed.

(** A negative numerator gives the opposite of the float of its opposite. *)
Lemma binary_round_aux_true m e l :
  binary_round_aux 53 1024 true m e l
  = SFopp (binary_round_aux 53 1024 false m e l).
Proof.
  unfold binary_round_aux.
  destruct (shr_fexp 53 1024 m e l) as [mrs1 e1].
  destruct (shr_fexp 53 1024 _ e1 loc_Exact) as [mrs2 e2].
  destruct (shr_m mrs2); [reflexivity| |reflexivity].
  now destruct (e2 <=? 1024 - 53).
Qed.

Lemma true_divide_neg pa b :
  0 < b ->
  true_divide (Z.neg pa) b
  = match true_divide (Z.pos pa) b with
    | inl e => inl e
    | inr q => inr (SFopp q)
    end.
Proof.
  intros Hb. unfold true_divide.
  destruct (Z.eqb_spec b 0) as [->|_]; [lia|].
  destruct b as [|pb|pb]; [lia| |lia]. cbn [int_operand SFdiv xorb].
  destruct (SFdiv_core_binary 53 1024 (Z.pos pa) 0 (Z.pos pb) 0) as [[q e] l].
  rewrite binary_round_aux_true.
  now destruct (binary_round_aux 53 1024 false q e l).
Qed.

Lemma float_value_opp q : (float_value (SFopp q) == - float_value q)%Q.
Proof.
  destruct q as [s|s| |s m e]; cbn [SFopp float_value]; try reflexivity.
  destruct s, e as [|k|k]; cbn [negb]; unfold Qeq; cbn [Qnum Qden Qopp inject_Z];
    lia.
Qed.

(** The true division of [a] by [b], when the quotient lies between the
    integers [lo] and [hi] and these are below [2 ^ 53] in absolute value,
    returns a float between [lo] and [hi]. *)
Lemma true_divide_bounds a b lo hi :
  0 < b -> - 2 ^ 53 < lo -> hi < 2 ^ 53 -> lo * b <= a <= hi * b ->
  exists q, true_divide a b = inr q /\
    (inject_Z lo <= float_value q)%Q /\ (float_value q <= inject_Z hi)%Q.
Proof.
  intros Hb Hlo Hhi Hab. destruct a as [|pa|pa].
  - destruct (true_divide_between 0 b (Z.max lo 0) hi Hb ltac:(lia) Hhi
                ltac:(nia)) as (q & Hq & HL & HU).
    exists q. split; [exact Hq|]. split; [|exact HU].
    apply Qle_trans with (inject_Z (Z.max lo 0)); [|exact HL].
    rewrite <- Zle_Qle. lia.
  - destruct (true_divide_between (Z.pos pa) b (Z.max lo 0) hi Hb ltac:(lia) Hhi
                ltac:(nia)) as (q & Hq & HL & HU).
    exists q. split; [exact Hq|]. split; [|exact HU].
    apply Qle_trans with (inject_Z (Z.max lo 0)); [|exact HL].
    rewrite <- Zle_Qle. lia.
  - destruct (true_divide_between (Z.pos pa) b (Z.max (- hi) 0) (- lo) Hb
                ltac:(lia) ltac:(lia) ltac:(nia)) as (q & Hq & HL & HU).
    exists (SFopp q). rewrite (true_divide_neg pa b Hb), Hq.
    split; [reflexivity|]. rewrite float_value_opp. split.
    + apply Qopp_le_compat in HU. rewrite <- inject_Z_opp in HU.
      now rewrite Z.opp_involutive in HU.
    + apply Qopp_le_compat in HL.
      apply Qle_trans with (- inject_Z (Z.max (- hi) 0))%Q; [exact HL|].
      rewrite <- inject_Z_opp, <- Zle_Qle. lia.
Qed.

End FloatProofs.

(** ** Running the pipeline *)

Section Pipeline.

Variable rt : runtime.
Variable path : str.

Lemma validate_file_exists_found b log :
  files rt path = Some b ->
  validate_file_exists path rt log = (inr tt, log ++ [EvExists path]).
Proof.
  intros H. unfold validate_file_exists, bind, path_exists. rewrite H.
  reflexivity.
Qed.

Lemma validate_file_exists_missing log :
  files rt path = None ->
  validate_file_exists path rt log =
  (inl (FileNotFoundError (lit "File not found: " ++ path)),
   log ++ [EvExists path]).
Proof.
  intros H. unfold validate_file_exists, bind, path_exists. rewrite H.
  reflexivity.
Qed.

Variable b : bytes.
Hypothesis Hfile : files rt path = Some b.

Lemma open_read_undecodable enc log :
  undecodable rt b enc ->
  open_read path enc rt log = (inl UnicodeDecodeError, log ++ [EvOpen path enc]).
Proof.
  intros (decode & Hl & Hd). unfold open_read. now rewrite Hfile, Hl, Hd.
Qed.

Lemma open_read_decodes enc text log :
  decodes rt b enc text ->
  open_read path enc rt log = (inr text, log ++ [EvOpen path enc]).
Proof.
  intros (decode & Hl & Hd). unfold open_read. now rewrite Hfile, Hl, Hd.
Qed.

(** Candidates that raise [UnicodeDecodeError] are passed over, in order. *)
Lemma read_csv_rows_loop_skip encodings pre remaining : forall log,
  Forall (undecodable rt b) pre ->
  read_csv_rows_loop path encodings (pre ++ remaining) rt log =
  read_csv_rows_loop path encodings remaining rt (log ++ map (EvOpen path) pre).
Proof.
  induction pre as [|enc pre IH]; intros log Hpre.
  - cbn. now rewrite app_nil_r.
  - inversion Hpre as [|? ? Henc Hpre']; subst.
    cbn [app read_csv_rows_loop]. unfold except_UnicodeDecodeError, bind at 1.
    rewrite (open_read_undecodable _ _ Henc), (IH _ Hpre').
    cbn [map]. now rewrite <- app_assoc.
Qed.

(** The first candidate that decodes the file ends the loop. *)
Lemma read_csv_rows_loop_hit encodings enc remaining text rows log :
  decodes rt b enc text -> DictReader text = inr rows ->
  read_csv_rows_loop path encodings (enc :: remaining) rt log =
  (inr (rows, enc), log ++ [EvOpen path enc]).
Proof.
  intros Hdec Hrows. cbn [read_csv_rows_loop].
  unfold except_UnicodeDecodeError, bind, lift, ret.
  now rewrite (open_read_decodes _ _ _ Hdec), Hrows.
Qed.

Lemma read_csv_rows_adopts encodings pre enc post text log :
  encodings = pre ++ enc :: post ->
  Forall (undecodable rt b) pre ->
  decodes rt b enc text ->
  exists rows,
    DictReader text = inr rows /\
    read_csv_rows path encodings rt log =
    (inr (rows, enc), log ++ map (EvOpen path) (pre ++ [enc])).
Proof.
  intros Henc Hpre Hdec. destruct (DictReader_total text) as [rows Hrows].
  exists rows. split; [exact Hrows|].
  unfold read_csv_rows. rewrite Henc at 2.
  rewrite (read_csv_rows_loop_skip _ _ _ _ Hpre).
  rewrite (read_csv_rows_loop_hit _ _ _ _ _ _ Hdec Hrows).
  now rewrite map_app, app_assoc.
Qed.

Lemma read_csv_rows_exhausted encodings log :
  Forall (undecodable rt b) encodings ->
  read_csv_rows path encodings rt log =
  (inl (ValueError (lit "Could not decode file using encodings: "
                    ++ str_of_tuple encodings)),
   log ++ map (EvOpen path) encodings).
Proof.
  intros Hall. unfold read_csv_rows.
  rewrite <- (app_nil_r encodings) at 2.
  now rewrite (read_csv_rows_loop_skip _ _ _ _ Hall).
Qed.

Lemma validate_csv_after_read expected_columns age_column :
  run rt (validate_csv path expected_columns age_column) =
  after_read expected_columns age_column
    (read_csv_rows path DEFAULT_ENCODINGS rt [EvExists path]).
Proof.
  unfold run, validate_csv, bind at 1.
  rewrite (validate_file_exists_found _ _ Hfile). cbn [app].
  unfold bind at 1.
  destruct (read_csv_rows path DEFAULT_ENCODINGS rt [EvExists path])
    as [[e|[rows enc]] log]; [reflexivity|].
  unfold after_read, bind at 1, lift. cbn [fst snd].
  destruct (validate_columns rows expected_columns) as [e|[]]; [reflexivity|].
  destruct (negb _); [reflexivity|].
  unfold bind, lift, ret.
  destruct (compute_summary rows age_column); reflexivity.
Qed.

End Pipeline.

Lemma validate_csv_missing rt path expected_columns age_column :
  files rt path = None ->
  run rt (validate_csv path expected_columns age_column) =
  (inl (FileNotFoundError (lit "File not found: " ++ path)), [EvExists path]).
Proof.
  intros H. unfold run, validate_csv, bind at 1.
  now rewrite (validate_file_exists_missing _ _ _ H).
Qed.

Lemma validate_csv_returns rt path expected_columns age_column result log :
  run rt (validate_csv path expected_columns age_column) = (inr result, log) ->
  exists b rows,
    files rt path = Some b /\
    read_csv_rows path DEFAULT_ENCODINGS rt [EvExists path]
      = (inr (rows, encoding_used result), log) /\
    validate_columns rows expected_columns = inr tt /\
    errors result = validate_rows rows age_column /\
    ((validate_rows rows age_column <> [] /\ avg_age result = None /\
      total_rows result = length rows)
     \/ (validate_rows rows age_column = [] /\
         exists avg, compute_summary rows age_column
                       = inr (total_rows result, avg) /\
                     avg_age result = Some avg)).
Proof.
  intros H. destruct (files rt path) as [b|] eqn:Hfile.
  - rewrite (validate_csv_after_read _ _ _ Hfile) in H.
    destruct (read_csv_rows path DEFAULT_ENCODINGS rt [EvExists path])
      as [[e|[rows enc]] log0]; [discriminate|].
    cbn [after_read] in H.
    destruct (validate_columns rows expected_columns) as [e|[]] eqn:Hcols;
      [discriminate|].
    destruct (bool_decide (validate_rows rows age_column = [])) eqn:Herr;
      cbn [negb] in H.
    + apply bool_decide_eq_true in Herr.
      destruct (compute_summary rows age_column) as [e|[total avg]] eqn:Hsum;
        [discriminate|].
      injection H as <- <-. cbn. exists b, rows.
      split; [reflexivity|]. split; [reflexivity|]. split; [exact Hcols|].
      split; [now rewrite Herr|].
      right. split; [exact Herr|]. now exists avg.
    + apply bool_decide_eq_false in Herr.
      injection H as <- <-. cbn. exists b, rows.
      split; [reflexivity|]. split; [reflexivity|]. split; [exact Hcols|].
      split; [reflexivity|]. now left.
  - rewrite (validate_csv_missing _ _ _ _ Hfile) in H. discriminate.
Qed.

Lemma parse_ages_error age_column rows e :
  parse_ages age_column rows = inl e -> exists msg, e = ValueError msg.
Proof.
  revert e. induction rows as [|r rows IH]; intros e H; [discriminate|].
  cbn [parse_ages] in H. unfold parse_age in H.
  destruct (py_int _); [|injection H as <-; eauto].
  destruct (parse_ages age_column rows) as [e'|zs]; [|discriminate].
  injection H as <-. now apply IH.
Qed.

(** The failures of the true division. *)
Lemma true_divide_error a b e :
  true_divide a b = inl e ->
  (b = 0%Z /\ e = ZeroDivisionError (lit "division by zero")) \/
  (b <> 0%Z /\
   e = OverflowError (lit "integer division result too large for a float")).
Proof.
  unfold true_divide. destruct (Z.eqb_spec b 0) as [->|Hb].
  - intros [= <-]. now left.
  - intros H. right. split; [exact Hb|].
    destruct (SpecFloat.SFdiv 53 1024 (int_operand a) (int_operand b));
      congruence.
Qed.

Lemma compute_summary_nonempty row rows age_column msg :
  compute_summary (row :: rows) age_column <> inl (ZeroDivisionError msg).
Proof.
  unfold compute_summary.
  destruct (parse_ages age_column (row :: rows)) as [e|ages] eqn:Hages.
  - destruct (parse_ages_error _ _ _ Hages) as [m ->]. discriminate.
  - destruct (true_divide _ _) as [e|avg] eqn:Hdiv; [|discriminate].
    apply true_divide_error in Hdiv as [[Hb _]|[_ ->]]; [|discriminate].
    cbn [length] in Hb. lia.
Qed.

(** ** The pipeline on the sample files *)

Example validate_csv_people :
  run sample_runtime (validate_csv (lit "people.csv") default_columns (lit "edad"))
  = (inr people_result,
     [EvExists (lit "people.csv"); EvOpen (lit "people.csv") (lit "utf-8")]).
Proof. vm_compute. reflexivity. Qed.

Example validate_csv_no_ciudad :
  (run sample_runtime
     (validate_csv (lit "no_ciudad.csv") default_columns (lit "edad"))).1
  = inl (ValueError (lit "Missing columns: ['ciudad']")).
Proof. vm_compute. reflexivity. Qed.

Example validate_csv_latin :
  run sample_runtime (validate_csv (lit "latin.csv") default_columns (lit "edad"))
  = (inr {| total_rows := 1;
            avg_age := Some (SpecFloat.S754_finite false 8444249301319680 (-48));
            errors := []; encoding_used := lit "cp1252" |},
     EvExists (lit "latin.csv")
     :: map (EvOpen (lit "latin.csv")) DEFAULT_ENCODINGS).
Proof. vm_compute. reflexivity. Qed.

Example validate_csv_mixed :
  (run sample_runtime
     (validate_csv (lit "mixed.csv") {[ lit "id"; lit "edad" ]} (lit "edad"))).1
  = inr {| total_rows := 5; avg_age := None;
           errors := [lit "Row 2: Too many columns (extra data: ['9'])";
                      lit "Row 3: Missing columns";
                      lit "Row 4: invalid edad -> 'x'"];
           encoding_used := lit "utf-8" |}.
Proof. vm_compute. reflexivity. Qed.

(** An age that no float represents: the average is the nearest float,
    here below the age. *)
Example validate_csv_odd_age :
  (run sample_runtime
     (validate_csv (lit "odd_age.csv") {[ lit "id"; lit "edad" ]} (lit "edad"))).1
  = inr {| total_rows := 1;
           avg_age := Some (SpecFloat.S754_finite false 4503599627370496 1);
           errors := []; encoding_used := lit "utf-8" |} /\
  (float_value (SpecFloat.S754_finite false 4503599627370496 1)
   < inject_Z 9007199254740993)%Q.
Proof. split; [vm_compute; reflexivity|reflexivity]. Qed.

(** An age beyond the floats: the rows pass [validate_rows] and the
    division raises [OverflowError]. *)
Example validate_csv_huge_age :
  run sample_runtime
    (validate_csv (lit "huge_age.csv") {[ lit "id"; lit "edad" ]} (lit "edad"))
  = (inl (OverflowError (lit "integer division result too large for a float")),
     [EvExists (lit "huge_age.csv"); EvOpen (lit "huge_age.csv") (lit "utf-8")]).
Proof. vm_compute. reflexivity. Qed.

(** An age of 4301 digits: the row is reported and no average is computed. *)
Example validate_csv_long_age :
  (run sample_runtime
     (validate_csv (lit "long_age.csv") {[ lit "id"; lit "edad" ]} (lit "edad"))).1
  = inr {| total_rows := 1; avg_age := None;
           errors := [lit "Row 1: invalid edad -> '" ++ repeat 0x31%N 4301
                      ++ lit "'"];
           encoding_used := lit "utf-8" |}.
Proof. vm_compute. reflexivity. Qed.

(** C1.  Whenever [validate_csv] returns a result, its [avg_age] is set if
    and only if its [errors] list is empty; the errors are those
    [validate_rows] found on the rows read, and when there are any,
    [avg_age] is [None]. *)
Theorem avg_age_iff_no_errors rt path expected_columns age_column result log :
  run rt (validate_csv path expected_columns age_column) = (inr result, log) ->
  (avg_age result <> None <-> errors result = []) /\
  (exists rows,
     (read_csv_rows path DEFAULT_ENCODINGS rt [EvExists path]).1
       = inr (rows, encoding_used result) /\
     errors result = validate_rows rows age_column) /\
  (errors result <> [] -> avg_age result = None).
Proof.
  intros H.
  destruct (validate_csv_returns _ _ _ _ _ _ H)
    as (b & rows & _ & Hread & _ & Herr & Hcase).
  split; [|split].
  - destruct Hcase as [(Hne & Havg & _)|(Hnil & avg & _ & Havg)];
      rewrite Havg, Herr.
    + split; [congruence|]. intros Hnil. contradiction.
    + split; [intros _; exact Hnil|discriminate].
  - exists rows. now rewrite Hread.
  - destruct Hcase as [(_ & Havg & _)|(Hnil & _)]; [now intros _|].
    rewrite Herr, Hnil. congruence.
Qed.

Lemma avg_age_iff_no_errors_witness :
  run sample_runtime (validate_csv (lit "bad_age.csv") default_columns (lit "edad"))
    = (inr bad_age_result,
       [EvExists (lit "bad_age.csv"); EvOpen (lit "bad_age.csv") (lit "utf-8")]) /\
  ((avg_age bad_age_result <> None <-> errors bad_age_result = []) /\
   (exists rows,
      (read_csv_rows (lit "bad_age.csv") DEFAULT_ENCODINGS sample_runtime
         [EvExists (lit "bad_age.csv")]).1
        = inr (rows, encoding_used bad_age_result) /\
      errors bad_age_result = validate_rows rows (lit "edad")) /\
   (errors bad_age_result <> [] -> avg_age bad_age_result = None)).
Proof.
  assert (H : run sample_runtime
                (validate_csv (lit "bad_age.csv") default_columns (lit "edad"))
              = (inr bad_age_result,
                 [EvExists (lit "bad_age.csv");
                  EvOpen (lit "bad_age.csv") (lit "utf-8")]))
    by (vm_compute; reflexivity).
  split; [exact H|].
  exact (avg_age_iff_no_errors _ _ _ _ _ _ H).
Defined.

(** C2.  On the rows [DictReader] builds from field names and records
    (every list of rows it returns is of that form, [DictReader_rows]),
    [validate_rows] goes through the rows in order, numbering them from 1,
    and reports for each row the first issue that applies: more fields than
    header columns gives [Row i: Too many columns (extra data: ...)] with
    the list of surplus fields; otherwise fewer fields than header columns
    gives [Row i: Missing columns]; otherwise the age check runs.  A row
    yields one message at most, and a row without issue none. *)
Theorem validate_rows_first_match fieldnames records age_column :
  validate_rows (map (DictReader_row fieldnames) records) age_column
    = row_errors fieldnames age_column records /\
  length (validate_rows (map (DictReader_row fieldnames) records) age_column)
    <= length records.
Proof.
  assert (H : validate_rows (map (DictReader_row fieldnames) records) age_column
              = row_errors fieldnames age_column records).
  { unfold validate_rows, row_errors. now rewrite validate_rows_loop_issues. }
  split; [exact H|]. rewrite H. apply row_errors_from_length.
Qed.

Example validate_rows_mixed :
  validate_rows
    (map (DictReader_row [lit "id"; lit "edad"])
       [[lit "1"; lit " 7 "]; [lit "2"; lit "8"; lit "9"]; [lit "3"];
        [lit "4"; lit " x "]])
    (lit "edad")
  = [lit "Row 2: Too many columns (extra data: ['9'])";
     lit "Row 3: Missing columns";
     lit "Row 4: invalid edad -> 'x'"].
Proof. vm_compute. reflexivity. Qed.



(** C4.  Where no file exists at the path, [validate_csv] fails with the
    [FileNotFoundError] that names the path; the only file-system event of
    the run is the existence test, so the file is never opened, with any
    encoding, and the failure is not the [ValueError] of a decoding
    failure. *)
Theorem missing_file_fails_first rt path expected_columns age_column :
  files rt path = None ->
  let outcome := run rt (validate_csv path expected_columns age_column) in
  outcome.1 = inl (FileNotFoundError (lit "File not found: " ++ path)) /\
  outcome.2 = [EvExists path] /\
  (forall p enc, EvOpen p enc ∉ outcome.2) /\
  (forall msg, outcome.1 <> inl (ValueError msg)).
Proof.
  intros Hfile. cbv zeta.
  rewrite (validate_csv_missing _ _ _ _ Hfile). cbn [fst snd].
  split; [reflexivity|]. split; [reflexivity|]. split.
  - intros p enc Hin. apply elem_of_cons in Hin as [Hin|Hin];
      [discriminate|inversion Hin].
  - intros msg. discriminate.
Qed.

Lemma missing_file_fails_first_witness :
  files sample_runtime (lit "nope.csv") = None /\
  run sample_runtime (validate_csv (lit "nope.csv") default_columns (lit "edad"))
    = (inl (FileNotFoundError (lit "File not found: nope.csv")),
       [EvExists (lit "nope.csv")]).
Proof.
  split; [reflexivity|].
  destruct (missing_file_fails_first sample_runtime (lit "nope.csv")
              default_columns (lit "edad") eq_refl) as (H1 & H2 & _).
  destruct (run sample_runtime
              (validate_csv (lit "nope.csv") default_columns (lit "edad")))
    as [r log].
  cbn [fst snd] in H1, H2. now rewrite H1, H2.
Defined.

(** C5.  On a non-empty list of records the schema check succeeds exactly
    when the column names of the first record include every required
    column; otherwise it fails with the [ValueError] whose message carries
    the required columns absent from the header, in ascending order and
    each one once. *)
Theorem validate_columns_schema first rest expected_columns :
  match validate_columns (first :: rest) expected_columns with
  | inr _ => expected_columns ⊆ dom (named first)
  | inl e =>
      ~ expected_columns ⊆ dom (named first) /\
      exists missing,
        e = ValueError (lit "Missing columns: " ++ str_of_list missing) /\
        StronglySorted str_le missing /\ NoDup missing /\
        forall c, c ∈ missing <-> c ∈ expected_columns /\ c ∉ dom (named first)
  end.
Proof.
  unfold validate_columns.
  set (missing := filter (fun c => Some c ∉ row_keys first) expected_columns).
  destruct (bool_decide (missing = ∅)) eqn:Hm; cbn [negb].
  - apply bool_decide_eq_true in Hm. intros c Hc.
    destruct (decide (c ∈ dom (named first))) as [Hin|Hout]; [exact Hin|].
    assert (Hc' : c ∈ missing) by (apply elem_of_missing; now split).
    rewrite Hm in Hc'. now apply not_elem_of_empty in Hc'.
  - apply bool_decide_eq_false in Hm. split.
    + intros Hsub. apply Hm. apply set_eq. intros c. split.
      * intros Hc. apply elem_of_missing in Hc as [Hc Hout].
        now apply Hsub in Hc.
      * intros Hc. now apply not_elem_of_empty in Hc.
    + exists (sorted (elements missing)).
      destruct (sorted_spec missing) as (Hs & Hn & He).
      split; [reflexivity|]. split; [exact Hs|]. split; [exact Hn|].
      intros c. rewrite He. apply elem_of_missing.
Qed.

Example validate_columns_no_ciudad :
  validate_columns
    [DictReader_row [lit "id"; lit "nombre"; lit "edad"]
       [lit "1"; lit "Ana"; lit "23"]]
    default_columns
  = inl (ValueError (lit "Missing columns: ['ciudad']")).
Proof. vm_compute. reflexivity. Qed.

Lemma validate_csv_no_records rt path b expected_columns age_column enc log :
  files rt path = Some b ->
  read_csv_rows path DEFAULT_ENCODINGS rt [EvExists path] = (inr ([], enc), log) ->
  run rt (validate_csv path expected_columns age_column)
    = (inl (ValueError (lit "CSV has no rows")), log).
Proof.
  intros Hfile Hread.
  now rewrite (validate_csv_after_read _ _ _ Hfile), Hread.
Qed.

(** C6.  With no record the schema check fails with the [ValueError]
    [CSV has no rows] whatever the required columns, so before any
    comparison of columns; the pipeline fails that way whenever the reader
    returns no record, as it does on an empty file. *)
Theorem zero_records_rejected :
  (forall expected_columns,
     validate_columns [] expected_columns
       = inl (ValueError (lit "CSV has no rows"))) /\
  (forall rt path b expected_columns age_column enc log,
     files rt path = Some b ->
     read_csv_rows path DEFAULT_ENCODINGS rt [EvExists path]
       = (inr ([], enc), log) ->
     run rt (validate_csv path expected_columns age_column)
       = (inl (ValueError (lit "CSV has no rows")), log)) /\
  (forall rt path expected_columns age_column,
     files rt path = Some [] ->
     run rt (validate_csv path expected_columns age_column)
       = (inl (ValueError (lit "CSV has no rows")),
          [EvExists path; EvOpen path (lit "utf-8")])).
Proof.
  split; [reflexivity|]. split; [exact validate_csv_no_records|].
  intros rt path expected_columns age_column Hfile.
  apply (validate_csv_no_records rt path [] _ _ (lit "utf-8") _ Hfile).
  destruct (read_csv_rows_adopts rt path [] Hfile DEFAULT_ENCODINGS
              [] (lit "utf-8") [lit "utf-8-sig"; lit "cp1252"] []
              [EvExists path] eq_refl ltac:(constructor)
              ltac:(exists utf_8_decode; split; reflexivity))
    as (rows & Hrows & ->).
  cbn in Hrows. injection Hrows as <-. reflexivity.
Qed.

Lemma zero_records_rejected_witness :
  files sample_runtime (lit "empty.csv") = Some [] /\
  run sample_runtime (validate_csv (lit "empty.csv") default_columns (lit "edad"))
    = (inl (ValueError (lit "CSV has no rows")),
       [EvExists (lit "empty.csv"); EvOpen (lit "empty.csv") (lit "utf-8")]).
Proof.
  split; [reflexivity|].
  exact (proj2 (proj2 zero_records_rejected) sample_runtime (lit "empty.csv")
           default_columns (lit "edad") eq_refl).
Defined.

(** ** The age check *)

(** The body of the loop on a row as long as the header. *)
Lemma validate_rows_body_exact i fieldnames row age_column errors :
  length row = length fieldnames ->
  validate_rows_body i (DictReader_row fieldnames row) age_column errors =
  errors ++
  match age_issue (DictReader_row fieldnames row) age_column with
  | Some issue => [issue_message i age_column issue]
  | None => []
  end.
Proof.
  intros Hlen. rewrite validate_rows_body_issue. unfold row_issue.
  assert (H1 : (length fieldnames <? length row) = false)
    by (apply Nat.ltb_ge; lia).
  assert (H2 : (length row <? length fieldnames) = false)
    by (apply Nat.ltb_ge; lia).
  now rewrite H1, H2.
Qed.

Lemma mentions_b_complete needle hay :
  mentions needle hay -> mentions_b needle hay = true.
Proof.
  intros (pre & post & ->). induction pre as [|c pre IH].
  - assert (H : starts_with needle (needle ++ post) = true).
    { induction needle as [|a needle IHn]; [reflexivity|].
      cbn. now rewrite N.eqb_refl, IHn. }
    destruct (needle ++ post) eqn:Heq; cbn [app mentions_b]; rewrite ?Heq, H;
      reflexivity.
  - cbn [app mentions_b]. rewrite IH. apply orb_true_r.
Qed.

(** As stated, C7 fails: an age written in Arabic-Indic digits is accepted,
    although it is no string of ASCII digits. *)
Lemma age_check_accepts_other_scripts :
  validate_rows [arabic_indic_row] (lit "edad") = [] /\
  ~ integer_string ascii_digit
      (strip (or_empty (row_get arabic_indic_row (lit "edad")))).
Proof.
  split; [vm_compute; reflexivity|].
  replace (strip (or_empty (row_get arabic_indic_row (lit "edad"))))
    with [0x664%N; 0x662%N] by (vm_compute; reflexivity).
  intros H.
  inversion H as [s Hs|s Hs|s Hs]; subst;
    inversion Hs as [d t Hd Ht]; subst; discriminate Hd.
Qed.

(** An age of 4301 digits is reported, one of 4300 digits is not. *)
Example age_beyond_digit_limit :
  validate_rows
    [DictReader_row [lit "id"; lit "edad"] [lit "1"; repeat 0x31%N 4301]]
    (lit "edad")
  = [lit "Row 1: invalid edad -> '" ++ repeat 0x31%N 4301 ++ lit "'"] /\
  validate_rows
    [DictReader_row [lit "id"; lit "edad"] [lit "1"; repeat 0x31%N 4300]]
    (lit "edad")
  = [].
Proof. split; vm_compute; reflexivity. Qed.

(** C7, amended.  A row with as many fields as the header passes the age
    check (no error is recorded) if and only if the value of the age column,
    an absent or empty value counting as the empty string, is after
    trimming an optional sign followed by decimal digits, 4300 of them at
    most, where single underscores may separate digits and a digit may be a
    decimal digit of any script (general category Nd), not only of ASCII. *)
Theorem age_check_accepts_integer_strings i fieldnames row age_column errors :
  length row = length fieldnames ->
  let value :=
    strip (or_empty (row_get (DictReader_row fieldnames row) age_column)) in
  validate_rows_body i (DictReader_row fieldnames row) age_column errors
    = errors
  <-> integer_string is_decimal value /\ (count_decimal value <= 4300)%N.
Proof.
  intros Hlen value. rewrite (validate_rows_body_exact _ _ _ _ _ Hlen).
  unfold age_issue. fold value.
  assert (Ht : trimmed value) by apply strip_trimmed.
  change (integer_string is_decimal value /\ (count_decimal value <= 4300)%N)
    with (int_literal value).
  rewrite <- (py_int_accepts value Ht). clearbody value.
  destruct (py_int _) as [z|]; cbn.
  - rewrite app_nil_r. split; [eauto|reflexivity].
  - split.
    + intros H. rewrite <- (app_nil_r errors) in H at 2.
      apply app_inv_head in H. discriminate.
    + intros [z Hz]. discriminate.
Qed.

Lemma age_check_accepts_integer_strings_witness :
  length [lit "5"; [0x664%N; 0x662%N]] = length [lit "id"; lit "edad"] /\
  (validate_rows_body 1 arabic_indic_row (lit "edad") [] = []
   <-> integer_string is_decimal
         (strip (or_empty (row_get arabic_indic_row (lit "edad")))) /\
       (count_decimal (strip (or_empty (row_get arabic_indic_row (lit "edad"))))
        <= 4300)%N).
Proof.
  split; [reflexivity|].
  exact (age_check_accepts_integer_strings 1 [lit "id"; lit "edad"]
           [lit "5"; [0x664%N; 0x662%N]] (lit "edad") [] eq_refl).
Defined.

(** As stated, C8 fails: the message of a padded age shows the trimmed
    value; neither the value of the field nor its [repr] occurs in it. *)
Lemma padded_age_message_not_raw :
  let raw := or_empty (row_get padded_row (lit "edad")) in
  raw = lit " x " /\
  validate_rows [padded_row] (lit "edad") = [lit "Row 1: invalid edad -> 'x'"] /\
  ~ mentions (repr raw) (lit "Row 1: invalid edad -> 'x'") /\
  ~ mentions raw (lit "Row 1: invalid edad -> 'x'").
Proof.
  cbv zeta. split; [vm_compute; reflexivity|]. split; [vm_compute; reflexivity|].
  split; intros H; apply mentions_b_complete in H; vm_compute in H; discriminate.
Qed.

(** C8, amended.  For a row with as many fields as the header whose age
    value fails the integer parse, the recorded message is
    [Row i: invalid {age_column} -> {value!r}] where [value] is the value
    of the age column after trimming (an absent value counting as empty),
    shown by [repr]. *)
Theorem invalid_age_message i fieldnames row age_column errors :
  length row = length fieldnames ->
  py_int (strip (or_empty (row_get (DictReader_row fieldnames row) age_column)))
    = None ->
  let value :=
    strip (or_empty (row_get (DictReader_row fieldnames row) age_column)) in
  let message :=
    lit "Row " ++ str_of_nat i ++ lit ": invalid " ++ age_column ++ lit " -> "
    ++ repr value in
  validate_rows_body i (DictReader_row fieldnames row) age_column errors
    = errors ++ [message] /\
  mentions (repr value) message.
Proof.
  intros Hlen Hint. cbv zeta. split.
  - rewrite (validate_rows_body_exact _ _ _ _ _ Hlen). unfold age_issue.
    now rewrite Hint.
  - exists (lit "Row " ++ str_of_nat i ++ lit ": invalid " ++ age_column
            ++ lit " -> "), [].
    now rewrite app_nil_r, <- !app_assoc.
Qed.

Lemma invalid_age_message_witness :
  length [lit "4"; lit " x "] = length [lit "id"; lit "edad"] /\
  py_int (strip (or_empty (row_get padded_row (lit "edad")))) = None /\
  validate_rows_body 1 padded_row (lit "edad") []
    = [lit "Row 1: invalid edad -> 'x'"].
Proof.
  assert (Hint : py_int (strip (or_empty (row_get padded_row (lit "edad")))) = None)
    by (vm_compute; reflexivity).
  split; [reflexivity|]. split; [exact Hint|].
  pose proof (invalid_age_message 1 [lit "id"; lit "edad"] [lit "4"; lit " x "]
                (lit "edad") [] eq_refl Hint) as [H _].
  unfold padded_row. rewrite H. vm_compute. reflexivity.
Defined.

(** ** Division by zero *)

(** C9.  Called with no row, [compute_summary] raises [ZeroDivisionError]
    and returns nothing.  A row list that passes the schema check is not
    empty, [compute_summary] never raises [ZeroDivisionError] on a
    non-empty list, and so [validate_csv] never does. *)
Theorem no_division_by_zero :
  (forall age_column,
     compute_summary [] age_column
       = inl (ZeroDivisionError (lit "division by zero"))) /\
  (forall rows expected_columns,
     validate_columns rows expected_columns = inr tt -> rows <> []) /\
  (forall rows age_column msg,
     rows <> [] ->
     compute_summary rows age_column <> inl (ZeroDivisionError msg)) /\
  (forall rt path expected_columns age_column msg log,
     run rt (validate_csv path expected_columns age_column)
       <> (inl (ZeroDivisionError msg), log)).
Proof.
  split; [reflexivity|]. split; [|split].
  - intros [|row rows] expected_columns H; [discriminate|discriminate].
  - intros [|row rows] age_column msg Hne; [congruence|].
    apply compute_summary_nonempty.
  - intros rt path expected_columns age_column msg log H.
    destruct (files rt path) as [b|] eqn:Hfile.
    + rewrite (validate_csv_after_read _ _ _ Hfile) in H.
      destruct (read_csv_rows path DEFAULT_ENCODINGS rt [EvExists path])
        as [[e|[rows enc]] log0] eqn:Hread.
      * cbn in H. injection H as -> ->.
        unfold DEFAULT_ENCODINGS, read_csv_rows in Hread.
        assert (Hloop : forall remaining all l0 m l1,
                  read_csv_rows_loop path all remaining rt l0
                    <> (inl (ZeroDivisionError m), l1)).
        { clear. induction remaining as [|enc remaining IH]; intros all l0 m l1.
          - cbn. discriminate.
          - cbn [read_csv_rows_loop].
            unfold except_UnicodeDecodeError, bind, lift, ret, open_read.
            destruct (files rt path); [|discriminate].
            destruct (codecs_lookup rt enc) as [decode|]; [|discriminate].
            destruct (decode b) as [text|]; [|apply IH].
            destruct (DictReader_total text) as [rows ->]. discriminate. }
        now apply Hloop in Hread.
      * cbn [after_read] in H.
        destruct rows as [|row rows]; [discriminate|].
        destruct (validate_columns (row :: rows) expected_columns)
          as [e|[]] eqn:Hcols; [|destruct (negb _)].
        -- unfold validate_columns in Hcols.
           destruct (negb _) in Hcols; [|discriminate].
           injection Hcols as <-. discriminate.
        -- discriminate.
        -- pose proof (compute_summary_nonempty row rows age_column msg) as Hc.
           destruct (compute_summary (row :: rows) age_column); [|discriminate].
           injection H as -> _. contradiction.
    + rewrite (validate_csv_missing _ _ _ _ Hfile) in H. discriminate.
Qed.

Lemma no_division_by_zero_witness :
  validate_columns
    [DictReader_row [lit "id"; lit "edad"] [lit "1"; lit "7"]] {[ lit "edad" ]}
    = inr tt /\
  [DictReader_row [lit "id"; lit "edad"] [lit "1"; lit "7"]] <> [].
Proof.
  assert (H : validate_columns
                [DictReader_row [lit "id"; lit "edad"] [lit "1"; lit "7"]]
                {[ lit "edad" ]} = inr tt) by (vm_compute; reflexivity).
  split; [exact H|].
  exact (proj1 (proj2 no_division_by_zero) _ _ H).
Defined.

(** ** A file that holds a header only *)



(** * Further properties *)

(** ** [read_csv_rows] *)

Lemma read_csv_rows_loop_returns rt path b encodings remaining :
  files rt path = Some b ->
  forall log rows enc log',
  read_csv_rows_loop path encodings remaining rt log = (inr (rows, enc), log') ->
  exists pre post text,
    remaining = pre ++ enc :: post /\
    Forall (undecodable rt b) pre /\
    decodes rt b enc text /\
    DictReader text = inr rows /\
    log' = log ++ map (EvOpen path) (pre ++ [enc]).
Proof.
  intros Hfile. induction remaining as [|e remaining IH];
    intros log rows enc log' H.
  - discriminate.
  - cbn [read_csv_rows_loop] in H.
    unfold except_UnicodeDecodeError, bind, lift, ret, open_read in H.
    rewrite Hfile in H.
    destruct (codecs_lookup rt e) as [decode|] eqn:Hlook; [|discriminate].
    destruct (decode b) as [text|] eqn:Hdec.
    + destruct (DictReader_total text) as [rows' Hrows]. rewrite Hrows in H.
      injection H as <- <- <-.
      exists [], remaining, text. repeat split; try reflexivity.
      * constructor.
      * now exists decode.
      * exact Hrows.
    + apply IH in H as (pre & post & text & -> & Hpre & Hd & Hrows & ->).
      exists (e :: pre), post, text. repeat split; try assumption.
      * constructor; [now exists decode|exact Hpre].
      * cbn [app map]. now rewrite <- app_assoc.
Qed.

(** X1.  Whatever [read_csv_rows] returns for a file is the parse of the
    file decoded with the returned encoding; that encoding is a candidate
    of the list, every candidate before it raised [UnicodeDecodeError], and
    no candidate after it was opened. *)
Theorem read_csv_rows_returns_first rt path b encodings rows enc log :
  files rt path = Some b ->
  run rt (read_csv_rows path encodings) = (inr (rows, enc), log) ->
  exists pre post text,
    encodings = pre ++ enc :: post /\
    Forall (undecodable rt b) pre /\
    decodes rt b enc text /\
    DictReader text = inr rows /\
    log = map (EvOpen path) (pre ++ [enc]).
Proof.
  intros Hfile H. unfold run, read_csv_rows in H.
  exact (read_csv_rows_loop_returns rt path b encodings encodings Hfile
           [] rows enc log H).
Qed.

Lemma read_csv_rows_returns_first_witness :
  files sample_runtime (lit "people.csv") = Some people_csv /\
  run sample_runtime (read_csv_rows (lit "people.csv") DEFAULT_ENCODINGS)
    = (inr (people_rows, lit "utf-8"),
       [EvOpen (lit "people.csv") (lit "utf-8")]) /\
  exists pre post text,
    DEFAULT_ENCODINGS = pre ++ lit "utf-8" :: post /\
    Forall (undecodable sample_runtime people_csv) pre /\
    decodes sample_runtime people_csv (lit "utf-8") text /\
    DictReader text = inr people_rows /\
    [EvOpen (lit "people.csv") (lit "utf-8")]
      = map (EvOpen (lit "people.csv")) (pre ++ [lit "utf-8"]).
Proof.
  assert (H : run sample_runtime
                (read_csv_rows (lit "people.csv") DEFAULT_ENCODINGS)
              = (inr (people_rows, lit "utf-8"),
                 [EvOpen (lit "people.csv") (lit "utf-8")]))
    by (vm_compute; reflexivity).
  split; [reflexivity|]. split; [exact H|].
  exact (read_csv_rows_returns_first sample_runtime (lit "people.csv")
           people_csv DEFAULT_ENCODINGS _ _ _ eq_refl H).
Defined.



(** X3.  Called on a path where there is no file, [read_csv_rows] fails at
    the first [open] with the [FileNotFoundError] of the operating system,
    which the loop does not catch; with no candidate at all it fails with
    the [ValueError] naming the empty tuple and never touches the path. *)
Theorem read_csv_rows_missing_file rt path :
  files rt path = None ->
  (forall enc encodings,
     run rt (read_csv_rows path (enc :: encodings))
       = (inl (FileNotFoundError
                 (lit "[Errno 2] No such file or directory: " ++ repr path)),
          [EvOpen path enc])) /\
  run rt (read_csv_rows path [])
    = (inl (ValueError (lit "Could not decode file using encodings: ()")), []).
Proof.
  intros Hfile. split; [|reflexivity].
  intros enc encodings. unfold run, read_csv_rows.
  cbn [read_csv_rows_loop]. unfold except_UnicodeDecodeError, bind, open_read.
  now rewrite Hfile.
Qed.

Lemma read_csv_rows_missing_file_witness :
  files sample_runtime (lit "nope.csv") = None /\
  run sample_runtime (read_csv_rows (lit "nope.csv") DEFAULT_ENCODINGS)
    = (inl (FileNotFoundError
              (lit "[Errno 2] No such file or directory: 'nope.csv'")),
       [EvOpen (lit "nope.csv") (lit "utf-8")]).
Proof.
  split; [reflexivity|].
  exact (proj1 (read_csv_rows_missing_file sample_runtime (lit "nope.csv")
                  eq_refl) (lit "utf-8") [lit "utf-8-sig"; lit "cp1252"]).
Defined.

(** ** The default encodings *)

Lemma utf_8_decode_bom r :
  utf_8_decode_N (0xEF :: 0xBB :: 0xBF :: r)%N = cons 0xFEFF%N <$> utf_8_decode_N r.
Proof. reflexivity. Qed.

(** What [utf-8-sig] decodes, [utf-8] decodes too. *)
Lemma utf_8_sig_decodes_utf_8 b text :
  utf_8_sig_decode b = Some text -> is_Some (utf_8_decode b).
Proof.
  unfold utf_8_sig_decode, utf_8_decode.
  destruct (starts_with _ _) eqn:Hs; [|eauto].
  destruct (map Byte.to_N b) as [|x0 [|x1 [|x2 r]]]; cbn [starts_with] in Hs;
    try discriminate; try (rewrite ?andb_false_r in Hs; discriminate).
  rewrite andb_true_r in Hs.
  apply andb_prop in Hs as [H0 Hs]. apply andb_prop in Hs as [H1 H2].
  apply N.eqb_eq in H0, H1, H2. subst x0 x1 x2.
  change (drop 3 (0xEF :: 0xBB :: 0xBF :: r)%N) with r.
  intros H. rewrite utf_8_decode_bom, H. cbn. eauto.
Qed.

Lemma utf_8_sig_fails_with_utf_8 b :
  utf_8_decode b = None -> utf_8_sig_decode b = None.
Proof.
  intros H. destruct (utf_8_sig_decode b) as [text|] eqn:Hsig; [|reflexivity].
  apply utf_8_sig_decodes_utf_8 in Hsig as [t Ht]. congruence.
Qed.



Section DefaultRead.

Variable rt : runtime.
Variable path : str.
Variable b : bytes.
Hypothesis Hfile : files rt path = Some b.

Lemma read_default_utf_8 text log :
  utf_8_decode b = Some text ->
  exists rows,
    DictReader text = inr rows /\
    read_csv_rows path DEFAULT_ENCODINGS rt log
      = (inr (rows, lit "utf-8"), log ++ [EvOpen path (lit "utf-8")]).
Proof.
  intros H.
  exact (read_csv_rows_adopts rt path b Hfile DEFAULT_ENCODINGS [] (lit "utf-8")
           [lit "utf-8-sig"; lit "cp1252"] text log eq_refl
           ltac:(constructor) ltac:(now exists utf_8_decode)).
Qed.

Lemma default_prefix_undecodable :
  utf_8_decode b = None ->
  Forall (undecodable rt b) [lit "utf-8"; lit "utf-8-sig"].
Proof.
  intros H. repeat constructor.
  - now exists utf_8_decode.
  - exists utf_8_sig_decode. split; [reflexivity|].
    now apply utf_8_sig_fails_with_utf_8.
Qed.

Lemma read_default_cp1252 text log :
  utf_8_decode b = None -> cp1252_decode b = Some text ->
  exists rows,
    DictReader text = inr rows /\
    read_csv_rows path DEFAULT_ENCODINGS rt log
      = (inr (rows, lit "cp1252"), log ++ map (EvOpen path) DEFAULT_ENCODINGS).
Proof.
  intros H8 Hcp.
  exact (read_csv_rows_adopts rt path b Hfile DEFAULT_ENCODINGS
           [lit "utf-8"; lit "utf-8-sig"] (lit "cp1252") [] text log eq_refl
           (default_prefix_undecodable H8) ltac:(now exists cp1252_decode)).
Qed.

Lemma read_default_fails log :
  utf_8_decode b = None -> cp1252_decode b = None ->
  read_csv_rows path DEFAULT_ENCODINGS rt log
    = (inl (ValueError
              (lit "Could not decode file using encodings: ('utf-8', 'utf-8-sig', 'cp1252')")),
       log ++ map (EvOpen path) DEFAULT_ENCODINGS).
Proof.
  intros H8 Hcp.
  rewrite (read_csv_rows_exhausted rt path b Hfile DEFAULT_ENCODINGS log).
  - reflexivity.
  - change DEFAULT_ENCODINGS
      with ([lit "utf-8"; lit "utf-8-sig"] ++ [lit "cp1252"]).
    apply Forall_app. split; [exact (default_prefix_undecodable H8)|].
    repeat constructor. now exists cp1252_decode.
Qed.

End DefaultRead.

(** The failures of the schema check. *)
Lemma validate_columns_error rows expected_columns e :
  validate_columns rows expected_columns = inl e ->
  e = ValueError (lit "CSV has no rows") \/
  exists missing, e = ValueError (lit "Missing columns: " ++ str_of_list missing).
Proof.
  unfold validate_columns. destruct rows as [|first rest].
  - intros [= <-]. now left.
  - destruct (negb _); [|discriminate]. intros [= <-]. right. eauto.
Qed.

Lemma validate_rows_body_app i row age_column errors :
  validate_rows_body i row age_column errors
  = errors ++ validate_rows_body i row age_column [].
Proof.
  unfold validate_rows_body.
  destruct (restkey row) as [[|x extra]|]; try reflexivity;
    destruct (has_None (named row)); try reflexivity;
    destruct (py_int _); cbn; now rewrite ?app_nil_r.
Qed.

Lemma validate_rows_loop_app i rows age_column : forall errors,
  validate_rows_loop i rows age_column errors
  = errors ++ validate_rows_loop i rows age_column [].
Proof.
  revert i. induction rows as [|row rows IH]; intros i errors; cbn.
  - now rewrite app_nil_r.
  - rewrite IH, (IH _ (validate_rows_body i row age_column [])).
    rewrite (validate_rows_body_app i row age_column errors).
    now rewrite app_assoc.
Qed.

Lemma validate_rows_loop_cons i row rows age_column :
  validate_rows_loop i (row :: rows) age_column []
  = validate_rows_body i row age_column []
    ++ validate_rows_loop (S i) rows age_column [].
Proof. cbn. apply validate_rows_loop_app. Qed.

(** A row that adds no error has an age that [int] accepts. *)
Lemma validate_rows_body_nil i row age_column :
  validate_rows_body i row age_column [] = [] ->
  is_Some (age_of age_column row).
Proof.
  unfold validate_rows_body, age_of.
  destruct (restkey row) as [[|x extra]|]; try discriminate;
    destruct (has_None (named row)); try discriminate;
    destruct (py_int _); try discriminate; eauto.
Qed.

Lemma validate_rows_loop_nil rows age_column : forall i,
  validate_rows_loop i rows age_column [] = [] ->
  Forall (fun r => is_Some (age_of age_column r)) rows.
Proof.
  induction rows as [|row rows IH]; intros i H; [constructor|].
  rewrite validate_rows_loop_cons in H. apply app_eq_nil in H as [Hb Hl].
  constructor; [exact (validate_rows_body_nil _ _ _ Hb)|exact (IH _ Hl)].
Qed.

Lemma parse_ages_map age_column rows :
  Forall (fun r => is_Some (age_of age_column r)) rows ->
  parse_ages age_column rows
  = inr (map (fun r => default 0%Z (age_of age_column r)) rows).
Proof.
  induction 1 as [|r rows [z Hz] _ IH]; [reflexivity|].
  cbn [parse_ages map]. unfold parse_age, age_of in *.
  rewrite IH, Hz. reflexivity.
Qed.

Lemma parse_ages_inr age_column rows ages :
  parse_ages age_column rows = inr ages ->
  Forall (fun r => is_Some (age_of age_column r)) rows.
Proof.
  revert ages. induction rows as [|r rows IH]; intros ages H; [constructor|].
  cbn [parse_ages] in H. unfold parse_age in H.
  destruct (py_int _) as [z|] eqn:Hz; [|discriminate].
  destruct (parse_ages age_column rows) as [e|zs]; [discriminate|].
  constructor; [unfold age_of; now rewrite Hz|now apply (IH zs)].
Qed.

(** What [compute_summary] does when every age parses. *)
Lemma compute_summary_valid age_column rows :
  Forall (fun r => is_Some (age_of age_column r)) rows ->
  compute_summary rows age_column
  = match true_divide
            (sum_ages (map (fun r => default 0%Z (age_of age_column r)) rows))
            (Z.of_nat (length rows)) with
    | inl e => inl e
    | inr avg => inr (length rows, avg)
    end.
Proof.
  intros H. unfold compute_summary. now rewrite (parse_ages_map _ _ H).
Qed.

Lemma sum_ages_bounds lo hi ages :
  Forall (fun a => (lo <= a <= hi)%Z) ages ->
  (Z.of_nat (length ages) * lo <= sum_ages ages <= Z.of_nat (length ages) * hi)%Z.
Proof.
  induction 1 as [|a ages Ha _ IH]; cbn [sum_ages foldr length]; [lia|].
  fold (sum_ages ages). lia.
Qed.

Lemma sum_ages_Permutation ages ages' :
  ages ≡ₚ ages' -> sum_ages ages = sum_ages ages'.
Proof. unfold sum_ages. induction 1; cbn [foldr]; lia. Qed.

(** What a summary that [compute_summary] returns is made of. *)
Lemma compute_summary_inr rows age_column total avg :
  compute_summary rows age_column = inr (total, avg) ->
  rows <> [] /\
  Forall (fun r => is_Some (age_of age_column r)) rows /\
  total = length rows /\
  true_divide (sum_ages (map (fun r => default 0%Z (age_of age_column r)) rows))
    (Z.of_nat (length rows)) = inr avg.
Proof.
  intros H.
  assert (Hall : Forall (fun r => is_Some (age_of age_column r)) rows).
  { unfold compute_summary in H.
    destruct (parse_ages age_column rows) as [e|ages] eqn:Hp; [discriminate|].
    exact (parse_ages_inr _ _ _ Hp). }
  rewrite (compute_summary_valid _ _ Hall) in H.
  destruct (true_divide _ _) as [e|q] eqn:Hdiv; [discriminate|].
  injection H as <- <-. repeat split; [|exact Hall].
  intros ->. discriminate Hdiv.
Qed.

(** On rows that have passed [validate_rows], [compute_summary] returns or
    fails with the [OverflowError] of the division. *)
Lemma compute_summary_checked rows age_column :
  validate_rows rows age_column = [] -> rows <> [] ->
  (exists avg, compute_summary rows age_column = inr (length rows, avg)) \/
  compute_summary rows age_column
  = inl (OverflowError (lit "integer division result too large for a float")).
Proof.
  intros Hnil Hne.
  rewrite (compute_summary_valid _ _ (validate_rows_loop_nil _ _ _ Hnil)).
  destruct (true_divide _ _) as [e|q] eqn:Hdiv; [right|left; now exists q].
  apply true_divide_error in Hdiv as [[Hb _]|[_ ->]]; [|reflexivity].
  destruct rows; [contradiction|discriminate Hb].
Qed.

Lemma validate_rows_body_length i row age_column :
  length (validate_rows_body i row age_column []) <= 1.
Proof.
  unfold validate_rows_body.
  destruct (restkey row) as [[|x extra]|]; cbn; try lia;
    destruct (has_None (named row)); cbn; try lia;
    destruct (py_int _); cbn; lia.
Qed.

Lemma validate_rows_loop_length rows age_column : forall i,
  length (validate_rows_loop i rows age_column []) <= length rows.
Proof.
  induction rows as [|row rows IH]; intros i; [cbn; lia|].
  rewrite validate_rows_loop_cons, length_app. cbn [length].
  pose proof (validate_rows_body_length i row age_column).
  specialize (IH (S i)). lia.
Qed.

(** The failures [after_read] can end in once the file has been read:
    those of the schema check and the [OverflowError] of the average. *)
Lemma after_read_failure expected_columns age_column rows enc log e log' :
  after_read expected_columns age_column (inr (rows, enc), log) = (inl e, log') ->
  e = ValueError (lit "CSV has no rows") \/
  (exists missing,
     e = ValueError (lit "Missing columns: " ++ str_of_list missing)) \/
  e = OverflowError (lit "integer division result too large for a float").
Proof.
  cbn [after_read].
  destruct (validate_columns rows expected_columns) as [e'|[]] eqn:Hcols.
  - intros [= <- _].
    destruct (validate_columns_error _ _ _ Hcols) as [He|He]; auto.
  - destruct (bool_decide (validate_rows rows age_column = [])) eqn:Herr;
      cbn [negb]; [|discriminate].
    apply bool_decide_eq_true in Herr.
    assert (Hne : rows <> []) by (intros ->; discriminate Hcols).
    destruct (compute_summary_checked rows age_column Herr Hne)
      as [[avg ->]| ->]; [discriminate|].
    intros [= <- _]. auto.
Qed.

(** X4.  With the default candidates the encoding reported in a result is
    [utf-8] when the file is valid UTF-8 and [cp1252] otherwise; [utf-8-sig]
    is never reported, since it is tried after [utf-8], which decodes every
    file that [utf-8-sig] decodes (a byte order mark stays in the text as
    U+FEFF). *)
Theorem encoding_used_of_defaults rt path b expected_columns age_column
    result log :
  files rt path = Some b ->
  run rt (validate_csv path expected_columns age_column) = (inr result, log) ->
  ((is_Some (utf_8_decode b) /\ encoding_used result = lit "utf-8" /\
    log = [EvExists path; EvOpen path (lit "utf-8")])
   \/ (utf_8_decode b = None /\ encoding_used result = lit "cp1252" /\
       log = EvExists path :: map (EvOpen path) DEFAULT_ENCODINGS)) /\
  encoding_used result <> lit "utf-8-sig".
Proof.
  intros Hfile H.
  destruct (validate_csv_returns _ _ _ _ _ _ H)
    as (b' & rows & Hfile' & Hread & _).
  assert (b' = b) by congruence. subst b'.
  assert (Hcases :
    (is_Some (utf_8_decode b) /\ encoding_used result = lit "utf-8" /\
     log = [EvExists path; EvOpen path (lit "utf-8")])
    \/ (utf_8_decode b = None /\ encoding_used result = lit "cp1252" /\
        log = EvExists path :: map (EvOpen path) DEFAULT_ENCODINGS)).
  { destruct (utf_8_decode b) as [text|] eqn:H8.
    - destruct (read_default_utf_8 rt path b Hfile text [EvExists path] H8)
        as (rows' & _ & Heq).
      rewrite Heq in Hread. injection Hread as _ <- <-. left. eauto.
    - destruct (cp1252_decode b) as [text|] eqn:Hcp.
      + destruct (read_default_cp1252 rt path b Hfile text [EvExists path] H8 Hcp)
          as (rows' & _ & Heq).
        rewrite Heq in Hread. injection Hread as _ <- <-. right. eauto.
      + rewrite (read_default_fails rt path b Hfile [EvExists path] H8 Hcp)
          in Hread. discriminate. }
  split; [exact Hcases|].
  destruct Hcases as [(_ & -> & _)|(_ & -> & _)]; discriminate.
Qed.

Lemma encoding_used_of_defaults_witness :
  files sample_runtime (lit "bad_age.csv") = Some bad_age_csv /\
  run sample_runtime (validate_csv (lit "bad_age.csv") default_columns (lit "edad"))
    = (inr bad_age_result,
       [EvExists (lit "bad_age.csv"); EvOpen (lit "bad_age.csv") (lit "utf-8")]) /\
  encoding_used bad_age_result <> lit "utf-8-sig".
Proof.
  assert (H : run sample_runtime
                (validate_csv (lit "bad_age.csv") default_columns (lit "edad"))
              = (inr bad_age_result,
                 [EvExists (lit "bad_age.csv");
                  EvOpen (lit "bad_age.csv") (lit "utf-8")]))
    by (vm_compute; reflexivity).
  split; [reflexivity|]. split; [exact H|].
  exact (proj2 (encoding_used_of_defaults sample_runtime (lit "bad_age.csv")
                  bad_age_csv default_columns (lit "edad") _ _ eq_refl H)).
Defined.



(** X6.  For a regular file of at most 131072 bytes (which the field limit
    of the [csv] module cannot concern), [validate_csv] fails in four ways
    only: the [ValueError] of a file no candidate decodes, of a file
    without rows, or of missing columns, and the [OverflowError] of an
    average beyond the floats.  It never fails in [int] while averaging,
    never divides by zero, and lets no [UnicodeDecodeError] or
    [LookupError] out. *)
Theorem validate_csv_failures rt path b expected_columns age_column e log :
  files rt path = Some b ->
  (N.of_nat (length b) <= field_size_limit)%N ->
  run rt (validate_csv path expected_columns age_column) = (inl e, log) ->
  e = ValueError
        (lit "Could not decode file using encodings: ('utf-8', 'utf-8-sig', 'cp1252')")
  \/ e = ValueError (lit "CSV has no rows")
  \/ (exists missing,
        e = ValueError (lit "Missing columns: " ++ str_of_list missing))
  \/ e = OverflowError (lit "integer division result too large for a float").
Proof.
  intros Hfile _ H.
  rewrite (validate_csv_after_read _ _ _ Hfile) in H.
  destruct (utf_8_decode b) as [text|] eqn:H8.
  - destruct (read_default_utf_8 rt path b Hfile text [EvExists path] H8)
      as (rows & _ & Heq).
    rewrite Heq in H. right. exact (after_read_failure _ _ _ _ _ _ _ H).
  - destruct (cp1252_decode b) as [text|] eqn:Hcp.
    + destruct (read_default_cp1252 rt path b Hfile text [EvExists path] H8 Hcp)
        as (rows & _ & Heq).
      rewrite Heq in H. right. exact (after_read_failure _ _ _ _ _ _ _ H).
    + rewrite (read_default_fails rt path b Hfile [EvExists path] H8 Hcp) in H.
      injection H as <- _. now left.
Qed.

Lemma validate_csv_failures_witness :
  files sample_runtime (lit "huge_age.csv") = Some huge_age_csv /\
  (N.of_nat (length huge_age_csv) <= field_size_limit)%N /\
  run sample_runtime
    (validate_csv (lit "huge_age.csv") {[ lit "id"; lit "edad" ]} (lit "edad"))
    = (inl (OverflowError (lit "integer division result too large for a float")),
       [EvExists (lit "huge_age.csv"); EvOpen (lit "huge_age.csv") (lit "utf-8")]).
Proof.
  assert (Hlen : (N.of_nat (length huge_age_csv) <= field_size_limit)%N)
    by (vm_compute; discriminate).
  assert (H : run sample_runtime
                (validate_csv (lit "huge_age.csv") {[ lit "id"; lit "edad" ]}
                   (lit "edad"))
              = (inl (OverflowError
                        (lit "integer division result too large for a float")),
                 [EvExists (lit "huge_age.csv");
                  EvOpen (lit "huge_age.csv") (lit "utf-8")]))
    by (vm_compute; reflexivity).
  split; [reflexivity|]. split; [exact Hlen|].
  destruct (validate_csv_failures sample_runtime (lit "huge_age.csv")
              huge_age_csv _ _ _ _ eq_refl Hlen H)
    as [He|[He|[[missing He]|He]]]; try discriminate He.
  exact H.
Defined.

(** X7.  Rows that [validate_rows] passes without error are rows on which
    no [int] of [compute_summary] fails: for a list of rows that is not
    empty it returns their number and the quotient of the sum of their ages
    by that number, as a float, or it fails with the [OverflowError] of the
    division, and then one age at least is [2 ^ 1023] or more in absolute
    value. *)
Theorem compute_summary_after_validate_rows rows age_column :
  validate_rows rows age_column = [] ->
  rows <> [] ->
  let ages := map (fun r => default 0%Z (age_of age_column r)) rows in
  (exists avg,
     compute_summary rows age_column = inr (length rows, avg) /\
     true_divide (sum_ages ages) (Z.of_nat (length rows)) = inr avg)
  \/ (compute_summary rows age_column
      = inl (OverflowError (lit "integer division result too large for a float"))
      /\ Exists (fun z => (2 ^ 1023 <= Z.abs z)%Z) ages).
Proof.
  intros Hnil Hne ages.
  rewrite (compute_summary_valid _ _ (validate_rows_loop_nil _ _ _ Hnil)).
  fold ages.
  assert (Hlen : (0 < Z.of_nat (length rows))%Z)
    by (destruct rows; [contradiction|cbn [length]; lia]).
  destruct (true_divide (sum_ages ages) (Z.of_nat (length rows)))
    as [e|q] eqn:Hdiv; [right|left; now exists q].
  pose proof Hdiv as He.
  apply true_divide_error in He as [[Hb _]|[_ ->]]; [lia|].
  split; [reflexivity|].
  destruct (decide (Exists (fun z => (2 ^ 1023 <= Z.abs z)%Z) ages))
    as [Hex|Hnex]; [exact Hex|exfalso].
  apply not_Exists_Forall in Hnex; [|intros z; apply _].
  assert (Hsmall : Forall (fun z => (- (2 ^ 1023 - 1) <= z <= 2 ^ 1023 - 1)%Z) ages).
  { eapply Forall_impl; [exact Hnex|]. cbn. intros z Hz. lia. }
  apply sum_ages_bounds in Hsmall.
  assert (Hages : length ages = length rows) by (unfold ages; apply length_map).
  rewrite Hages in Hsmall.
  destruct (true_divide_returns (sum_ages ages) (Z.of_nat (length rows)) Hlen)
    as (q & Hq & _); [|congruence].
  set (B := (2 ^ 1023)%Z) in *. lia.
Qed.

Lemma compute_summary_after_validate_rows_witness :
  validate_rows people_rows (lit "edad") = [] /\
  people_rows <> [] /\
  compute_summary people_rows (lit "edad") = inr (3, people_avg).
Proof.
  assert (H : validate_rows people_rows (lit "edad") = [])
    by (vm_compute; reflexivity).
  assert (Hne : people_rows <> []) by discriminate.
  split; [exact H|]. split; [exact Hne|].
  destruct (compute_summary_after_validate_rows people_rows (lit "edad") H Hne)
    as [(avg & Hsum & Hdiv)|[Hsum _]].
  - rewrite Hsum. vm_compute in Hdiv. injection Hdiv as <-. reflexivity.
  - vm_compute in Hsum. discriminate Hsum.
Defined.

(** X8.  In every result [validate_csv] returns, [total_rows] is the number
    of records read, it is at least 1 (a result with no row is never
    returned), and there are at most [total_rows] error messages. *)
Theorem total_rows_counts_records rt path expected_columns age_column
    result log :
  run rt (validate_csv path expected_columns age_column) = (inr result, log) ->
  (exists rows,
     (read_csv_rows path DEFAULT_ENCODINGS rt [EvExists path]).1
       = inr (rows, encoding_used result) /\
     total_rows result = length rows) /\
  1 <= total_rows result /\
  length (errors result) <= total_rows result.
Proof.
  intros H.
  destruct (validate_csv_returns _ _ _ _ _ _ H)
    as (b & rows & _ & Hread & Hcols & Herr & Hcase).
  assert (Hne : rows <> []) by (intros ->; discriminate Hcols).
  assert (Htotal : total_rows result = length rows).
  { destruct Hcase as [(_ & _ & Ht)|(Hnil & avg & Hsum & _)]; [exact Ht|].
    now destruct (compute_summary_inr _ _ _ _ Hsum) as (_ & _ & Ht & _). }
  split; [|split].
  - exists rows. now rewrite Hread.
  - rewrite Htotal. destruct rows; [contradiction|cbn; lia].
  - rewrite Htotal, Herr. apply validate_rows_loop_length.
Qed.

Lemma total_rows_counts_records_witness :
  run sample_runtime (validate_csv (lit "bad_age.csv") default_columns (lit "edad"))
    = (inr bad_age_result,
       [EvExists (lit "bad_age.csv"); EvOpen (lit "bad_age.csv") (lit "utf-8")]) /\
  1 <= total_rows bad_age_result /\
  length (errors bad_age_result) <= total_rows bad_age_result.
Proof.
  assert (H : run sample_runtime
                (validate_csv (lit "bad_age.csv") default_columns (lit "edad"))
              = (inr bad_age_result,
                 [EvExists (lit "bad_age.csv");
                  EvOpen (lit "bad_age.csv") (lit "utf-8")]))
    by (vm_compute; reflexivity).
  split; [exact H|].
  exact (proj2 (total_rows_counts_records _ _ _ _ _ _ H)).
Defined.

(** ** [compute_summary] *)

(** X9.  When the age of every row lies between two integers below
    [2 ^ 53] in absolute value, which floats represent exactly, the average
    [compute_summary] returns lies between them too: rounding the quotient
    to the nearest float does not take it past them. *)
Theorem compute_summary_average_bounds rows age_column total avg lo hi :
  compute_summary rows age_column = inr (total, avg) ->
  Forall (fun r => forall z, age_of age_column r = Some z -> (lo <= z <= hi)%Z)
         rows ->
  (- 2 ^ 53 < lo)%Z -> (hi < 2 ^ 53)%Z ->
  (inject_Z lo <= float_value avg)%Q /\ (float_value avg <= inject_Z hi)%Q.
Proof.
  intros H Hbounds Hlo Hhi.
  destruct (compute_summary_inr _ _ _ _ H) as (Hne & Hall & _ & Hdiv).
  set (ages := map (fun r => default 0%Z (age_of age_column r)) rows) in *.
  assert (Hages : Forall (fun a => (lo <= a <= hi)%Z) ages).
  { unfold ages. apply Forall_map.
    apply Forall_forall. intros r Hr.
    rewrite Forall_forall in Hall, Hbounds.
    destruct (Hall r Hr) as [z Hz]. cbn. rewrite Hz. cbn.
    exact (Hbounds r Hr z Hz). }
  pose proof (sum_ages_bounds lo hi ages Hages) as Hsum.
  assert (Hlen : length ages = length rows) by (unfold ages; apply length_map).
  rewrite Hlen in Hsum.
  assert (Hpos : (0 < Z.of_nat (length rows))%Z)
    by (destruct rows; [contradiction|cbn [length]; lia]).
  destruct (true_divide_bounds (sum_ages ages) (Z.of_nat (length rows)) lo hi
              Hpos Hlo Hhi ltac:(lia)) as (q & Hq & HL & HU).
  rewrite Hq in Hdiv. injection Hdiv as <-. now split.
Qed.

Lemma compute_summary_average_bounds_witness :
  compute_summary people_rows (lit "edad") = inr (3, people_avg) /\
  (inject_Z 23 <= float_value people_avg)%Q /\
  (float_value people_avg <= inject_Z 40)%Q.
Proof.
  assert (H : compute_summary people_rows (lit "edad") = inr (3, people_avg))
    by (vm_compute; reflexivity).
  split; [exact H|].
  apply (compute_summary_average_bounds people_rows (lit "edad") 3 _ 23 40 H);
    [|reflexivity|reflexivity].
  unfold people_rows. cbn [map].
  repeat (constructor;
          [intros z Hz; vm_compute in Hz; injection Hz as <-; lia|]).
  constructor.
Defined.

(** X10.  When [compute_summary] returns, it returns the same count and
    the same average for the rows in any other order. *)
Theorem compute_summary_row_order rows rows' age_column summary :
  compute_summary rows age_column = inr summary ->
  rows ≡ₚ rows' ->
  compute_summary rows' age_column = inr summary.
Proof.
  destruct summary as [total avg]. intros H Hperm.
  destruct (compute_summary_inr _ _ _ _ H) as (Hne & Hall & -> & Hdiv).
  assert (Hall' : Forall (fun r => is_Some (age_of age_column r)) rows')
    by (now rewrite <- Hperm).
  rewrite (compute_summary_valid _ _ Hall').
  rewrite <- (Permutation_length Hperm).
  assert (Hsum : sum_ages (map (fun r => default 0%Z (age_of age_column r)) rows')
                 = sum_ages (map (fun r => default 0%Z (age_of age_column r)) rows)).
  { apply sum_ages_Permutation. symmetry. now apply fmap_Permutation. }
  now rewrite Hsum, Hdiv.
Qed.

Lemma compute_summary_row_order_witness :
  compute_summary people_rows (lit "edad") = inr (3, people_avg) /\
  people_rows ≡ₚ rev people_rows /\
  compute_summary (rev people_rows) (lit "edad") = inr (3, people_avg).
Proof.
  assert (H : compute_summary people_rows (lit "edad") = inr (3, people_avg))
    by (vm_compute; reflexivity).
  assert (Hperm : people_rows ≡ₚ rev people_rows)
    by apply Permutation_rev.
  split; [exact H|]. split; [exact Hperm|].
  exact (compute_summary_row_order _ _ _ _ H Hperm).
Defined.

(** ** [validate_rows] *)

Lemma validate_rows_loop_append rows1 : forall i rows2 age_column,
  validate_rows_loop i (rows1 ++ rows2) age_column []
  = validate_rows_loop i rows1 age_column []
    ++ validate_rows_loop (i + length rows1) rows2 age_column [].
Proof.
  induction rows1 as [|row rows1 IH]; intros i rows2 age_column.
  - cbn. now rewrite Nat.add_0_r.
  - cbn [app]. rewrite !validate_rows_loop_cons, IH, <- app_assoc.
    cbn [length]. now rewrite Nat.add_succ_r.
Qed.

(** X11.  The errors of a list of rows start with the errors of any of its
    initial parts: rows put after other rows change nothing to the messages
    of the rows before them, and are checked as rows numbered from where
    those stop. *)
Theorem validate_rows_append rows1 rows2 age_column :
  validate_rows (rows1 ++ rows2) age_column
  = validate_rows rows1 age_column
    ++ validate_rows_loop (S (length rows1)) rows2 age_column [].
Proof.
  unfold validate_rows. rewrite validate_rows_loop_append. reflexivity.
Qed.

Lemma row_errors_from_nil fieldnames age_column records : forall i,
  row_errors_from i fieldnames age_column records = [] <->
  Forall (fun row => row_issue fieldnames row age_column = None) records.
Proof.
  induction records as [|row records IH]; intros i; cbn [row_errors_from].
  - split; [constructor|reflexivity].
  - split.
    + intros H. apply app_eq_nil in H as [Hrow Hrest].
      constructor; [|now apply (IH (S i))].
      destruct (row_issue _ _ _); [discriminate|reflexivity].
    + intros H. inversion H as [|? ? Hrow Hrest]; subst.
      rewrite Hrow. cbn. now apply IH.
Qed.

Lemma row_issue_None fieldnames row age_column :
  row_issue fieldnames row age_column = None <->
  length row = length fieldnames /\
  int_literal
    (strip (or_empty (row_get (DictReader_row fieldnames row) age_column))).
Proof.
  unfold row_issue, age_issue.
  rewrite <- (py_int_accepts _ (strip_trimmed _)).
  destruct (length fieldnames <? length row) eqn:H1.
  { apply Nat.ltb_lt in H1. split; [discriminate|]. intros [? _]. lia. }
  destruct (length row <? length fieldnames) eqn:H2.
  { apply Nat.ltb_lt in H2. split; [discriminate|]. intros [? _]. lia. }
  apply Nat.ltb_ge in H1, H2.
  destruct (py_int _) as [z|].
  - split; [intros _; split; [lia|eauto]|reflexivity].
  - split; [discriminate|]. intros [_ [z Hz]]. discriminate.
Qed.

(** X12.  [validate_rows] reports no error for the rows of a file exactly
    when every record has as many fields as the header and an age column
    that, once trimmed, is an integer string as [int] reads it: an optional
    sign and decimal digits of any script, 4300 at most, with single
    underscores allowed between digits. *)
Theorem validate_rows_nil_iff fieldnames records age_column :
  validate_rows (map (DictReader_row fieldnames) records) age_column = [] <->
  Forall (fun row =>
            let value :=
              strip (or_empty
                (row_get (DictReader_row fieldnames row) age_column)) in
            length row = length fieldnames /\
            integer_string is_decimal value /\
            (count_decimal value <= 4300)%N)
         records.
Proof.
  unfold validate_rows. rewrite validate_rows_loop_issues. cbn [app].
  rewrite row_errors_from_nil.
  split; intros H; eapply Forall_impl; try exact H;
    intros row Hrow; now apply row_issue_None.
Qed.

(** X13.  When the age column is not a column of the header, every row
    with as many fields as the header is reported, with the empty string
    as the offending value. *)
Theorem age_column_not_in_header i fieldnames row age_column errors :
  age_column ∉ fieldnames ->
  length row = length fieldnames ->
  validate_rows_body i (DictReader_row fieldnames row) age_column errors
  = errors ++ [lit "Row " ++ str_of_nat i ++ lit ": invalid " ++ age_column
               ++ lit " -> ''"].
Proof.
  intros Hnot Hlen. rewrite (validate_rows_body_exact _ _ _ _ _ Hlen).
  assert (Hget : row_get (DictReader_row fieldnames row) age_column = None).
  { unfold row_get.
    assert (Hdom : age_column ∉ dom (named (DictReader_row fieldnames row))).
    { rewrite DictReader_row_dom. now rewrite elem_of_list_to_set. }
    apply not_elem_of_dom in Hdom. now rewrite Hdom. }
  unfold age_issue. rewrite Hget. reflexivity.
Qed.

Lemma age_column_not_in_header_witness :
  (lit "age" ∉ [lit "id"; lit "edad"]) /\
  length [lit "1"; lit "30"] = length [lit "id"; lit "edad"] /\
  validate_rows_body 1 (DictReader_row [lit "id"; lit "edad"] [lit "1"; lit "30"])
    (lit "age") []
  = [lit "Row 1: invalid age -> ''"].
Proof.
  assert (Hnot : lit "age" ∉ [lit "id"; lit "edad"]).
  { intros H. apply elem_of_cons in H as [H|H]; [discriminate H|].
    apply elem_of_cons in H as [H|H]; [discriminate H|inversion H]. }
  split; [exact Hnot|]. split; [reflexivity|].
  exact (age_column_not_in_header 1 [lit "id"; lit "edad"] [lit "1"; lit "30"]
           (lit "age") [] Hnot eq_refl).
Defined.

(** ** White space around a field *)

Lemma lstrip_spaces ws s :
  Forall (fun c => isspace c = true) ws -> lstrip (ws ++ s) = lstrip s.
Proof.
  induction 1 as [|c ws Hc _ IH]; cbn [app lstrip]; [reflexivity|].
  now rewrite Hc.
Qed.

Lemma rstrip_spaces s ws :
  Forall (fun c => isspace c = true) ws -> rstrip (s ++ ws) = rstrip s.
Proof.
  intros H. unfold rstrip. rewrite rev_app_distr, lstrip_spaces; [reflexivity|].
  apply Forall_forall. intros c Hc. rewrite Forall_forall in H. apply H.
  apply list_elem_of_In. apply list_elem_of_In, in_rev in Hc. exact Hc.
Qed.

Lemma lstrip_app s w :
  lstrip (s ++ w) = match lstrip s with [] => lstrip w | _ => lstrip s ++ w end.
Proof.
  induction s as [|c s IH]; cbn [app lstrip].
  - now destruct (lstrip w).
  - destruct (isspace c); [exact IH|reflexivity].
Qed.

(** White space added around a string is trimmed away with its own. *)
Lemma strip_padded ws1 v ws2 :
  Forall (fun c => isspace c = true) ws1 ->
  Forall (fun c => isspace c = true) ws2 ->
  strip (ws1 ++ v ++ ws2) = strip v.
Proof.
  intros H1 H2. unfold strip. rewrite (lstrip_spaces _ _ H1), lstrip_app.
  destruct (lstrip v) as [|c r] eqn:Hv.
  - rewrite <- (app_nil_r ws2), (lstrip_spaces _ _ H2). reflexivity.
  - now apply rstrip_spaces.
Qed.

Lemma or_empty_Some s : or_empty (Some s) = s.
Proof. now destruct s. Qed.

(** X14.  White space around the age field changes nothing to what is
    recorded for a row, message included: under a header without repeated
    names, two rows of the right length whose age fields differ by white
    space added at the ends get the same outcome. *)
Theorem age_check_ignores_padding i fieldnames j age_column row row' v ws1 ws2
    errors :
  NoDup fieldnames ->
  fieldnames !! j = Some age_column ->
  length row = length fieldnames ->
  length row' = length fieldnames ->
  row !! j = Some v ->
  row' !! j = Some (ws1 ++ v ++ ws2) ->
  Forall (fun c => isspace c = true) ws1 ->
  Forall (fun c => isspace c = true) ws2 ->
  validate_rows_body i (DictReader_row fieldnames row') age_column errors
  = validate_rows_body i (DictReader_row fieldnames row) age_column errors.
Proof.
  intros Hnd Hj Hlen Hlen' Hv Hv' H1 H2.
  rewrite (validate_rows_body_exact _ _ _ _ _ Hlen).
  rewrite (validate_rows_body_exact _ _ _ _ _ Hlen').
  unfold age_issue.
  rewrite (DictReader_row_get _ _ _ _ _ Hnd Hlen Hj Hv).
  rewrite (DictReader_row_get _ _ _ _ _ Hnd Hlen' Hj Hv').
  now rewrite !or_empty_Some, (strip_padded _ _ _ H1 H2).
Qed.

Lemma age_check_ignores_padding_witness :
  validate_rows_body 1
    (DictReader_row [lit "id"; lit "edad"] [lit "1"; lit "  4x "]) (lit "edad") []
  = validate_rows_body 1
      (DictReader_row [lit "id"; lit "edad"] [lit "1"; lit "4x"]) (lit "edad") []
  /\ validate_rows_body 1
       (DictReader_row [lit "id"; lit "edad"] [lit "1"; lit "4x"]) (lit "edad") []
     = [lit "Row 1: invalid edad -> '4x'"].
Proof.
  split; [|vm_compute; reflexivity].
  apply (age_check_ignores_padding 1 [lit "id"; lit "edad"] 1 (lit "edad")
           [lit "1"; lit "4x"] [lit "1"; lit "  4x "] (lit "4x")
           (lit "  ") (lit " ")); try reflexivity.
  - repeat constructor; intros H.
    + apply elem_of_cons in H as [H|H]; [discriminate H|inversion H].
    + inversion H.
  - repeat constructor.
  - repeat constructor.
Defined.

(** ** [main] *)

Lemma lstrip_Forall (P : N -> Prop) s : Forall P s -> Forall P (lstrip s).
Proof.
  induction 1 as [|c s Hc Hs IH]; cbn [lstrip]; [constructor|].
  destruct (isspace c); [exact IH|now constructor].
Qed.

Lemma strip_Forall (P : N -> Prop) s : Forall P s -> Forall P (strip s).
Proof.
  intros H. unfold strip, rstrip.
  assert (Hrev : forall l, Forall P l -> Forall P (rev l)).
  { intros l Hl. apply Forall_forall. intros c Hc.
    rewrite Forall_forall in Hl. apply Hl.
    apply list_elem_of_In. apply list_elem_of_In, in_rev in Hc. exact Hc. }
  apply Hrev, lstrip_Forall, Hrev, lstrip_Forall, H.
Qed.

Lemma split_comma_from_no_comma s : forall cur,
  Forall (fun c => c <> 0x2C%N) cur ->
  Forall (Forall (fun c => c <> 0x2C%N)) (split_comma_from cur s).
Proof.
  induction s as [|c s IH]; intros cur Hcur; cbn [split_comma_from].
  - now repeat constructor.
  - destruct (c =? 0x2C)%N eqn:Hc.
    + constructor; [exact Hcur|]. apply IH. constructor.
    + apply IH. apply Forall_app. split; [exact Hcur|].
      repeat constructor. now apply N.eqb_neq.
Qed.

(** X15.  Every column name [main] requires is a piece of the [--columns]
    text between commas, trimmed: it is never empty, has no white space at
    either end and holds no comma. *)
Theorem parse_columns_names columns name :
  name ∈ parse_columns columns ->
  plain_name name /\
  exists piece, piece ∈ split_comma columns /\ name = strip piece.
Proof.
  unfold parse_columns. rewrite elem_of_list_to_set, list_elem_of_filter.
  intros [Hne Hin]. apply list_elem_of_fmap in Hin as (piece & -> & Hpiece).
  split; [|eauto]. split; [exact Hne|]. split; [apply strip_trimmed|].
  apply strip_Forall.
  pose proof (split_comma_from_no_comma columns [] ltac:(constructor)) as Hall.
  rewrite Forall_forall in Hall. now apply Hall.
Qed.

Lemma parse_columns_names_witness :
  (lit "edad" ∈ parse_columns (lit " id , ,edad,")) /\
  plain_name (lit "edad").
Proof.
  assert (H : lit "edad" ∈ parse_columns (lit " id , ,edad,")).
  { assert (Hb : bool_decide (lit "edad" ∈ parse_columns (lit " id , ,edad,"))
                 = true) by (vm_compute; reflexivity).
    now apply bool_decide_eq_true in Hb. }
  split; [exact H|].
  exact (proj1 (parse_columns_names _ _ H)).
Defined.

Lemma split_comma_from_piece piece : forall cur rest,
  Forall (fun c => c <> 0x2C%N) piece ->
  split_comma_from cur (piece ++ 0x2C%N :: rest)
  = (cur ++ piece) :: split_comma_from [] rest.
Proof.
  induction piece as [|c piece IH]; intros cur rest H; cbn [app split_comma_from].
  - now rewrite app_nil_r.
  - inversion H as [|? ? Hc Hp]; subst. apply N.eqb_neq in Hc. rewrite Hc.
    rewrite (IH _ _ Hp), <- app_assoc. reflexivity.
Qed.

Lemma split_comma_from_last piece : forall cur,
  Forall (fun c => c <> 0x2C%N) piece ->
  split_comma_from cur piece = [cur ++ piece].
Proof.
  induction piece as [|c piece IH]; intros cur H; cbn [split_comma_from].
  - now rewrite app_nil_r.
  - inversion H as [|? ? Hc Hp]; subst. apply N.eqb_neq in Hc. rewrite Hc.
    rewrite (IH _ Hp), <- app_assoc. reflexivity.
Qed.

Lemma spaces_no_comma pad :
  Forall (fun c => isspace c = true) pad -> Forall (fun c => c <> 0x2C%N) pad.
Proof.
  intros H. eapply Forall_impl; [exact H|]. intros c Hc ->. discriminate Hc.
Qed.

Lemma split_comma_join_padded pad names :
  Forall (fun c => isspace c = true) pad ->
  Forall plain_name names ->
  split_comma (join_padded pad names)
  = map (fun name => pad ++ name ++ pad) names ++ [pad].
Proof.
  intros Hpad Hnames. unfold split_comma.
  pose proof (spaces_no_comma pad Hpad) as Hp.
  induction Hnames as [|name names (_ & _ & Hn) _ IH]; cbn [join_padded foldr map app].
  - now rewrite split_comma_from_last.
  - fold (join_padded pad names).
    replace (pad ++ name ++ pad ++ 0x2C%N :: join_padded pad names)
      with ((pad ++ name ++ pad) ++ 0x2C%N :: join_padded pad names)
      by (now rewrite <- !app_assoc).
    rewrite split_comma_from_piece, IH; [reflexivity|].
    apply Forall_app. split; [exact Hp|]. apply Forall_app. now split.
Qed.

(** X16.  The set of required columns does not depend on white space
    around the names nor on empty items: names separated by commas, each
    with the same white space on both sides and followed by a last blank
    item, give exactly the set of the names. *)
Theorem parse_columns_padded pad names :
  Forall (fun c => isspace c = true) pad ->
  Forall plain_name names ->
  parse_columns (join_padded pad names) = list_to_set names.
Proof.
  intros Hpad Hnames. unfold parse_columns.
  rewrite (split_comma_join_padded _ _ Hpad Hnames). f_equal.
  rewrite map_app, filter_app. cbn [map].
  assert (Hlast : strip pad = []).
  { rewrite <- (app_nil_r pad), <- (app_nil_r (pad ++ [])), <- app_assoc.
    now rewrite (strip_padded pad [] [] Hpad ltac:(constructor)). }
  rewrite Hlast, filter_cons_False, filter_nil, app_nil_r by (intros H; now apply H).
  induction Hnames as [|name names (Hne & Htrim & _) _ IH]; [reflexivity|].
  cbn [map]. rewrite (strip_padded _ _ _ Hpad Hpad), (strip_of_trimmed _ Htrim).
  rewrite filter_cons_True by exact Hne. now rewrite IH.
Qed.

Lemma parse_columns_padded_witness :
  Forall (fun c => isspace c = true) (lit " ") /\
  Forall plain_name [lit "id"; lit "edad"] /\
  parse_columns (lit " id , edad , ") = {[ lit "id"; lit "edad" ]}.
Proof.
  assert (Hpad : Forall (fun c => isspace c = true) (lit " "))
    by (repeat constructor).
  assert (Hnames : Forall plain_name [lit "id"; lit "edad"]).
  { repeat constructor; try discriminate;
      intros c s' H;
      repeat (destruct s' as [|? s']; try discriminate H);
      injection H; intros; subst; reflexivity. }
  split; [exact Hpad|]. split; [exact Hnames|].
  pose proof (parse_columns_padded (lit " ") [lit "id"; lit "edad"] Hpad Hnames)
    as H.
  change (join_padded (lit " ") [lit "id"; lit "edad"])
    with (lit " id , edad , ") in H.
  rewrite H. cbn [list_to_set foldr]. now rewrite (right_id_L ∅ (∪)).
Defined.

(** X17.  [main] ends in one of three ways and never in the [TypeError]
    of formatting an absent average.  When [validate_csv] raises, it
    returns 2, writes nothing to standard output and one line to standard
    error; when the result has errors it returns 1 and writes three lines
    and one line for each error; otherwise the average is set, it returns 0
    and writes four lines.  Nothing goes to standard error unless the exit
    code is 2. *)
Theorem main_exit_code format_1f args rt :
  let checked :=
    (run rt (validate_csv (file args) (parse_columns (columns args))
               (age_col args))).1 in
  let done := (main format_1f args rt).1 in
  (exists ex,
     checked = inl ex /\ outcome done = Returned 2 /\ stdout done = [] /\
     stderr done = [[0x274C%N] ++ lit " Error: " ++ str_of_exception ex])
  \/ (exists result,
        checked = inr result /\ errors result <> [] /\
        outcome done = Returned 1 /\ stderr done = [] /\
        length (stdout done) = 3 + length (errors result))
  \/ (exists result avg,
        checked = inr result /\ errors result = [] /\
        avg_age result = Some avg /\
        outcome done = Returned 0 /\ stderr done = [] /\
        stdout done
        = [[0x2705%N] ++ lit " Encoding used: " ++ encoding_used result;
           [0x1F4C4%N] ++ lit " Rows: " ++ str_of_nat (total_rows result);
           [0x1F4CA%N] ++ lit " Avg " ++ age_col args ++ lit ": "
             ++ format_1f avg;
           [0x2714%N; 0xFE0F%N] ++ lit " No errors found"]).
Proof.
  cbv zeta. unfold main.
  destruct (run rt (validate_csv (file args) (parse_columns (columns args))
                      (age_col args))) as [[ex|result] log] eqn:Hrun.
  - left. exists ex. cbn [fst outcome stdout stderr]. repeat split; reflexivity.
  - right.
    destruct (validate_csv_returns _ _ _ _ _ _ Hrun)
      as (b & rows & _ & _ & _ & Herr & Hcase).
    destruct (bool_decide (errors result = [])) eqn:Hnil; cbn [negb fst].
    + apply bool_decide_eq_true in Hnil. right.
      destruct Hcase as [(Hne & _)|(_ & avg & _ & Havg)]; [congruence|].
      exists result, avg. rewrite Havg. cbn [fst outcome stdout stderr app].
      repeat split; try assumption; reflexivity.
    + apply bool_decide_eq_false in Hnil. left.
      exists result. cbn [fst outcome stdout stderr].
      repeat split; try assumption.
      cbv zeta. rewrite !length_app, length_map. reflexivity.
Qed.

(** X18.  For a regular file of at most 131072 bytes, when [main] returns 2
    the line on standard error is the error mark followed by one of four
    texts: no candidate encoding decodes the file, it has no rows, required
    columns are missing from its header, or the average is beyond the
    floats. *)
Theorem main_error_line format_1f args rt b :
  files rt (file args) = Some b ->
  (N.of_nat (length b) <= field_size_limit)%N ->
  outcome (main format_1f args rt).1 = Returned 2 ->
  exists text,
    stderr (main format_1f args rt).1 = [[0x274C%N] ++ lit " Error: " ++ text] /\
    (text = lit "Could not decode file using encodings: ('utf-8', 'utf-8-sig', 'cp1252')"
     \/ text = lit "CSV has no rows"
     \/ (exists missing, text = lit "Missing columns: " ++ str_of_list missing)
     \/ text = lit "integer division result too large for a float").
Proof.
  intros Hfile _. unfold main.
  destruct (run rt (validate_csv (file args) (parse_columns (columns args))
                      (age_col args))) as [[ex|result] log] eqn:Hrun.
  - intros _. exists (str_of_exception ex). split; [reflexivity|].
    rewrite (validate_csv_after_read _ _ _ Hfile) in Hrun.
    assert (Hafter : forall rows enc log0,
      after_read (parse_columns (columns args)) (age_col args)
        (inr (rows, enc), log0) = (inl ex, log) ->
      str_of_exception ex = lit "CSV has no rows"
      \/ (exists missing,
            str_of_exception ex = lit "Missing columns: " ++ str_of_list missing)
      \/ str_of_exception ex
         = lit "integer division result too large for a float").
    { intros rows enc log0 Ha.
      destruct (after_read_failure _ _ _ _ _ _ _ Ha) as [->|[[missing ->]| ->]];
        [now left|right; left; now exists missing|right; now right]. }
    destruct (utf_8_decode b) as [text|] eqn:H8.
    + destruct (read_default_utf_8 rt (file args) b Hfile text
                  [EvExists (file args)] H8) as (rows & _ & Heq).
      rewrite Heq in Hrun. right. exact (Hafter _ _ _ Hrun).
    + destruct (cp1252_decode b) as [text|] eqn:Hcp.
      * destruct (read_default_cp1252 rt (file args) b Hfile text
                    [EvExists (file args)] H8 Hcp) as (rows & _ & Heq).
        rewrite Heq in Hrun. right. exact (Hafter _ _ _ Hrun).
      * rewrite (read_default_fails rt (file args) b Hfile
                   [EvExists (file args)] H8 Hcp) in Hrun.
        injection Hrun as <- _. now left.
  - destruct (negb _); [discriminate|].
    destruct (avg_age result); discriminate.
Qed.

Lemma main_error_line_witness :
  files sample_runtime (lit "huge_age.csv") = Some huge_age_csv /\
  (N.of_nat (length huge_age_csv) <= field_size_limit)%N /\
  outcome (main (fun _ => []) (huge_age_args) sample_runtime).1 = Returned 2 /\
  stderr (main (fun _ => []) (huge_age_args) sample_runtime).1
  = [[0x274C%N] ++ lit " Error: integer division result too large for a float"].
Proof.
  assert (Hlen : (N.of_nat (length huge_age_csv) <= field_size_limit)%N)
    by (vm_compute; discriminate).
  assert (H : outcome (main (fun _ => []) huge_age_args sample_runtime).1
              = Returned 2)
    by (vm_compute; reflexivity).
  split; [reflexivity|]. split; [exact Hlen|]. split; [exact H|].
  destruct (main_error_line (fun _ => []) huge_age_args sample_runtime
              huge_age_csv eq_refl Hlen H) as (text & Hline & _).
  rewrite Hline. vm_compute in Hline. injection Hline as <-. reflexivity.
Defined.

Example main_people :
  main (fun _ => lit "31.3") (default_args (lit "people.csv")) sample_runtime
  = ({| outcome := Returned 0;
        stdout := [[0x2705%N] ++ lit " Encoding used: utf-8";
                   [0x1F4C4%N] ++ lit " Rows: 3";
                   [0x1F4CA%N] ++ lit " Avg edad: 31.3";
                   [0x2714%N; 0xFE0F%N] ++ lit " No errors found"];
        stderr := [] |},
     [EvExists (lit "people.csv"); EvOpen (lit "people.csv") (lit "utf-8")]).
Proof. vm_compute. reflexivity. Qed.

Example main_bad_age :
  (main (fun _ => []) (default_args (lit "bad_age.csv")) sample_runtime).1
  = {| outcome := Returned 1;
       stdout := [[0x2705%N] ++ lit " Encoding used: utf-8";
                  [0x1F4C4%N] ++ lit " Rows: 1";
                  [0x0A%N] ++ lit "Errors found:";
                  lit " - Row 1: invalid edad -> 'abc'"];
       stderr := [] |}.
Proof. vm_compute. reflexivity. Qed.

Example parse_columns_default :
  parse_columns (columns (default_args (lit "people.csv"))) = default_columns.
Proof.
  assert (H : bool_decide
                (parse_columns (columns (default_args (lit "people.csv")))
                 = default_columns) = true) by (vm_compute; reflexivity).
  now apply bool_decide_eq_true in H.
Qed.

(** X19.  On parsed rows the schema check depends on the header only: it
    passes exactly when every required column is a field name, whatever
    the number of fields of the first record. *)
Theorem validate_columns_header fieldnames row rest expected_columns :
  validate_columns (DictReader_row fieldnames row :: rest) expected_columns
    = inr tt
  <-> forall c, c ∈ expected_columns -> c ∈ fieldnames.
Proof.
  unfold validate_columns.
  set (missing := filter (fun c => Some c ∉ row_keys (DictReader_row fieldnames row))
                    expected_columns).
  assert (Hmissing : forall c,
            c ∈ missing <-> c ∈ expected_columns /\ c ∉ fieldnames).
  { intros c. unfold missing.
    rewrite elem_of_missing, DictReader_row_dom, elem_of_list_to_set.
    reflexivity. }
  destruct (bool_decide (missing = ∅)) eqn:Hm; cbn [negb].
  - apply bool_decide_eq_true in Hm. split; [|reflexivity].
    intros _ c Hc. destruct (decide (c ∈ fieldnames)) as [Hin|Hout]; [exact Hin|].
    assert (Hc' : c ∈ missing) by (apply Hmissing; now split).
    rewrite Hm in Hc'. now apply not_elem_of_empty in Hc'.
  - apply bool_decide_eq_false in Hm. split; [discriminate|].
    intros Hall. exfalso. apply Hm. apply set_eq. intros c. split.
    + intros Hc. apply Hmissing in Hc as [Hc Hout]. now apply Hall in Hc.
    + intros Hc. now apply not_elem_of_empty in Hc.
Qed.
